(** * OnlyAppeals: the comparable-evidence pipeline

    A shallow embedding of the tool handlers of the OnlyAppeals server
    (case-strength scorer, address normalizer, find-comps, manage-comps,
    generate-argument, generate-packet / export-packet) and the proofs of
    the properties stated about them (Part II); then the other tools
    (lookup-property, check-eligibility, manage-property,
    get-submission-info), the requests of the comp-workspace widget, and
    properties of the tools taken together (Part III).

    Conventions of the embedding.
    - A JavaScript number is an IEEE-754 binary64 value: Rocq's primitive
      [float], whose operations are the processor's and are specified by
      [FloatAxioms] over [SpecFloat].
    - A JavaScript string is a [string] (a sequence of bytes; text outside
      ASCII stands as its UTF-8 encoding).  Character classes of regular
      expressions are taken on ASCII.  [toUpperCase] and [toLowerCase]
      convert the letters of ASCII and leave every other byte: they are
      those of the source on ASCII text ([Text.isAscii]), and not outside
      it, where the source maps some characters to ASCII letters (U+017F
      to S, U+212A to k).
    - An optional field ([x?: T], [T | null]) is an [option].
    - The process-wide [state] object is threaded explicitly: a handler is
      a function from the state to a response and the next state.  A handler
      runs to completion; the suspension at the record-source call is not
      modelled.  A handler that ends with an exception it does not catch
      has [thrown message] in the place of its response: it returns none,
      and what the server library answers then is not part of the
      repository.
    - Host functions without a definition in the repository (number
      formatting, trigonometry, the clock, the record feed) are fields of
      [Builtins] and [World]. *)

From Stdlib Require Import ZArith NArith Uint63 Floats Ascii String DecimalString.
From Stdlib Require Import Lia Zpower Sorted.
From stdpp Require Import base list strings option gmap.

(* ===================================================================== *)
(** * Part I: definitions *)
(* ===================================================================== *)

(** ** ECMAScript built-ins on numbers *)

Definition two52 : float := 4503599627370496%float.

(** [Math.round]: not finite or integral, the argument itself; in (0, 0.5)
    +0; in [-0.5, 0) -0; otherwise the closest integral number, the one
    closer to +infinity on a tie.  Below 2^52 in magnitude, adding and
    removing 2^52 yields an integral neighbour [t] of [x] with
    |t - x| <= 1/2, from which the floor [f] follows; [x - f] and [f + 1]
    are exact. *)
Definition Math_round (x : float) : float :=
  if is_nan x || is_infinity x then x
  else if (two52 <=? abs x)%float then x
  else
    let t := if (0 <=? x)%float then ((x + two52) - two52)%float
             else ((x - two52) + two52)%float in
    if (t =? x)%float then x
    else if (0 <? x)%float && (x <? 0.5)%float then 0%float
    else if (x <? 0)%float && (-0.5 <=? x)%float then (-0)%float
    else
      let f := if (x <? t)%float then (t - 1)%float else t in
      if (0.5 <=? x - f)%float then (f + 1)%float else f.

(** [ToBoolean] on a number: false for +0, -0 and NaN. *)
Definition truthyNumber (x : float) : bool := negb (is_zero x || is_nan x).

(** [ToBoolean] on a string: false for the empty string. *)
Definition truthyString (s : string) : bool :=
  match s with EmptyString => false | _ => true end.

(** [ToBoolean] of an optional value: [undefined] is false. *)
Definition truthyOpt {A} (truthy : A -> bool) (x : option A) : bool :=
  match x with Some v => truthy v | None => false end.

(** [array.reduce((s, c) => s + price(c), 0)]. *)
Definition reduceSum {A} (price : A -> float) (l : list A) : float :=
  fold_left (fun s c => (s + price c)%float) l 0%float.

(** A count or an index as a number. *)
Definition natNumber (n : nat) : float := of_uint63 (Uint63.of_Z (Z.of_nat n)).

(** [array.length] *)
Definition lengthNumber {A} (l : list A) : float := natNumber (length l).

(** The line feed of the template literals. *)
Definition nl : string := String (ascii_of_nat 10) EmptyString.

(** ** Helpers: the case-strength scorer and the filing window *)

Inductive Strength := weak | medium | strong.

Definition calculateCaseStrength
    (assessedValue estimatedMarketValue : float) : Strength :=
  let gap :=
    (((assessedValue - estimatedMarketValue) / assessedValue) * 100)%float in
  if (15 <=? gap)%float then strong
  else if (5 <=? gap)%float then medium
  else weak.

(** The percentage the scorer thresholds, as the specification names it. *)
Definition gapPercent (assessedValue referenceValue : float) : float :=
  (((assessedValue - referenceValue) / assessedValue) * 100)%float.

(** [isFilingWindowOpen], on the month (0-indexed) and day of [new Date()]. *)
Definition isFilingWindowOpen (month day : nat) : bool :=
  if (month =? 0)%nat && (2 <=? day)%nat then true
  else if (month =? 1)%nat then true
  else if (month =? 2)%nat then true
  else false.

(** ** String primitives used by [parseAddress] *)

Module Str.

Definition code (c : ascii) : nat := nat_of_ascii c.

(** [\s] on ASCII: TAB, LF, VT, FF, CR and space. *)
Definition isWhiteSpace (c : ascii) : bool :=
  (code c =? 32)%nat || ((9 <=? code c)%nat && (code c <=? 13)%nat).

(** The characters [.] does not match: LF and CR. *)
Definition isLineTerminator (c : ascii) : bool :=
  (code c =? 10)%nat || (code c =? 13)%nat.

(** [\d]. *)
Definition isDigit (c : ascii) : bool :=
  (48 <=? code c)%nat && (code c <=? 57)%nat.

Definition isUpper (c : ascii) : bool :=
  (65 <=? code c)%nat && (code c <=? 90)%nat.

Definition isLower (c : ascii) : bool :=
  (97 <=? code c)%nat && (code c <=? 122)%nat.

(** [[A-Z]] under the [i] flag. *)
Definition isLetter (c : ascii) : bool := isUpper c || isLower c.

Definition upper (c : ascii) : ascii :=
  if isLower c then ascii_of_nat (code c - 32) else c.

(** [s.toUpperCase()], for [s] in ASCII. *)
Fixpoint toUpperCase (s : string) : string :=
  match s with
  | EmptyString => EmptyString
  | String c s' => String (upper c) (toUpperCase s')
  end.

Fixpoint trimStart (s : string) : string :=
  match s with
  | EmptyString => EmptyString
  | String c s' => if isWhiteSpace c then trimStart s' else s
  end.

Fixpoint trimEnd (s : string) : string :=
  match s with
  | EmptyString => EmptyString
  | String c s' =>
      match trimEnd s' with
      | EmptyString =>
          if isWhiteSpace c then EmptyString else String c EmptyString
      | t => String c t
      end
  end.

Definition trim (s : string) : string := trimEnd (trimStart s).

(** [s.replace(/\s+/g, " ")]: [inRun] tells that the previous character
    was white space, already replaced. *)
Fixpoint collapseFrom (inRun : bool) (s : string) : string :=
  match s with
  | EmptyString => EmptyString
  | String c s' =>
      if isWhiteSpace c then
        if inRun then collapseFrom true s'
        else String " " (collapseFrom true s')
      else String c (collapseFrom false s')
  end.

Definition collapseWhiteSpace (s : string) : string := collapseFrom false s.

Fixpoint drop (n : nat) (s : string) : string :=
  match n, s with
  | S k, String _ s' => drop k s'
  | _, _ => s
  end.

Fixpoint noLineTerminator (s : string) : bool :=
  match s with
  | EmptyString => true
  | String c s' => negb (isLineTerminator c) && noLineTerminator s'
  end.

(** [tok] matched at the head of [s] without regard to case: the text
    matched and what follows it. *)
Fixpoint matchTokenCI (tok s : string) : option (string * string) :=
  match tok, s with
  | EmptyString, _ => Some (EmptyString, s)
  | String t tok', String c s' =>
      if Ascii.eqb (upper t) (upper c) then
        match matchTokenCI tok' s' with
        | Some (m, r) => Some (String c m, r)
        | None => None
        end
      else None
  | String _ _, EmptyString => None
  end.

(** [sep.join(parts)]. *)
Fixpoint join (sep : string) (parts : list string) : string :=
  match parts with
  | [] => EmptyString
  | [p] => p
  | p :: rest => p +:+ sep +:+ join sep rest
  end.

(** [s.split(sep)[0]] for a one-character separator. *)
Fixpoint beforeFirst (sep : ascii) (s : string) : string :=
  match s with
  | EmptyString => EmptyString
  | String c s' =>
      if Ascii.eqb c sep then EmptyString else String c (beforeFirst sep s')
  end.

(** [array.filter(Boolean)] on strings. *)
Definition filterTruthy (parts : list string) : list string :=
  List.filter truthyString parts.

(** [needle] occurs in [s]. *)
Definition occursIn (needle s : string) : Prop :=
  exists pre post : string, s = pre +:+ needle +:+ post.

End Str.

(** ** The address normalizer *)

Module Address.
Import Str.

(** The street-type vocabulary, in the order of the alternation
    [(ST|AV|AVE|BLVD|DR|CT|PL|WAY|LN|RD|TER|CIR|HWY)]. *)
Definition suffixTokens : list string :=
  ["ST"; "AV"; "AVE"; "BLVD"; "DR"; "CT"; "PL"; "WAY"; "LN"; "RD"; "TER";
   "CIR"; "HWY"]%string.

(** The part of the suffix pattern from its second group on, at the head
    of [s]: the alternatives are tried in order; after one, the greedy
    white-space star takes the white space and the third group (any
    characters, greedy) must reach the end of the input, which it does
    when no line terminator is left.  The result is the text of groups 2
    and 3. *)
Fixpoint matchSuffixAt (toks : list string) (s : string)
    : option (string * string) :=
  match toks with
  | [] => None
  | tok :: toks' =>
      match matchTokenCI tok s with
      | Some (m, r) =>
          if noLineTerminator (trimStart r) then Some (m, trimStart r)
          else matchSuffixAt toks' s
      | None => matchSuffixAt toks' s
      end
  end.

(** The suffix pattern with its first group (one or more characters,
    lazy) already holding [g1] and [rest] left: the lazy group grows one
    character at a time; after it the greedy white-space star takes the
    white space (giving some of it back cannot help, as no alternative
    starts with white space). *)
Fixpoint matchSuffixFrom (g1 rest : string)
    : option (string * string * string) :=
  match matchSuffixAt suffixTokens (trimStart rest) with
  | Some (g2, g3) => Some (g1, g2, g3)
  | None =>
      match rest with
      | EmptyString => None
      | String c rest' =>
          if isLineTerminator c then None
          else matchSuffixFrom (g1 +:+ String c EmptyString) rest'
      end
  end.

(** [collapsed.match(...)] for the suffix pattern, anchored at both ends
    and case-insensitive: a lazy group of one or more characters, white
    space, one of [suffixTokens], white space, and a greedy group of any
    characters.  The three groups of the match, if any. *)
Definition suffixMatch (s : string) : option (string * string * string) :=
  match s with
  | EmptyString => None
  | String c rest =>
      if isLineTerminator c then None
      else matchSuffixFrom (String c EmptyString) rest
  end.

(** [\d{4}] at the head of [s]. *)
Definition take4Digits (s : string) : option string :=
  match s with
  | String a (String b (String c (String d _))) =>
      if isDigit a && isDigit b && isDigit c && isDigit d
      then Some (String a (String b (String c (String d EmptyString))))
      else None
  | _ => None
  end.

(** [s.match(/\d{4}/g) || []]: the scan resumes after each match; [skip]
    counts the characters of the last match still to pass. *)
Fixpoint digitGroups (skip : nat) (s : string) : list string :=
  match s with
  | EmptyString => []
  | String _ s' =>
      match skip with
      | S k => digitGroups k s'
      | O =>
          match take4Digits s with
          | Some g => g :: digitGroups 3 s'
          | None => digitGroups 0 s'
          end
      end
  end.

(** [s.replace(/\d{4}/g, "")]. *)
Fixpoint removeDigitGroups (skip : nat) (s : string) : string :=
  match s with
  | EmptyString => EmptyString
  | String c s' =>
      match skip with
      | S k => removeDigitGroups k s'
      | O =>
          match take4Digits s with
          | Some _ => removeDigitGroups 3 s'
          | None => String c (removeDigitGroups 0 s')
          end
      end
  end.

(** [parseInt(n, 10)] on a string of decimal digits. *)
Definition parseInt10 (n : string) : N :=
  let fix go (acc : N) (s : string) : N :=
    match s with
    | EmptyString => acc
    | String c s' => go (10 * acc + N.of_nat (code c - 48))%N s'
    end in
  go 0%N n.

(** [String(val)] for a non-negative integer. *)
Definition stringOfN (val : N) : string :=
  NilZero.string_of_uint (N.to_uint val).

(** The loop over [nums]: the first group of positive value, without its
    leading zeros; the empty string if there is none. *)
Fixpoint firstPositive (nums : list string) : string :=
  match nums with
  | [] => EmptyString
  | n :: rest =>
      let val := parseInt10 n in
      if (0 <? val)%N then stringOfN val else firstPositive rest
  end.

Definition threeLetters (s : string) : bool :=
  match s with
  | String a (String b (String c _)) => isLetter a && isLetter b && isLetter c
  | _ => false
  end.

Fixpoint digitRun (s : string) : nat :=
  match s with
  | String c s' => if isDigit c then S (digitRun s') else 0
  | EmptyString => 0
  end.

(** [[A-Z]?(?=[A-Z]{3})] at the head of [s]: with the letter, then
    without it; what is left after the match. *)
Definition junkTail (s : string) : option string :=
  match s with
  | String c s' =>
      if isLetter c && threeLetters s' then Some s'
      else if threeLetters s then Some s
      else None
  | EmptyString => None
  end.

(** [\d+[A-Z]?(?=[A-Z]{3})]: the greedy [\d+] first takes the whole run of
    [n] digits, then one fewer, down to one. *)
Fixpoint junkDigits (n : nat) (s : string) : option string :=
  match n with
  | O => None
  | S k =>
      match junkTail (drop n s) with
      | Some r => Some r
      | None => junkDigits k s
      end
  end.

(** [s.replace(/^[A-Z]?\d+[A-Z]?(?=[A-Z]{3})/i, "")]: the optional first
    letter is tried taken, then left. *)
Definition stripJunk (s : string) : string :=
  let withLetter :=
    match s with
    | String c s' => if isLetter c then junkDigits (digitRun s') s' else None
    | EmptyString => None
    end in
  match withLetter with
  | Some r => r
  | None =>
      match junkDigits (digitRun s) s with
      | Some r => r
      | None => s
      end
  end.

(** [s.replace(/^#/, "")]. *)
Definition stripHash (s : string) : string :=
  match s with
  | String c s' => if Ascii.eqb c "#" then s' else s
  | EmptyString => EmptyString
  end.

(** [s.replace(/^0+/, "")]. *)
Fixpoint stripZeros (s : string) : string :=
  match s with
  | String c s' => if Ascii.eqb c "0" then stripZeros s' else s
  | EmptyString => EmptyString
  end.

(** [s.replace(/[^A-Z0-9]/gi, "")]. *)
Fixpoint keepAlnum (s : string) : string :=
  match s with
  | EmptyString => EmptyString
  | String c s' =>
      if isLetter c || isDigit c then String c (keepAlnum s')
      else keepAlnum s'
  end.

Fixpoint zeroRun (s : string) : nat :=
  match s with
  | String c s' => if Ascii.eqb c "0" then S (zeroRun s') else 0
  | EmptyString => 0
  end.

(** [s.replace(/^0+(\d)/, "$1")]: the greedy [0+] takes the whole run of
    zeros if a digit follows it, and otherwise all but the last zero,
    which is then the digit kept. *)
Definition stripZeroPrefix (s : string) : string :=
  match zeroRun s with
  | O => s
  | S k =>
      match drop (S k) s with
      | String c _ =>
          if isDigit c then drop (S k) s
          else match k with O => s | S _ => drop k s end
      | EmptyString => match k with O => s | S _ => drop k s end
      end
  end.

Definition parseAddress (raw : string) : string :=
  let trimmed := trim raw in
  let collapsed := trim (collapseWhiteSpace trimmed) in
  match suffixMatch collapsed with
  | Some (beforeSuffix, g2, afterSuffix) =>
      let suffix := toUpperCase g2 in
      let nums := digitGroups 0 beforeSuffix in
      let streetNum := firstPositive nums in
      let streetName := trim (removeDigitGroups 0 beforeSuffix) in
      let streetName := stripJunk streetName in
      let streetName := trim streetName in
      let unit := keepAlnum (stripZeros (stripHash afterSuffix)) in
      let parts := filterTruthy [streetNum; streetName; suffix] in
      let base := collapseWhiteSpace (join " " parts) in
      if truthyString unit then base +:+ " #" +:+ unit else base
  | None => stripZeroPrefix collapsed
  end.

End Address.

(** ** [parseFloat] *)

Module ParseFloat.
Import Str.

(** The leading decimal digits of [s] and what follows them. *)
Fixpoint takeDigits (s : string) : string * string :=
  match s with
  | String c s' =>
      if isDigit c then
        let '(d, r) := takeDigits s' in (String c d, r)
      else (EmptyString, s)
  | EmptyString => (EmptyString, EmptyString)
  end.

Definition valueOfDigits (d : string) : N := Address.parseInt10 d.

(** The number closest to [p / q] (ties to even). *)
Definition roundRatio (negative : bool) (p : N) (q : positive) : float :=
  match p with
  | N0 => SF2Prim (S754_zero negative)
  | Npos p' =>
      SF2Prim (SFdiv prec emax (S754_finite negative p' 0)
                               (S754_finite false q 0))
  end.

(** An [ExponentPart] at the head of [s]: its value. *)
Definition exponentPart (s : string) : Z :=
  match s with
  | String c s' =>
      if Ascii.eqb (upper c) "E" then
        let '(neg, s'') :=
          match s' with
          | String sg t =>
              if Ascii.eqb sg "-" then (true, t)
              else if Ascii.eqb sg "+" then (false, t)
              else (false, s')
          | EmptyString => (false, s')
          end in
        let '(d, _) := takeDigits s'' in
        let v := Z.of_N (valueOfDigits d) in
        if neg then (- v)%Z else v
      else 0%Z
  | EmptyString => 0%Z
  end.

(** The value of the longest prefix of [s] that is a
    [StrUnsignedDecimalLiteral], with the sign [negative]; NaN if there is
    none. *)
Definition unsignedLiteral (negative : bool) (s : string) : float :=
  match matchTokenCI "Infinity" s with
  | Some (m, _) =>
      if String.eqb m "Infinity" then SF2Prim (S754_infinity negative)
      else nan
  | None =>
      let '(int, r1) := takeDigits s in
      let '(frac, r2) :=
        match r1 with
        | String c r =>
            if Ascii.eqb c "." then takeDigits r else (EmptyString, r1)
        | EmptyString => (EmptyString, r1)
        end in
      if truthyString int || truthyString frac then
        let m := valueOfDigits (int +:+ frac) in
        let e := (exponentPart r2 - Z.of_nat (String.length frac))%Z in
        match e with
        | Zneg k => roundRatio negative m (10 ^ k)%positive
        | Z0 => roundRatio negative m 1
        | Zpos k => roundRatio negative (m * Npos (10 ^ k)%positive) 1
        end
      else nan
  end.

Definition parseFloat (s : string) : float :=
  match trimStart s with
  | String c s' =>
      if Ascii.eqb c "-" then unsignedLiteral true s'
      else if Ascii.eqb c "+" then unsignedLiteral false s'
      else unsignedLiteral false (String c s')
  | EmptyString => nan
  end.

End ParseFloat.

(** ** In-memory state *)

Inductive PropertyType := sfh | condo | townhouse | live_work | co_op.

Definition PropertyType_toString (t : PropertyType) : string :=
  match t with
  | sfh => "sfh"
  | condo => "condo"
  | townhouse => "townhouse"
  | live_work => "live-work"
  | co_op => "co-op"
  end.

Module Property.
Record t := mk {
  address : string;
  apn : string;
  type : PropertyType;
  assessedValue : float;
  estimatedMarketValue : float;
  purchaseYear : option float;
  sqft : option float;
  beds : option float;
  baths : option float;
  lat : option float;
  lng : option float;
  neighborhood : option string;
}.
End Property.

Module Comp.
Record t := mk {
  id : string;
  address : string;
  saleDate : string;
  salePrice : float;
  sqft : float;
  beds : float;
  baths : float;
  distance : float;
  included : bool;
  notes : string;
}.

(** [c.included = b], every other field kept. *)
Definition setIncluded (b : bool) (c : t) : t :=
  mk (id c) (address c) (saleDate c) (salePrice c) (sqft c) (beds c)
     (baths c) (distance c) b (notes c).
End Comp.

Inductive Tone := formal | neutral | concise.

Module Argument.
Record t := mk {
  narrative : string;
  declaredMarketValue : float;
  tone : Tone;
}.
End Argument.

Record AppState := mkState {
  property : option Property.t;
  comps : list Comp.t;
  argument : option Argument.t;
}.

(** The [state] the server starts with. *)
Definition initialState : AppState := mkState None [] None.

Definition Strength_toString (s : Strength) : string :=
  match s with weak => "weak" | medium => "medium" | strong => "strong" end.

(** ** Responses of a tool handler *)

Inductive Content := text (s : string) | markdown (s : string).

Record CompWorkspaceProps := mkCompWorkspace {
  cw_property : option Property.t;
  cw_comps : list Comp.t;
  cw_caseStrength : Strength;
}.

Record PacketPreviewProps := mkPacketPreview {
  pp_property : Property.t;
  pp_comps : list Comp.t;
  pp_argument : Argument.t;
  pp_caseStrength : Strength;
  pp_avgCompPrice : float;
  pp_filingWindowOpen : bool;
}.

Inductive Response :=
  | error (message : string)
  | reply (output : Content)
  | widgetCompWorkspace (props : CompWorkspaceProps) (output : Content)
  | widgetPacketPreview (props : PacketPreviewProps) (output : Content)
  | thrown (message : string).

(** The response returned is an error response ([isError: true]).  A
    handler that throws returns no response, so none that is an error. *)
Definition isError (r : Response) : bool :=
  match r with error _ => true | _ => false end.

(** ** The record source and the host *)

Record Geom := mkGeom {
  geom_type : string;
  coordinates : float * float;
}.

Record SFRecord := mkSFRecord {
  property_location : option string;
  parcel_number : option string;
  block : option string;
  lot : option string;
  use_code : option string;
  property_class_code_definition : option string;
  year_property_built : option string;
  number_of_bedrooms : option string;
  number_of_bathrooms : option string;
  property_area : option string;
  assessed_land_value : option string;
  assessed_improvement_value : option string;
  current_sales_date : option string;
  assessor_neighborhood : option string;
  the_geom : option Geom;
}.

(** Host functions whose definition is not part of the repository. *)
Record Builtins := mkBuiltins {
  (** [String(x)] and [x] in a template literal *)
  Number_toString : float -> string;
  (** [x.toLocaleString("en-US")] *)
  toLocaleString_enUS : float -> string;
  (** [x.toLocaleString()], in the locale of the host *)
  toLocaleString : float -> string;
  Math_sin : float -> float;
  Math_cos : float -> float;
  Math_atan2 : float -> float -> float;
  (** [x ** y] *)
  Math_pow : float -> float -> float;
}.

(** What a handler reads from outside the process while it runs: the clock
    and the record feed.  [querySFData where select limit order] is the rows
    of the feed, or the message of the exception thrown. *)
Record World := mkWorld {
  (** [Date.now()] *)
  Date_now : float;
  (** [new Date().getMonth()] and [new Date().getDate()] *)
  Date_month : nat;
  Date_day : nat;
  (** [d.toISOString().split("T")[0]] for [d], the date of [new Date()]
      moved back by the given number of months with [setMonth]: the day in
      ISO form, or the message of the [RangeError] that [toISOString]
      throws when [d] is out of the range of [Date] *)
  cutoffDate : float -> string + string;
  querySFData :
    string -> option string -> float -> option string -> string + list SFRecord;
}.

(** [x.toFixed(1)]: not finite or from 1e21 on, [String(x)]; otherwise the
    digits of the integer [n] closest to [10 x] (the larger on a tie), the
    last one after the point, behind the sign of [x]. *)
Definition toFixed1 (B : Builtins) (x : float) : string :=
  match Prim2SF x with
  | S754_zero _ => "0.0"
  | S754_finite negative m e =>
      if (1e21 <=? abs x)%float then Number_toString B x
      else
        let n :=
          match e with
          | Zneg k =>
              ((20 * Zpos m + 2 ^ Zpos k) / 2 ^ (Zpos k + 1))%Z
          | _ => (10 * Zpos m * 2 ^ e)%Z
          end in
        let digits := Address.stringOfN (Z.to_N n) in
        let digits :=
          if (String.length digits <=? 1)%nat then "0" +:+ digits else digits in
        let k := String.length digits in
        (if negative then "-" else "")
          +:+ substring 0 (k - 1) digits +:+ "." +:+ substring (k - 1) 1 digits
  | _ => Number_toString B x
  end.

Definition LATEST_ROLL_YEAR : string := "2024".

Definition Math_PI : float := 0x1.921fb54442d18p+1%float.

Set Warnings "-inexact-float".

Section Handlers.

Context (B : Builtins).

Definition formatCurrency (n : float) : string :=
  "$" +:+ toLocaleString_enUS B n.

Definition haversineDistance (lat1 lng1 lat2 lng2 : float) : float :=
  let R := 3959%float in
  let dLat := (((lat2 - lat1) * Math_PI) / 180)%float in
  let dLng := (((lng2 - lng1) * Math_PI) / 180)%float in
  let a :=
    (Math_pow B (Math_sin B (dLat / 2)) 2 +
     Math_cos B ((lat1 * Math_PI) / 180) *
     Math_cos B ((lat2 * Math_PI) / 180) *
     Math_pow B (Math_sin B (dLng / 2)) 2)%float in
  (R * 2 * Math_atan2 B (sqrt a) (sqrt (1 - a)))%float.

(** [included.reduce((s, c) => s + c.salePrice, 0) / included.length] *)
Definition meanSalePrice (included : list Comp.t) : float :=
  (reduceSum Comp.salePrice included / lengthNumber included)%float.

(** [state.comps.filter((c) => c.included)] *)
Definition includedComps (s : AppState) : list Comp.t :=
  List.filter Comp.included (comps s).

End Handlers.

(** ** Tool: find-comps *)

Section FindComps.

Context (B : Builtins) (W : World).

(** The radii the search tries, in the order they are pushed. *)
Definition radiiToTry (radius : float) : list float :=
  [radius]
    ++ (if (radius <? 0.75)%float then [0.75%float] else [])
    ++ (if (radius <? 1.0)%float then [1.0%float] else [])
    ++ (if (radius <? 1.5)%float then [1.5%float] else [])
    ++ (if (radius <? 2.0)%float then [2.0%float] else []).

Definition compsWhereClause
    (lat lng radiusMeters : float) (cutoffStr apn : string) : string :=
  "within_circle(the_geom, " +:+ Number_toString B lat +:+ ", "
    +:+ Number_toString B lng +:+ ", "
    +:+ Number_toString B radiusMeters
    +:+ ") AND (use_code='SRES' OR use_code='MRES') AND closed_roll_year='"
    +:+ LATEST_ROLL_YEAR
    +:+ "' AND current_sales_date IS NOT NULL AND current_sales_date > '"
    +:+ cutoffStr +:+ "' AND parcel_number != '" +:+ apn +:+ "'".

(** The query of one turn of the loop, at radius [r]. *)
Definition queryRadius
    (lat lng : float) (cutoffStr apn : string) (limit r : float)
    : string + list SFRecord :=
  let radiusMeters := Math_round (r * 1609.34)%float in
  querySFData W (compsWhereClause lat lng radiusMeters cutoffStr apn)
    None limit (Some "current_sales_date DESC"%string).

(** The loop [for (const r of radiiToTry)], entered with the current
    values of [records] and [usedRadius]: it leaves at the first radius
    with a record, or when the radii are used up, or with the exception
    the query throws. *)
Fixpoint searchRadii (query : float -> string + list SFRecord)
    (radii : list float) (records : list SFRecord) (usedRadius : float)
    : string + (list SFRecord * float) :=
  match radii with
  | [] => inr (records, usedRadius)
  | r :: rest =>
      match query r with
      | inl e => inl e
      | inr records' =>
          if (0 <? length records')%nat then inr (records', r)
          else searchRadii query rest records' r
      end
  end.

Definition assessedOf (rec : SFRecord) : float :=
  (ParseFloat.parseFloat (default "0"%string (assessed_land_value rec)) +
   ParseFloat.parseFloat
     (default "0"%string (assessed_improvement_value rec)))%float.

(** The identifier of a discovered comparable:
    [comp-${rec.parcel_number ?? Date.now()}]. *)
Definition compIdOf (rec : SFRecord) : string :=
  "comp-" +:+
    match parcel_number rec with
    | Some p => p
    | None => Number_toString B (Date_now W)
    end.

(** The callback of [.map]: a record of the feed as a comparable of the
    subject [p]. *)
Definition recordToComp (p : option Property.t) (rec : SFRecord) : Comp.t :=
  let assessed := assessedOf rec in
  let coords := coordinates <$> the_geom rec in
  let dist :=
    match coords, p ≫= Property.lat, p ≫= Property.lng with
    | Some c, Some plat, Some plng =>
        if truthyNumber plat && truthyNumber plng
        then haversineDistance B plat plng (snd c) (fst c)
        else 0%float
    | _, _, _ => 0%float
    end in
  Comp.mk
    (compIdOf rec)
    (Address.parseAddress (default ""%string (property_location rec)))
    (match current_sales_date rec with
     | Some d => if truthyString d then Str.beforeFirst "T" d else ""%string
     | None => ""%string
     end)
    (Math_round assessed)
    (ParseFloat.parseFloat (default "0"%string (property_area rec)))
    (ParseFloat.parseFloat (default "0"%string (number_of_bedrooms rec)))
    (ParseFloat.parseFloat (default "0"%string (number_of_bathrooms rec)))
    (Math_round (dist * 100) / 100)%float
    true
    (default ""%string (property_class_code_definition rec)).

(** [records.filter(...).map(...)] *)
Definition newCompsOf (p : option Property.t) (records : list SFRecord)
    : list Comp.t :=
  recordToComp p <$>
    List.filter (fun rec => (0 <? assessedOf rec)%float) records.

(** The loop that adds to the state: [existingIds] is built once, before
    the loop, from the comparables of the state. *)
Definition mergeComps (existing newComps : list Comp.t) : list Comp.t :=
  let existingIds : gset string := list_to_set (Comp.id <$> existing) in
  fold_left
    (fun acc comp =>
       if bool_decide (Comp.id comp ∈ existingIds) then acc
       else acc ++ [comp])
    newComps existing.

Definition find_comps (radius monthsBack limit : float) (s : AppState)
    : Response * AppState :=
  match property s with
  | None =>
      (error
         "No subject property set. Use lookup-property or manage-property first.",
       s)
  | Some p =>
      match Property.lat p, Property.lng p with
      | Some lat, Some lng =>
          if truthyNumber lat && truthyNumber lng then
            match cutoffDate W monthsBack with
            | inl e => (thrown e, s)
            | inr cutoffStr =>
                match
                  searchRadii
                    (queryRadius lat lng cutoffStr (Property.apn p) limit)
                    (radiiToTry radius) [] radius
                with
                | inl e => (error ("Failed to search for comps: " +:+ e), s)
                | inr (records, usedRadius) =>
                    if (length records =? 0)%nat then
                      (widgetCompWorkspace
                         (mkCompWorkspace (property s) (comps s)
                            (calculateCaseStrength (Property.assessedValue p)
                               (Property.estimatedMarketValue p)))
                         (text
                            ("No comparable sales found within 2 miles in the last "
                               +:+ Number_toString B monthsBack
                               +:+ " months. Try increasing monthsBack or add comps manually.")),
                       s)
                    else
                      let newComps := newCompsOf (property s) records in
                      let s' :=
                        mkState (property s) (mergeComps (comps s) newComps)
                          (argument s) in
                      let included := includedComps s' in
                      let avgPrice :=
                        if (0 <? length included)%nat then meanSalePrice included
                        else Property.estimatedMarketValue p in
                      let caseStrength :=
                        calculateCaseStrength (Property.assessedValue p)
                          avgPrice in
                      (widgetCompWorkspace
                         (mkCompWorkspace (property s') (comps s') caseStrength)
                         (text
                            ("Found "
                               +:+ Number_toString B (lengthNumber newComps)
                               +:+ " comparable sales within "
                               +:+ Number_toString B usedRadius +:+ " miles"
                               +:+ (if (radius <? usedRadius)%float
                                    then " (expanded from "
                                           +:+ Number_toString B radius +:+ " mi)"
                                    else "")
                               +:+ ". "
                               +:+ Number_toString B (lengthNumber (comps s'))
                               +:+ " total comps, case strength: "
                               +:+ Strength_toString caseStrength
                               +:+ ". Assessed values shown reflect post-sale reassessment under Prop 13 (proxy for sale price).")),
                       s')
                end
            end
          else
            (error
               "Subject property has no coordinates. Use lookup-property to search with SF Assessor data.",
             s)
      | _, _ =>
          (error
             "Subject property has no coordinates. Use lookup-property to search with SF Assessor data.",
           s)
      end
  end.

End FindComps.

(** ** Tool: manage-comps *)

Module Action.
Inductive t := add | update | remove | toggle | list.
End Action.

(** The [comp] argument of manage-comps: every field is optional. *)
Module CompInput.
Record t := mk {
  id : option string;
  address : option string;
  saleDate : option string;
  salePrice : option float;
  sqft : option float;
  beds : option float;
  baths : option float;
  distance : option float;
  notes : option string;
}.
End CompInput.

Section ManageComps.

Context (B : Builtins) (W : World).

(** [comp?.id] when it is truthy. *)
Definition suppliedId (comp : option CompInput.t) : option string :=
  match comp ≫= CompInput.id with
  | Some i => if truthyString i then Some i else None
  | None => None
  end.

(** [state.comps.findIndex((c) => c.id === id)], with the element found. *)
Definition findComp (i : string) (l : list Comp.t) : option (nat * Comp.t) :=
  list_find (fun c => Comp.id c = i) l.

(** [{ ...old, ...comp }]: the fields [comp] carries replace those of
    [old]; [included], which [comp] cannot carry, is kept. *)
Definition mergeComp (old : Comp.t) (comp : CompInput.t) : Comp.t :=
  Comp.mk
    (default (Comp.id old) (CompInput.id comp))
    (default (Comp.address old) (CompInput.address comp))
    (default (Comp.saleDate old) (CompInput.saleDate comp))
    (default (Comp.salePrice old) (CompInput.salePrice comp))
    (default (Comp.sqft old) (CompInput.sqft comp))
    (default (Comp.beds old) (CompInput.beds comp))
    (default (Comp.baths old) (CompInput.baths comp))
    (default (Comp.distance old) (CompInput.distance comp))
    (Comp.included old)
    (default (Comp.notes old) (CompInput.notes comp)).

Definition withComps (s : AppState) (l : list Comp.t) : AppState :=
  mkState (property s) l (argument s).

(** Each [if] block of the handler: [inl message] when it returns
    [error(message)], otherwise the state it leaves. *)

Definition addStep (action : Action.t) (comp : option CompInput.t)
    (s : AppState) : string + AppState :=
  match action with
  | Action.add =>
      match comp with
      | Some c =>
          match CompInput.address c, CompInput.salePrice c,
                CompInput.saleDate c with
          | Some address, Some salePrice, Some saleDate =>
              if truthyString address && truthyNumber salePrice
                 && truthyString saleDate
              then
                let newComp :=
                  Comp.mk
                    ("comp-" +:+ Number_toString B (Date_now W))
                    address saleDate salePrice
                    (default 0%float (CompInput.sqft c))
                    (default 0%float (CompInput.beds c))
                    (default 0%float (CompInput.baths c))
                    (default 0%float (CompInput.distance c))
                    true
                    (default ""%string (CompInput.notes c)) in
                inr (withComps s (comps s ++ [newComp]))
              else
                inl "To add a comp, provide at least address, saleDate, and salePrice."%string
          | _, _, _ =>
              inl "To add a comp, provide at least address, saleDate, and salePrice."%string
          end
      | None =>
          inl "To add a comp, provide at least address, saleDate, and salePrice."%string
      end
  | _ => inr s
  end.

Definition updateStep (action : Action.t) (comp : option CompInput.t)
    (s : AppState) : string + AppState :=
  match action, comp, suppliedId comp with
  | Action.update, Some c, Some i =>
      match findComp i (comps s) with
      | None => inl ("Comp not found: " +:+ i)
      | Some (idx, old) => inr (withComps s (<[idx := mergeComp old c]> (comps s)))
      end
  | _, _, _ => inr s
  end.

Definition removeStep (action : Action.t) (comp : option CompInput.t)
    (s : AppState) : string + AppState :=
  match action, suppliedId comp with
  | Action.remove, Some i =>
      match findComp i (comps s) with
      | None => inl ("Comp not found: " +:+ i)
      | Some (idx, _) => inr (withComps s (delete idx (comps s)))
      end
  | _, _ => inr s
  end.

Definition toggleStep (action : Action.t) (comp : option CompInput.t)
    (s : AppState) : string + AppState :=
  match action, suppliedId comp with
  | Action.toggle, Some i =>
      match findComp i (comps s) with
      | None => inl ("Comp not found: " +:+ i)
      | Some (idx, found) =>
          inr (withComps s
                 (<[idx := Comp.setIncluded (negb (Comp.included found)) found]>
                    (comps s)))
      end
  | _, _ => inr s
  end.

(** The strength reported with the comparables: scored against the mean
    price of the included ones, or against the stored estimate when none
    is included; weak without a property. *)
Definition workspaceStrength (s : AppState) : Strength :=
  let included := includedComps s in
  match property s with
  | Some p =>
      calculateCaseStrength (Property.assessedValue p)
        (if (0 <? length included)%nat then meanSalePrice included
         else Property.estimatedMarketValue p)
  | None => weak
  end.

(** The closing [return widget(...)] of the handler. *)
Definition workspaceSummary (s : AppState) : Response :=
  let included := includedComps s in
  let caseStrength := workspaceStrength s in
  widgetCompWorkspace
    (mkCompWorkspace (property s) (comps s) caseStrength)
    (text
       (Number_toString B (lengthNumber (comps s)) +:+ " comps total, "
          +:+ Number_toString B (lengthNumber included)
          +:+ " included. Case strength: "
          +:+ Strength_toString caseStrength +:+ ".")).

Definition manage_comps (action : Action.t) (comp : option CompInput.t)
    (s : AppState) : Response * AppState :=
  match addStep action comp s with
  | inl message => (error message, s)
  | inr s1 =>
      match updateStep action comp s1 with
      | inl message => (error message, s1)
      | inr s2 =>
          match removeStep action comp s2 with
          | inl message => (error message, s2)
          | inr s3 =>
              match toggleStep action comp s3 with
              | inl message => (error message, s3)
              | inr s4 => (workspaceSummary s4, s4)
              end
          end
      end
  end.

End ManageComps.

(** ** Tool: generate-argument *)

Section GenerateArgument.

Context (B : Builtins).

Local Open Scope string_scope.

(** The callback of [included.map((c, i) => ...)]. *)
Definition compLine (i : nat) (c : Comp.t) : string :=
  Number_toString B (natNumber i + 1)%float +:+ ". **" +:+ Comp.address c +:+ "** — Sold " +:+ Comp.saleDate c +:+ " for " +:+ formatCurrency B (Comp.salePrice c) +:+ " (" +:+ Number_toString B (Comp.sqft c) +:+ " sqft, " +:+ Number_toString B (Comp.beds c) +:+ "bd/" +:+ Number_toString B (Comp.baths c) +:+ "ba, " +:+ Number_toString B (Comp.distance c) +:+ " mi)" +:+ (if truthyString (Comp.notes c) then " — " +:+ Comp.notes c else "").

Definition compLines (included : list Comp.t) : string :=
  Str.join nl (imap compLine included).

(** [((gap / assessedValue) * 100).toFixed(1)] *)
Definition gapPctOf (assessedValue declared : float) : string :=
  let gap := (assessedValue - declared)%float in
  toFixed1 B ((gap / assessedValue) * 100)%float.

(** The three templates of the narrative. *)
Definition narrativeOf (tone : Tone) (p : Property.t)
    (included : list Comp.t) (declared avgCompPrice : float) : string :=
  let gapPct := gapPctOf (Property.assessedValue p) declared in
  match tone with
  | formal =>
      Str.join nl
      [ "# Informal Review — Value Argument" +:+ nl;
        "## Subject Property";
        "- **Address:** " +:+ Property.address p;
        "- **APN:** " +:+ Property.apn p;
        "- **Property Type:** " +:+ PropertyType_toString (Property.type p);
        "- **Current Assessed Value:** " +:+ formatCurrency B (Property.assessedValue p);
        "- **Owner's Opinion of Market Value (as of Jan 1):** " +:+ formatCurrency B declared +:+ nl;
        "## Basis for Requested Reduction";
        "The current assessed value of " +:+ formatCurrency B (Property.assessedValue p) +:+ " exceeds the fair market value of the subject property as of the January 1 lien date. Based on " +:+ Number_toString B (lengthNumber included) +:+ " comparable neighborhood sales, the estimated market value is " +:+ formatCurrency B declared +:+ ", representing a " +:+ gapPct +:+ "% decline from the assessed value." +:+ nl;
        "## Comparable Sales Evidence";
        compLines included;
        nl +:+ "## Conclusion";
        "The comparable sales data supports a market value of " +:+ formatCurrency B declared +:+ " as of January 1. I respectfully request that the assessed value be reduced to reflect the current market conditions." ]
  | concise =>
      Str.join nl
      [ "**Property:** " +:+ Property.address p +:+ " (APN: " +:+ Property.apn p +:+ ")";
        "**Assessed:** " +:+ formatCurrency B (Property.assessedValue p) +:+ " | **Market Value:** " +:+ formatCurrency B declared +:+ " | **Gap:** " +:+ gapPct +:+ "%" +:+ nl;
        "**Comps:**";
        compLines included;
        nl +:+ "Based on these sales, market value is " +:+ formatCurrency B declared +:+ ". Requesting reduction." ]
  | neutral =>
      Str.join nl
      [ "# Value Argument for " +:+ Property.address p +:+ nl;
        "My property at " +:+ Property.address p +:+ " (APN: " +:+ Property.apn p +:+ ") is currently assessed at " +:+ formatCurrency B (Property.assessedValue p) +:+ ". Based on recent comparable sales in the neighborhood, I believe the market value as of January 1 is " +:+ formatCurrency B declared +:+ ", which is " +:+ gapPct +:+ "% below the assessed value." +:+ nl;
        "## Comparable Sales";
        compLines included;
        nl +:+ "The average sale price of these comparable properties is " +:+ formatCurrency B (Math_round avgCompPrice) +:+ ". I am requesting that my assessed value be reduced to " +:+ formatCurrency B declared +:+ " to reflect current market conditions." ]
  end.

Definition generate_argument (tone : Tone)
    (declaredMarketValue : option float) (s : AppState)
    : Response * AppState :=
  match property s with
  | None =>
      (error
         "No property on file. Use manage-property first to set up the subject property.",
       s)
  | Some p =>
      let included := includedComps s in
      if (length included =? 0)%nat then
        (error
           "No comparable sales selected. Add comps with manage-comps first.",
         s)
      else
        let avgCompPrice := meanSalePrice included in
        let declared :=
          default (Math_round avgCompPrice) declaredMarketValue in
        let narrative := narrativeOf tone p included declared avgCompPrice in
        (reply (markdown narrative),
         mkState (property s) (comps s)
           (Some (Argument.mk narrative declared tone)))
  end.

End GenerateArgument.

(** ** Packet builder (shared by generate-packet and export-packet) *)

Section Packet.

Context (B : Builtins) (W : World).

Local Open Scope string_scope.

(** The callback of [included.map((c) => ...)]: one row of the table of
    comparables. *)
Definition compRow (c : Comp.t) : string :=
  "| " +:+ Comp.address c +:+ " | " +:+ Comp.saleDate c +:+ " | " +:+ formatCurrency B (Comp.salePrice c) +:+ " | " +:+ toLocaleString B (Comp.sqft c) +:+ " | " +:+ Number_toString B (Comp.beds c) +:+ "/" +:+ Number_toString B (Comp.baths c) +:+ " | " +:+ Number_toString B (Comp.distance c) +:+ " mi | " +:+ (if truthyString (Comp.notes c) then Comp.notes c else "—") +:+ " |".

(** The lines of the packet up to the rows of the comparables. *)
Definition packetHead (property : Property.t) (argument : Argument.t)
    (caseStrength : string) : list string :=
  let gap :=
    (Property.assessedValue property
     - Argument.declaredMarketValue argument)%float in
  let gapPct := toFixed1 B ((gap / Property.assessedValue property) * 100)%float in
    [ "# Prop 8 Informal Review — Filing Packet";
      nl +:+ "## Subject Property";
      "| Field | Value |";
      "|-------|-------|";
      "| **Address** | " +:+ Property.address property +:+ " |";
      "| **APN** | " +:+ Property.apn property +:+ " |";
      "| **Property Type** | " +:+ PropertyType_toString (Property.type property) +:+ " |";
      match Property.neighborhood property with
        | Some n => if truthyString n then "| **Neighborhood** | " +:+ n +:+ " |" else ""
        | None => ""
        end;
      "| **Current Assessed Value** | " +:+ formatCurrency B (Property.assessedValue property) +:+ " |";
      "| **Declared Market Value** | " +:+ formatCurrency B (Argument.declaredMarketValue argument) +:+ " |";
      "| **Reduction Requested** | " +:+ formatCurrency B gap +:+ " (" +:+ gapPct +:+ "%) |";
      "| **Case Strength** | " +:+ Str.toUpperCase caseStrength +:+ " |";
      match Property.sqft property with
        | Some a => if truthyNumber a then "| **Size** | " +:+ toLocaleString B a +:+ " sqft |" else ""
        | None => ""
        end;
      match Property.beds property with
        | Some b =>
            if truthyNumber b
            then "| **Beds/Baths** | " +:+ Number_toString B b +:+ "/"
                   +:+ match Property.baths property with
                       | Some a => Number_toString B a
                       | None => "undefined"
                       end +:+ " |"
            else ""
        | None => ""
        end;
      nl +:+ "## Comparable Sales Evidence";
      "| Address | Sale Date | Price | Sqft | Bed/Bath | Distance | Notes |";
      "|---------|-----------|-------|------|----------|----------|-------|" ].

(** The lines after the narrative: the checklist, the submission routes
    and the reminders. *)
Definition packetTail (windowOpen : bool) : list string :=
    [ nl +:+ "## Submission Checklist";
      "- [ ] Review all property details above for accuracy";
      "- [ ] Verify comparable sales are appropriate";
      "- [ ] Review value argument narrative";
      "- [ ] Submit via one of the methods below";
      "- [ ] Keep a copy of everything you submit";
      nl +:+ "## How to Submit";
      "**Filing Window:** " +:+ (if windowOpen then "OPEN (Jan 2 – Mar 31)" else "CLOSED");
      nl +:+ "### Online (Preferred)";
      "SF Assessor-Recorder Community Portal: https://sfassessor.org/community-portal";
      nl +:+ "### By Mail";
      "Office of the Assessor-Recorder, City Hall, Room 190";
      "1 Dr. Carlton B. Goodlett Place, San Francisco, CA 94102";
      nl +:+ "### By Fax";
      "(415) 554-7151";
      nl +:+ "### By Email";
      "assessor@sfgov.org";
      nl +:+ "## Important Reminders";
      "- Only the property **owner** may file (no third-party filings)";
      "- Comparable sales should be as close to January 1 as possible";
      "- Sales after March 31 will **not** be considered";
      "- Results are mailed in **July** via Notice of Assessed Value";
      "- If denied, you may file a formal Assessment Appeal (AAB)";
      nl +:+ "---";
      "*This packet was prepared using OnlyAppeals. It provides informational and document-preparation support only — not legal or tax advice. No guarantee of assessment reduction is made or implied.*" ].

Definition buildPacketMarkdown (property : Property.t)
    (included : list Comp.t) (argument : Argument.t)
    (caseStrength : string) (avgCompPrice : float) : string :=
  let windowOpen := isFilingWindowOpen (Date_month W) (Date_day W) in
  let compRows := Str.join nl (compRow <$> included) in
  Str.join nl
    (Str.filterTruthy
       (packetHead property argument caseStrength
          ++ [ compRows;
               nl +:+ "**Average Comparable Sale Price:** " +:+ formatCurrency B avgCompPrice;
               nl +:+ "## Value Argument";
               Argument.narrative argument ]
          ++ packetTail windowOpen)).

Definition generate_packet (s : AppState) : Response * AppState :=
  match property s with
  | None =>
      (error
         "No property on file. Use lookup-property or manage-property first.",
       s)
  | Some p =>
      let included := includedComps s in
      if (length included =? 0)%nat then
        (error
           "No comparable sales selected. Use find-comps or manage-comps first.",
         s)
      else
        match argument s with
        | None =>
            (error "No value argument drafted. Use generate-argument first.",
             s)
        | Some a =>
            let avgCompPrice := Math_round (meanSalePrice included) in
            let caseStrength :=
              calculateCaseStrength (Property.assessedValue p)
                (Argument.declaredMarketValue a) in
            let packetMd :=
              buildPacketMarkdown p included a
                (Strength_toString caseStrength) avgCompPrice in
            (widgetPacketPreview
               (mkPacketPreview p included a caseStrength avgCompPrice
                  (isFilingWindowOpen (Date_month W) (Date_day W)))
               (markdown packetMd),
             s)
        end
  end.

Definition export_packet (s : AppState) : Response * AppState :=
  match property s with
  | None => (error "No property on file. Build your case first.", s)
  | Some p =>
      let included := includedComps s in
      if (length included =? 0)%nat then
        (error "No comparable sales selected.", s)
      else
        match argument s with
        | None =>
            (error "No value argument drafted. Use generate-argument first.",
             s)
        | Some a =>
            let avgCompPrice := Math_round (meanSalePrice included) in
            let caseStrength :=
              calculateCaseStrength (Property.assessedValue p)
                (Argument.declaredMarketValue a) in
            (reply
               (markdown
                  (buildPacketMarkdown p included a
                     (Strength_toString caseStrength) avgCompPrice)),
             s)
        end
  end.

End Packet.

(** ** String primitives used by lookup-property and [mapPropertyType] *)

Module Text.
Import Str.

Definition lower (c : ascii) : ascii :=
  if isUpper c then ascii_of_nat (code c + 32) else c.

(** [s.toLowerCase()], for [s] in ASCII. *)
Fixpoint toLowerCase (s : string) : string :=
  match s with
  | EmptyString => EmptyString
  | String c s' => String (lower c) (toLowerCase s')
  end.

(** Every character of [s] is in ASCII. *)
Fixpoint isAscii (s : string) : bool :=
  match s with
  | EmptyString => true
  | String c s' => (code c <? 128)%nat && isAscii s'
  end.

(** [lit] at the head of [s]. *)
Fixpoint startsWith (lit s : string) : bool :=
  match lit with
  | EmptyString => true
  | String a lit' =>
      match s with
      | String b s' => Ascii.eqb a b && startsWith lit' s'
      | EmptyString => false
      end
  end.

(** [s.includes(needle)] *)
Fixpoint includes (s needle : string) : bool :=
  startsWith needle s
  || match s with
     | EmptyString => false
     | String _ s' => includes s' needle
     end.

(** [\w] *)
Definition isWord (c : ascii) : bool :=
  isLetter c || isDigit c || Ascii.eqb c "_".

(** [\b] at a position, given the character before it and the one after
    it (none at an end of the input). *)
Definition wordBoundary (before after : option ascii) : bool :=
  xorb (from_option isWord false before) (from_option isWord false after).

Definition lastChar (s : string) : option ascii :=
  match String.length s with
  | O => None
  | S k => String.get k s
  end.

(** [lit] at the head of [s], followed by [\b]: the length matched. *)
Definition literalThenBoundary (lit s : string) : option nat :=
  if startsWith lit s
     && wordBoundary (lastChar lit) (String.get (String.length lit) s)
  then Some (String.length lit)
  else None.

(** [s.replace(re, ...)] for a global [re] that matches no empty text:
    [matchAt before s] is the match of [re] at the head of [s], [before]
    being the character in front of it: the length of the text matched and
    what replaces it.  The scan resumes after each match; [skip] counts the
    characters of the last match still to pass. *)
Fixpoint replaceAll (matchAt : option ascii -> string -> option (nat * string))
    (skip : nat) (before : option ascii) (s : string) : string :=
  match s with
  | EmptyString => EmptyString
  | String c s' =>
      match skip with
      | S k => replaceAll matchAt k (Some c) s'
      | O =>
          match matchAt before s with
          | Some (S k, r) => r +:+ replaceAll matchAt k (Some c) s'
          | _ => String c (replaceAll matchAt 0 (Some c) s')
          end
      end
  end.

(** [s.split(/\s+/)]: the fields between the runs of white space, the one
    in progress first; [inRun] tells that the previous character was white
    space. *)
Fixpoint splitFrom (inRun : bool) (s : string) : list string :=
  match s with
  | EmptyString => [EmptyString]
  | String c s' =>
      if isWhiteSpace c then
        if inRun then splitFrom true s' else EmptyString :: splitFrom true s'
      else
        match splitFrom false s' with
        | w :: ws => String c w :: ws
        | [] => [String c EmptyString]
        end
  end.

Definition splitWhiteSpace (s : string) : list string := splitFrom false s.

(** [array.includes(x)] and [set.has(x)] on strings. *)
Definition has (l : list string) (x : string) : bool :=
  existsb (String.eqb x) l.

End Text.

(** ** [parseInt] without a radix *)

Module ParseInt.
Import Str.

(** The value of [c] as a digit of the radix, if it is one. *)
Definition digitValue (radix : N) (c : ascii) : option N :=
  let v :=
    if isDigit c then Some (N.of_nat (code c - 48))
    else if isLetter c then Some (N.of_nat (code (upper c) - 55))
    else None in
  match v with
  | Some d => if (d <? radix)%N then Some d else None
  | None => None
  end.

(** The value of the longest prefix of [s] made of digits of the radix;
    [acc] is the value of the digits read, if any. *)
Fixpoint digitsValue (radix : N) (acc : option N) (s : string) : option N :=
  match s with
  | EmptyString => acc
  | String c s' =>
      match digitValue radix c with
      | Some d => digitsValue radix (Some (radix * default 0%N acc + d)%N) s'
      | None => acc
      end
  end.

(** [parseInt(s)]: white space, a sign, [0x] or [0X] for radix 16, the
    digits; NaN without a digit.  (The number closest to the integer
    read.) *)
Definition parseInt (s : string) : float :=
  let s1 := trimStart s in
  let '(negative, s2) :=
    match s1 with
    | String c r =>
        if Ascii.eqb c "-" then (true, r)
        else if Ascii.eqb c "+" then (false, r)
        else (false, s1)
    | EmptyString => (false, s1)
    end in
  let '(radix, s3) :=
    match s2 with
    | String z (String x r) =>
        if Ascii.eqb z "0" && Ascii.eqb (upper x) "X" then (16%N, r)
        else (10%N, s2)
    | _ => (10%N, s2)
    end in
  match digitsValue radix None s3 with
  | Some v => ParseFloat.roundRatio negative v 1
  | None => nan
  end.

End ParseInt.

(** ** Records of the feed as properties *)

Definition mapPropertyType (classDef : option string) : PropertyType :=
  let lower := Text.toLowerCase (default ""%string classDef) in
  if Text.includes lower "condominium" && Text.includes lower "live/work"
  then live_work
  else if Text.includes lower "condominium" then condo
  else if Text.includes lower "town house" then townhouse
  else if Text.includes lower "coop" then co_op
  else if Text.includes lower "flat" || Text.includes lower "duplex" then condo
  else sfh.

(** [value || undefined] on a number. *)
Definition orUndefined (x : float) : option float :=
  if truthyNumber x then Some x else None.

Definition recordToProperty (rec : SFRecord)
    (estimatedMarketValue : option float) : Property.t :=
  let assessed :=
    (ParseFloat.parseFloat (default "0"%string (assessed_land_value rec)) +
     ParseFloat.parseFloat
       (default "0"%string (assessed_improvement_value rec)))%float in
  let coords := coordinates <$> the_geom rec in
  Property.mk
    (Address.parseAddress (default ""%string (property_location rec)))
    (default ""%string (parcel_number rec))
    (mapPropertyType (property_class_code_definition rec))
    (Math_round assessed)
    (default (Math_round assessed) estimatedMarketValue)
    (match year_property_built rec with
     | Some y => if truthyString y then Some (ParseInt.parseInt y) else None
     | None => None
     end)
    (orUndefined
       (ParseFloat.parseFloat (default "0"%string (property_area rec))))
    (orUndefined
       (ParseFloat.parseFloat (default "0"%string (number_of_bedrooms rec))))
    (orUndefined
       (ParseFloat.parseFloat (default "0"%string (number_of_bathrooms rec))))
    (snd <$> coords)
    (fst <$> coords)
    (assessor_neighborhood rec).

(** ** Tool: lookup-property *)

(** The address of the request as search words. *)
Module Search.
Import Str Text.

Local Open Scope string_scope.

(** [s.replace(/[#.,]/g, "")] *)
Fixpoint removePunctuation (s : string) : string :=
  match s with
  | EmptyString => EmptyString
  | String c s' =>
      if Ascii.eqb c "#" || Ascii.eqb c "." || Ascii.eqb c ","
      then removePunctuation s'
      else String c (removePunctuation s')
  end.

Definition ordinalTokens : list string := ["ST"; "ND"; "RD"; "TH"].

(** The second group of the ordinal pattern and its [\b] at the head of
    [s]: the alternatives in order. *)
Fixpoint ordinalSuffix (toks : list string) (s : string) : option string :=
  match toks with
  | [] => None
  | tok :: toks' =>
      match literalThenBoundary tok s with
      | Some _ => Some tok
      | None => ordinalSuffix toks' s
      end
  end.

(** The ordinal pattern (digits, one of [ordinalTokens], a word boundary)
    at the head of [s]: the greedy run of digits first takes all [n] of
    them, then one fewer, down to one.  The replacement [$1$2] is the two
    groups. *)
Fixpoint ordinalDigits (n : nat) (s : string) : option (nat * string) :=
  match n with
  | O => None
  | S k =>
      match ordinalSuffix ordinalTokens (drop n s) with
      | Some tok => Some (n + String.length tok, substring 0 n s +:+ tok)
      | None => ordinalDigits k s
      end
  end.

Definition ordinalAt (before : option ascii) (s : string)
    : option (nat * string) :=
  ordinalDigits (Address.digitRun s) s.

(** The city and state pattern at the head of [s]: a word boundary, then
    SAN, white space and FRANCISCO, or SF, or CA, or CALIFORNIA, in this
    order, each before a word boundary.  (The greedy white space gives
    nothing back to a word that starts with a letter.)  Replaced by the
    empty string. *)
Definition cityAt (before : option ascii) (s : string)
    : option (nat * string) :=
  if wordBoundary before (String.get 0 s) then
    let sanFrancisco :=
      if startsWith "SAN" s then
        let r := drop 3 s in
        let r' := trimStart r in
        match literalThenBoundary "FRANCISCO" r' with
        | Some k => Some (3 + (String.length r - String.length r') + k)
        | None => None
        end
      else None in
    match sanFrancisco with
    | Some k => Some (k, "")
    | None =>
        match literalThenBoundary "SF" s with
        | Some k => Some (k, "")
        | None =>
            match literalThenBoundary "CA" s with
            | Some k => Some (k, "")
            | None =>
                match literalThenBoundary "CALIFORNIA" s with
                | Some k => Some (k, "")
                | None => None
                end
            end
        end
    end
  else None.

(** The first [n] characters of [s] are digits. *)
Fixpoint digitsAt (n : nat) (s : string) : bool :=
  match n with
  | O => true
  | S k =>
      match s with
      | String c s' => isDigit c && digitsAt k s'
      | EmptyString => false
      end
  end.

(** The ZIP pattern at the head of [s]: a word boundary, five digits, then
    a hyphen and four digits if a word boundary follows them, or nothing
    before a word boundary.  Replaced by the empty string. *)
Definition zipAt (before : option ascii) (s : string)
    : option (nat * string) :=
  if wordBoundary before (String.get 0 s) && digitsAt 5 s then
    let plusFour :=
      match drop 5 s with
      | String c r =>
          Ascii.eqb c "-" && digitsAt 4 r
          && wordBoundary (String.get 9 s) (String.get 10 s)
      | EmptyString => false
      end in
    if plusFour then Some (10, "")
    else if wordBoundary (String.get 4 s) (String.get 5 s) then Some (5, "")
    else None
  else None.

Definition normalize (address : string) : string :=
  trim
    (replaceAll ordinalAt 0 None
       (removePunctuation (toUpperCase address))).

Definition clean (normalized : string) : string :=
  trim (replaceAll zipAt 0 None (replaceAll cityAt 0 None normalized)).

Definition SUFFIXES : list string :=
  [ "ST"; "AV"; "AVE"; "BLVD"; "DR"; "CT"; "PL"; "WAY";
    "LN"; "RD"; "TER"; "CIR"; "HWY"; "STREET"; "AVENUE";
    "DRIVE"; "COURT"; "PLACE"; "LANE"; "ROAD" ].

(** [cleaned.split(/\s+/).filter((w) => w.length > 0 && !SUFFIXES.has(w))] *)
Definition wordsOf (cleaned : string) : list string :=
  List.filter
    (fun w => (0 <? String.length w)%nat && negb (has SUFFIXES w))
    (splitWhiteSpace cleaned).

Definition searchWords (address : string) : list string :=
  wordsOf (clean (normalize address)).

Definition condition (w : string) : string :=
  "property_location like '%" +:+ w +:+ "%'".

Definition addressWhereClause (words : list string) : string :=
  join " AND " (condition <$> words)
    +:+ " AND closed_roll_year='" +:+ LATEST_ROLL_YEAR
    +:+ "' AND (use_code='SRES' OR use_code='MRES')".

Definition blockLotWhereClause (block lot : string) : string :=
  "block='" +:+ block +:+ "' AND lot='" +:+ lot
    +:+ "' AND closed_roll_year='" +:+ LATEST_ROLL_YEAR +:+ "'".

End Search.

Section LookupProperty.

Context (B : Builtins) (W : World).

Local Open Scope string_scope.

(** The text of the answer when one record is found. *)
Definition propertyFound (prop : Property.t) : string :=
  Str.join nl
    (Str.filterTruthy
       [ "# Property Found" +:+ nl;
         "**Address:** " +:+ Property.address prop;
         "**APN:** " +:+ Property.apn prop;
         "**Type:** " +:+ PropertyType_toString (Property.type prop);
         "**Neighborhood:** " +:+ default "Unknown" (Property.neighborhood prop);
         "**Assessed Value:** " +:+ formatCurrency B (Property.assessedValue prop);
         "**Estimated Market Value:** " +:+ formatCurrency B (Property.estimatedMarketValue prop);
         match Property.sqft prop with
         | Some a => if truthyNumber a then "**Size:** " +:+ toLocaleString B a +:+ " sqft" else ""
         | None => ""
         end;
         match Property.beds prop with
         | Some b =>
             if truthyNumber b
             then "**Beds/Baths:** " +:+ Number_toString B b +:+ "/"
                    +:+ match Property.baths prop with
                        | Some a => Number_toString B a
                        | None => "undefined"
                        end
             else ""
         | None => ""
         end;
         nl +:+ "Property saved to your case. You can now run **find-comps** to find nearby comparable sales." ]).

(** The callback of [records.map((rec) => ...)]: one option of the list. *)
Definition optionLine (rec : SFRecord) : string :=
  let p := recordToProperty rec None in
  "- **" +:+ Property.address p +:+ "** (APN: " +:+ Property.apn p +:+ ") — " +:+ PropertyType_toString (Property.type p) +:+ ", " +:+ formatCurrency B (Property.assessedValue p) +:+ ", " +:+ default "" (Property.neighborhood p).

Definition multipleFound (records : list SFRecord) : string :=
  Str.join nl
    ([ "# Multiple Properties Found (" +:+ Number_toString B (lengthNumber records) +:+ ")" +:+ nl ]
       ++ (optionLine <$> records)
       ++ [ nl +:+ "Specify a more precise address or use block/lot to select one." ]).

(** The query of the handler: [inl message] when it returns
    [error(message)] before asking the feed, otherwise the answer of the
    feed. *)
Definition lookupQuery (address block lot : option string)
    : string + (string + list SFRecord) :=
  match block, lot with
  | Some b, Some l =>
      if truthyString b && truthyString l then
        inr (querySFData W (Search.blockLotWhereClause b l) None 5 None)
      else
        let words := Search.searchWords (default "" address) in
        if (length words =? 0)%nat then
          inl "Could not parse a searchable address. Try '560 20TH' or provide block/lot."
        else inr (querySFData W (Search.addressWhereClause words) None 10 None)
  | _, _ =>
      let words := Search.searchWords (default "" address) in
      if (length words =? 0)%nat then
        inl "Could not parse a searchable address. Try '560 20TH' or provide block/lot."
      else inr (querySFData W (Search.addressWhereClause words) None 10 None)
  end.

Definition lookup_property (address block lot : option string)
    (estimatedMarketValue : option float) (s : AppState)
    : Response * AppState :=
  if negb (truthyOpt truthyString address)
     && (negb (truthyOpt truthyString block)
         || negb (truthyOpt truthyString lot))
  then (error "Provide either an address or both block and lot numbers.", s)
  else
    match lookupQuery address block lot with
    | inl message => (error message, s)
    | inr (inl e) => (error ("Failed to query SF Assessor data: " +:+ e), s)
    | inr (inr records) =>
        match records with
        | [] =>
            (reply
               (markdown
                  "**No properties found.** Try a different address format (e.g., '1625 PACIFIC AV') or search by block/lot number."),
             s)
        | [rec] =>
            let prop := recordToProperty rec estimatedMarketValue in
            (reply (markdown (propertyFound prop)),
             mkState (Some prop) (comps s) (argument s))
        | _ => (reply (markdown (multipleFound records)), s)
        end
    end.

End LookupProperty.

(** ** Tool: check-eligibility *)

Definition ELIGIBLE_TYPES : list string :=
  ["sfh"; "condo"; "townhouse"; "live-work"; "co-op"]%string.

(** The four lines of advice. *)
Definition adviceNotEligible : string :=
  "This property type is not eligible for SF informal review. Eligible types: single-family home, condo, townhouse, live-work loft, co-op.".

Definition adviceClosed : string :=
  "The filing window is currently closed. Informal review requests are accepted January 2 through March 31.".

Definition adviceAtOrAbove : string :=
  "Your estimated market value is at or above the assessed value. A Prop 8 reduction requires market value to be **below** the factored base year value.".

Definition adviceEligible : string :=
  "Your property appears eligible. Next step: set up your property details and start gathering comparable sales.".

Section CheckEligibility.

Context (B : Builtins) (W : World).

Local Open Scope string_scope.

(** The lines of the answer before the advice. *)
Definition eligibilityLines (propertyType : PropertyType)
    (assessedValue estimatedMarketValue : float) : list string :=
  let eligible := Text.has ELIGIBLE_TYPES (PropertyType_toString propertyType) in
  let windowOpen := isFilingWindowOpen (Date_month W) (Date_day W) in
  let strength := calculateCaseStrength assessedValue estimatedMarketValue in
  let gap := (assessedValue - estimatedMarketValue)%float in
  let gapPct := toFixed1 B ((gap / assessedValue) * 100)%float in
  [ "# Prop 8 Eligibility Check" +:+ nl;
    "**Property Type:** " +:+ PropertyType_toString propertyType +:+ " — " +:+ (if eligible then "Eligible" else "Not eligible");
    "**Filing Window:** " +:+ (if windowOpen then "Open (Jan 2 – Mar 31)" else "Currently closed");
    "**Assessed Value:** " +:+ formatCurrency B assessedValue;
    "**Estimated Market Value:** " +:+ formatCurrency B estimatedMarketValue;
    "**Gap:** " +:+ formatCurrency B gap +:+ " (" +:+ gapPct +:+ "%)";
    "**Case Strength:** " +:+ Str.toUpperCase (Strength_toString strength) +:+ nl ].

(** The line the [if] cascade pushes. *)
Definition eligibilityAdvice (propertyType : PropertyType)
    (assessedValue estimatedMarketValue : float) : string :=
  let eligible := Text.has ELIGIBLE_TYPES (PropertyType_toString propertyType) in
  let windowOpen := isFilingWindowOpen (Date_month W) (Date_day W) in
  if negb eligible then adviceNotEligible
  else if negb windowOpen then adviceClosed
  else if (assessedValue <=? estimatedMarketValue)%float then adviceAtOrAbove
  else adviceEligible.

Definition check_eligibility (propertyType : PropertyType)
    (assessedValue estimatedMarketValue : float) (s : AppState)
    : Response * AppState :=
  (reply
     (markdown
        (Str.join nl
           (eligibilityLines propertyType assessedValue estimatedMarketValue
              ++ [eligibilityAdvice propertyType assessedValue
                    estimatedMarketValue]))),
   s).

End CheckEligibility.

(** ** Tool: manage-property *)

(** The input of manage-property. *)
Module PropertyInput.
Record t := mk {
  address : string;
  apn : string;
  type : PropertyType;
  assessedValue : float;
  estimatedMarketValue : float;
  purchaseYear : option float;
  sqft : option float;
  beds : option float;
  baths : option float;
}.
End PropertyInput.

Section ManageProperty.

Context (B : Builtins).

Local Open Scope string_scope.

(** [{ ...input }] as a property: the input carries no coordinates and no
    neighborhood. *)
Definition propertyOfInput (input : PropertyInput.t) : Property.t :=
  Property.mk (PropertyInput.address input) (PropertyInput.apn input)
    (PropertyInput.type input) (PropertyInput.assessedValue input)
    (PropertyInput.estimatedMarketValue input)
    (PropertyInput.purchaseYear input) (PropertyInput.sqft input)
    (PropertyInput.beds input) (PropertyInput.baths input) None None None.

Definition manage_property (input : PropertyInput.t) (s : AppState)
    : Response * AppState :=
  (reply
     (text
        ("Property saved: " +:+ PropertyInput.address input +:+ " (APN: " +:+ PropertyInput.apn input +:+ "). Assessed at " +:+ formatCurrency B (PropertyInput.assessedValue input) +:+ ", estimated market value " +:+ formatCurrency B (PropertyInput.estimatedMarketValue input) +:+ ".")),
   mkState (Some (propertyOfInput input)) (comps s) (argument s)).

End ManageProperty.

(** ** Tool: get-submission-info *)

Section SubmissionInfo.

Context (W : World).

Local Open Scope string_scope.

Definition get_submission_info (s : AppState) : Response * AppState :=
  let windowOpen := isFilingWindowOpen (Date_month W) (Date_day W) in
  (reply
     (markdown
        (Str.join nl
           [ "# SF Prop 8 Informal Review — Submission Guide" +:+ nl;
             "## Filing Window";
             "**Status:** " +:+ (if windowOpen then "OPEN" else "CLOSED");
             "**Dates:** January 2 – March 31";
             "**Lien Date:** January 1 (market value measured as of this date)" +:+ nl;
             "## Submission Options" +:+ nl;
             "### Online (Preferred)";
             "Submit via the SF Assessor-Recorder Community Portal:";
             "https://sfassessor.org/community-portal" +:+ nl;
             "### By Mail";
             "Office of the Assessor-Recorder";
             "City Hall, Room 190";
             "1 Dr. Carlton B. Goodlett Place";
             "San Francisco, CA 94102" +:+ nl;
             "### By Fax";
             "(415) 554-7151" +:+ nl;
             "### By Email";
             "assessor@sfgov.org" +:+ nl;
             "## Important Rules";
             "- Only the property **owner** may file (no third-party filings)";
             "- Include comparable sales as close to January 1 as possible";
             "- Sales after March 31 will **not** be considered";
             "- Keep a copy of everything you submit" +:+ nl;
             "## After Filing";
             "- Results are mailed in **July** via Notice of Assessed Value";
             "- If you disagree with the result, you may file a **formal Assessment Appeal** with the Assessment Appeals Board (AAB)";
             "- AAB filing has its own deadline — watch for it in the Notice" +:+ nl;
             "## Disclaimer";
             "This tool provides informational and document-preparation support only. It does not constitute legal or tax advice. No guarantee of assessment reduction is made or implied. The property owner is responsible for reviewing and submitting all materials." ])),
   s).

End SubmissionInfo.

(** ** The tools of the server *)

(** A request to the server: the tool called, with its arguments. *)
Inductive Call :=
  | lookupProperty (address block lot : option string)
      (estimatedMarketValue : option float)
  | findComps (radius monthsBack limit : float)
  | checkEligibility (propertyType : PropertyType)
      (assessedValue estimatedMarketValue : float)
  | manageProperty (input : PropertyInput.t)
  | manageComps (action : Action.t) (comp : option CompInput.t)
  | generateArgument (tone : Tone) (declaredMarketValue : option float)
  | generatePacket
  | exportPacket
  | getSubmissionInfo.

(** The handler registered for the tool, run on the state. *)
Definition callTool (B : Builtins) (W : World) (c : Call) (s : AppState)
    : Response * AppState :=
  match c with
  | lookupProperty address block lot estimatedMarketValue =>
      lookup_property B W address block lot estimatedMarketValue s
  | findComps radius monthsBack limit =>
      find_comps B W radius monthsBack limit s
  | checkEligibility propertyType assessedValue estimatedMarketValue =>
      check_eligibility B W propertyType assessedValue estimatedMarketValue s
  | manageProperty input => manage_property B input s
  | manageComps action comp => manage_comps B W action comp s
  | generateArgument tone declaredMarketValue =>
      generate_argument B tone declaredMarketValue s
  | generatePacket => generate_packet B W s
  | exportPacket => export_packet B W s
  | getSubmissionInfo => get_submission_info W s
  end.

(** The state after a series of requests, each served in the world of its
    time. *)
Fixpoint session (B : Builtins) (calls : list (World * Call)) (s : AppState)
    : AppState :=
  match calls with
  | [] => s
  | (W, c) :: rest => session B rest (snd (callTool B W c s))
  end.

(** ** The comp-workspace widget: the requests of its buttons *)

Module Widget.

(** The [comp] argument [{ id: comp.id }]. *)
Definition idOf (comp : Comp.t) : CompInput.t :=
  CompInput.mk (Some (Comp.id comp)) None None None None None None None None.

Definition handleToggle (comp : Comp.t) : Call :=
  manageComps Action.toggle (Some (idOf comp)).

Definition handleRemove (comp : Comp.t) : Call :=
  manageComps Action.remove (Some (idOf comp)).

Definition handleSaveNotes (noteText : string) (comp : Comp.t) : Call :=
  manageComps Action.update
    (Some
       (CompInput.mk (Some (Comp.id comp)) None None None None None None None
          (Some noteText))).

End Widget.

(** ** A concrete host, for the examples

    [Sample.builtins] prints a number by its exact decimal expansion, which
    is what [String(x)] prints for the integral values below 1e21 and such
    values as 0.5 or 0.75, and groups the integer digits by three as
    [toLocaleString("en-US")] does for integral values.  The examples below
    use only such values, and no coordinates: the trigonometric functions,
    which [float] does not have, are stand-ins. *)

Module Sample.

Local Open Scope string_scope.

Fixpoint stripTrailingZeros (digits : list ascii) : list ascii :=
  match digits with
  | [] => []
  | c :: rest =>
      match stripTrailingZeros rest with
      | [] => if Ascii.eqb c "0" then [] else [c]
      | t => c :: t
      end
  end.

(** A non-negative value [m * 2^e] in decimal: integer digits and
    fraction digits. *)
Definition decimalParts (m : positive) (e : Z) : string * string :=
  match e with
  | Zneg k =>
      let digits := Address.stringOfN (Npos (m * 5 ^ k)) in
      let width := Pos.to_nat k in
      let padded :=
        string_of_list_ascii (replicate (width - String.length digits) "0"%char)
          +:+ digits in
      let cut := String.length padded - width in
      (match substring 0 cut padded with
       | EmptyString => "0"
       | i => i
       end,
       string_of_list_ascii
         (stripTrailingZeros
            (list_ascii_of_string (substring cut width padded))))
  | _ => (Address.stringOfN (Z.to_N (Zpos m * 2 ^ e)), "")
  end.

Definition withFraction (int frac : string) : string :=
  match frac with EmptyString => int | _ => int +:+ "." +:+ frac end.

Definition exactDecimal (x : float) : string :=
  match Prim2SF x with
  | S754_nan => "NaN"
  | S754_infinity s => if s then "-Infinity" else "Infinity"
  | S754_zero _ => "0"
  | S754_finite s m e =>
      let '(int, frac) := decimalParts m e in
      (if s then "-" else "") +:+ withFraction int frac
  end.

(** Commas between groups of three digits, counted from the right. *)
Fixpoint groupFromRight (digitsRev : list ascii) (n : nat) : list ascii :=
  match digitsRev with
  | [] => []
  | c :: rest =>
      match n, rest with
      | 2, _ :: _ => c :: ","%char :: groupFromRight rest 0
      | _, _ => c :: groupFromRight rest (S n)
      end
  end.

Definition grouped (int : string) : string :=
  string_of_list_ascii
    (rev (groupFromRight (rev (list_ascii_of_string int)) 0)).

Definition groupedDecimal (x : float) : string :=
  match Prim2SF x with
  | S754_nan => "NaN"
  | S754_infinity s => if s then "-∞" else "∞"
  | S754_zero s => if s then "-0" else "0"
  | S754_finite s m e =>
      let '(int, frac) := decimalParts m e in
      (if s then "-" else "") +:+ withFraction (grouped int) frac
  end.

Definition builtins : Builtins :=
  mkBuiltins exactDecimal groupedDecimal groupedDecimal
    (fun x => x) (fun _ => 1%float) (fun y _ => y) (fun x _ => (x * x)%float).

(** A clock and a feed: 15 February 2025, noon UTC; the feed answers every
    query with [rows]. *)
Definition world (now : float) (rows : list SFRecord) : World :=
  mkWorld now 1 15 (fun _ => inr "2023-02-15") (fun _ _ _ _ => inr rows).

End Sample.


(** ** Notions used to state and prove the properties *)

(** *** The order of binary64 numbers

    [SFcompare] is the lexicographic order of a key of three integers:
    the class and sign, the exponent and the mantissa (both negated below
    zero).  NaN has no key, and compares with nothing. *)

Module FloatOrder.

Local Open Scope Z_scope.

Definition key (x : spec_float) : option (Z * Z * Z) :=
  match x with
  | S754_nan => None
  | S754_infinity s => Some (if s then -2 else 2, 0, 0)
  | S754_zero _ => Some (0, 0, 0)
  | S754_finite s m e => Some (if s then (-1, - e, Zneg m) else (1, e, Zpos m))
  end.

Definition klt (a b : Z * Z * Z) : bool :=
  let '(a1, a2, a3) := a in
  let '(b1, b2, b3) := b in
  (a1 <? b1) || ((a1 =? b1) && ((a2 <? b2) || ((a2 =? b2) && (a3 <? b3)))).

Definition keq (a b : Z * Z * Z) : bool :=
  let '(a1, a2, a3) := a in
  let '(b1, b2, b3) := b in
  (a1 =? b1) && (a2 =? b2) && (a3 =? b3).

Definition fkey (x : float) : option (Z * Z * Z) := key (Prim2SF x).

Ltac zbool :=
  repeat match goal with
    | |- context [Z.ltb ?a ?b] => destruct (Z.ltb_spec a b)
    | |- context [Z.eqb ?a ?b] => destruct (Z.eqb_spec a b)
    end;
  cbn [orb andb negb] in *; try reflexivity; try discriminate; try lia.

(** Boolean comparisons of integers as propositions, for [lia]. *)
Ltac zprop :=
  rewrite ?Bool.orb_true_iff, ?Bool.andb_true_iff, ?Bool.orb_false_iff,
    ?Bool.andb_false_iff, ?Z.ltb_lt, ?Z.ltb_ge, ?Z.eqb_eq, ?Z.eqb_neq in *;
  try discriminate; try lia.

End FloatOrder.

(** *** The sign of a binary64 number *)

Module FloatSign.

(** Not above zero: NaN, a zero, or a sign bit set. *)
Definition nonpos (x : spec_float) : Prop :=
  match x with
  | S754_nan | S754_zero _ => True
  | S754_infinity s | S754_finite s _ _ => s = true
  end.

(** Above zero: plus infinity, or finite with the sign bit clear. *)
Definition above_zero (x : spec_float) : Prop :=
  match x with
  | S754_infinity s | S754_finite s _ _ => s = false
  | _ => False
  end.

End FloatSign.

(** *** Orders on numbers, as propositions *)

Definition Flt (x y : float) : Prop := (x <? y)%float = true.

Definition Fle (x y : float) : Prop := (x <=? y)%float = true.

(** The checkpoints of the radius ladder. *)
Definition radiusCheckpoints : list float := [0.75; 1.0; 1.5; 2.0]%float.

(** A feed that answers a query with no record. *)
Definition yieldsNothing (query : float -> string + list SFRecord) (r : float)
    : Prop :=
  query r = inr [].

(** A feed that answers a query with [records], at least one. *)
Definition yields (query : float -> string + list SFRecord) (r : float)
    (records : list SFRecord) : Prop :=
  query r = inr records /\ records <> [].

(** The text a response carries, if any. *)
Definition responseText (r : Response) : option string :=
  match r with
  | error _ | thrown _ => None
  | reply c | widgetCompWorkspace _ c | widgetPacketPreview _ c =>
      Some match c with text s | markdown s => s end
  end.

(** *** Sample data for the examples *)

Module Example.

Local Open Scope string_scope.

(** A subject with integral coordinates. *)
Definition subject : Property.t :=
  Property.mk "1625 PACIFIC AV #7" "0595139" condo 1000000 1000000
    None None None None (Some 38%float) (Some (-122)%float) None.

(** A row of the feed without coordinates. *)
Definition row (parcel : option string) (landValue improvement : string)
    : SFRecord :=
  mkSFRecord (Some "0000 0990 GREEN                ST0000") parcel None None
    (Some "SRES") (Some "Dwelling") None (Some "2") (Some "1") (Some "1200")
    (Some landValue) (Some improvement) (Some "2024-06-30T00:00:00.000") None
    None.

(** A feed with nothing within 805 m (half a mile) of the subject and
    [rows] within any other distance. *)
Definition sparseWorld (rows : list SFRecord) : World :=
  mkWorld 1739620800000 1 15 (fun _ => inr "2023-02-15")
    (fun whereClause _ _ _ =>
       if String.eqb whereClause
            (compsWhereClause Sample.builtins 38 (-122) 805 "2023-02-15"
               "0595139")
       then inr [] else inr rows).

(** A comparable of the case. *)
Definition comp (id : string) (salePrice : float) (included : bool) : Comp.t :=
  Comp.mk id "990 GREEN ST" "2024-06-30" salePrice 1200 2 1 0.25 included
    "Dwelling".

(** A case with two included comparables and one left out. *)
Definition case : AppState :=
  mkState (Some subject)
    [comp "comp-0595140" 900000 true; comp "comp-0595141" 1200000 false;
     comp "comp-0595142" 1000000 true]
    None.

End Example.

(** *** Notions for find-comps *)

(** The identifiers of a list of comparables, in order. *)
Definition compIds (l : list Comp.t) : list string := Comp.id <$> l.

(** Every row carries a parcel identifier. *)
Definition wellKeyed (rows : list SFRecord) : Prop :=
  Forall (fun rec => is_Some (parcel_number rec)) rows.

(** The rows carry pairwise distinct parcel identifiers. *)
Definition distinctParcels (rows : list SFRecord) : Prop :=
  NoDup (parcel_number <$> rows).

(** Every answer of the feed of [W] satisfies [P]. *)
Definition feedRows (W : World) (P : list SFRecord -> Prop) : Prop :=
  forall whereClause select limit order rows,
    querySFData W whereClause select limit order = inr rows -> P rows.

(** The feed of [W'] answers the queries of a search as the feed of [W]
    does: the record-source responses are identical.  The cut-off date of
    the queries can be written in both runs, or in neither. *)
Definition sameResponses (B : Builtins) (W W' : World) (monthsBack : float)
    : Prop :=
  match cutoffDate W monthsBack, cutoffDate W' monthsBack with
  | inr cutoffStr, inr cutoffStr' =>
      forall lat lng apn limit r,
        queryRadius B W' lat lng cutoffStr' apn limit r
        = queryRadius B W lat lng cutoffStr apn limit r
  | inl _, inl _ => True
  | _, _ => False
  end.

(** A candidate whose identifier is not among [existing]. *)
Definition freshIn (existing : list Comp.t) (c : Comp.t) : bool :=
  negb (bool_decide (Comp.id c ∈ compIds existing)).

(** The records a run of find-comps converts: the answer of the search when
    the subject has coordinates, the cut-off date can be written and no
    query throws, and no record otherwise. *)
Definition discovered (B : Builtins) (W : World)
    (radius monthsBack limit : float) (s : AppState) : list SFRecord :=
  match property s with
  | Some p =>
      match Property.lat p, Property.lng p with
      | Some lat, Some lng =>
          if truthyNumber lat && truthyNumber lng then
            match cutoffDate W monthsBack with
            | inr cutoffStr =>
                match
                  searchRadii
                    (queryRadius B W lat lng cutoffStr (Property.apn p) limit)
                    (radiiToTry radius) [] radius
                with
                | inr (records, _) => records
                | inl _ => []
                end
            | inl _ => []
            end
          else []
      | _, _ => []
      end
  | None => []
  end.

(** *** The documented positional format of a raw address

    As the comment of [parseAddress] and the specification give it: the
    primary number and the secondary number on four digits each, the street
    name, a run of spaces, the street-type suffix and the unit on four
    digits; and the canonical form of such an address. *)

Module Format.

Local Open Scope string_scope.

(** [n] on four digits, zero-padded. *)
Definition pad4 (n : N) : string :=
  let digits := Address.stringOfN n in
  string_of_list_ascii (replicate (4 - String.length digits) "0"%char)
    +:+ digits.

Definition spaces (n : nat) : string :=
  string_of_list_ascii (replicate n " "%char).

Definition rawAddress (primary secondary : N) (name : string) (gap : nat)
    (suffix : string) (unit : N) : string :=
  pad4 primary +:+ " " +:+ pad4 secondary +:+ " " +:+ name +:+ spaces gap
    +:+ suffix +:+ pad4 unit.

(** [<number> <name> <suffix>[ #<unit>]], the unit being left out when it
    is zero. *)
Definition canonicalAddress (number : N) (name suffix : string) (unit : N)
    : string :=
  Address.stringOfN number +:+ " " +:+ name +:+ " " +:+ suffix
    +:+ (if (unit =? 0)%N then "" else " #" +:+ Address.stringOfN unit).

End Format.

(** *** Notions for manage-comps *)

(** Every comparable of the case has an identifier that is not empty.
    It holds of the initial state and the handlers keep it so (the lemmas
    [idsNonEmpty_...] of Part II). *)
Definition idsNonEmpty (s : AppState) : Prop :=
  Forall (fun c => Comp.id c <> ""%string) (comps s).

(** A text field of the [comp] argument that fails the test [!field]: left
    out, or the empty string. *)
Definition lackingText (field : option string) : Prop :=
  field = None \/ field = Some ""%string.

(** A number field of the [comp] argument that fails the test [!field]:
    left out, zero or NaN. *)
Definition lackingNumber (field : option float) : Prop :=
  field = None \/ exists v, field = Some v /\ (is_zero v || is_nan v) = true.

(** The [comp] argument that add rejects. *)
Definition addRejected (comp : option CompInput.t) : Prop :=
  comp = None
  \/ exists c,
       comp = Some c
       /\ (lackingText (CompInput.address c)
           \/ lackingNumber (CompInput.salePrice c)
           \/ lackingText (CompInput.saleDate c)).

(** The message of the error add returns. *)
Definition addErrorMessage : string :=
  "To add a comp, provide at least address, saleDate, and salePrice.".

(** The [comp] argument names no comparable: it is left out, or its [id]
    is. *)
Definition namesNoComp (comp : option CompInput.t) : Prop :=
  comp = None \/ exists c, comp = Some c /\ CompInput.id c = None.

(** A [comp] argument that carries [id] alone. *)
Definition onlyId (i : string) : CompInput.t :=
  CompInput.mk (Some i) None None None None None None None None.

(** *** Notions for the tools and the sessions *)

(** What holds of the case at every moment of a session: the identifier of
    every comparable starts with [comp-], and an argument is on file only
    with a property. *)
Definition caseInvariant (s : AppState) : Prop :=
  Forall (fun c => Text.startsWith "comp-" (Comp.id c) = true) (comps s)
  /\ (is_Some (argument s) -> is_Some (property s)).

(** The property of the case was stored by manage-property. *)
Definition storedByHand (s : AppState) : Prop :=
  exists input, property s = Some (propertyOfInput input).

(** No request of the series is a lookup-property. *)
Definition withoutLookup (calls : list (World * Call)) : Prop :=
  Forall
    (fun wc =>
       match snd wc with lookupProperty _ _ _ _ => False | _ => True end)
    calls.

(** The answer of find-comps on a property without coordinates. *)
Definition noCoordinates : Response :=
  error
    "Subject property has no coordinates. Use lookup-property to search with SF Assessor data.".

(** The answer of update, remove and toggle for an identifier the case
    does not have. *)
Definition compNotFound (i : string) : Response :=
  error ("Comp not found: " +:+ i).

(** The comparable add appends for the input [c]. *)
Definition addedComp (B : Builtins) (W : World) (c : CompInput.t) : Comp.t :=
  Comp.mk ("comp-" +:+ Number_toString B (Date_now W))
    (default ""%string (CompInput.address c))
    (default ""%string (CompInput.saleDate c))
    (default 0%float (CompInput.salePrice c))
    (default 0%float (CompInput.sqft c))
    (default 0%float (CompInput.beds c))
    (default 0%float (CompInput.baths c))
    (default 0%float (CompInput.distance c))
    true
    (default ""%string (CompInput.notes c)).

(** [c] with the notes [noteText]. *)
Definition withNotes (noteText : string) (c : Comp.t) : Comp.t :=
  Comp.mk (Comp.id c) (Comp.address c) (Comp.saleDate c) (Comp.salePrice c)
    (Comp.sqft c) (Comp.beds c) (Comp.baths c) (Comp.distance c)
    (Comp.included c) noteText.

(** The coordinates find-comps searches around: those of the property when
    both pass the test [!lat || !lng], so neither is missing, zero or
    NaN. *)
Definition searchCentre (p : Property.t) : option (float * float) :=
  match Property.lat p, Property.lng p with
  | Some lat, Some lng =>
      if truthyNumber lat && truthyNumber lng then Some (lat, lng) else None
  | _, _ => None
  end.

(** The answer of find-comps without a property. *)
Definition noSubject : Response :=
  error "No subject property set. Use lookup-property or manage-property first.".

(** *** The calendar, for the filing window *)

(** The days of the month [month] (0-indexed). *)
Definition daysInMonth (leap : bool) (month : nat) : nat :=
  match month with
  | 1 => if leap then 29 else 28
  | 3 | 5 | 8 | 10 => 30
  | _ => 31
  end.

(** The day of the year of a date, 1 January being day 1. *)
Definition dayOfYear (leap : bool) (month day : nat) : nat :=
  sum_list (daysInMonth leap <$> seq 0 month) + day.

(** A date of the calendar. *)
Definition validDate (leap : bool) (month day : nat) : Prop :=
  month < 12 /\ 1 <= day <= daysInMonth leap month.

(** *** Notions for lookup-property *)

(** The request names a parcel: both [block] and [lot] pass the test
    [block && lot]. *)
Definition namesParcel (block lot : option string) : bool :=
  truthyOpt truthyString block && truthyOpt truthyString lot.

(** The answer of lookup-property to a request without an address and
    without a parcel. *)
Definition nothingToSearch : Response :=
  error "Provide either an address or both block and lot numbers.".

(** Zero or NaN: the numbers that are not above and not below zero. *)
Definition zeroOrNaN (x : spec_float) : Prop :=
  match x with
  | S754_zero _ | S754_nan => True
  | _ => False
  end.

(** No character of [s] is white space. *)
Fixpoint noWhiteSpace (s : string) : bool :=
  match s with
  | EmptyString => true
  | String c s' => negb (Str.isWhiteSpace c) && noWhiteSpace s'
  end.

(** *** The spacing of a normalized address *)

(** From a position of a text on, white space occurs only as a single
    space between two other characters; [afterSpace] tells that the
    position is at the start of the text or after a space. *)
Fixpoint spacedFrom (afterSpace : bool) (s : string) : bool :=
  match s with
  | EmptyString => true
  | String c s' =>
      if Str.isWhiteSpace c then
        Ascii.eqb c " " && negb afterSpace
        && match s' with EmptyString => false | _ => true end
        && spacedFrom true s'
      else spacedFrom false s'
  end.

(** No white space at either end of [s], and inside it only single
    spaces. *)
Definition singleSpaced (s : string) : bool := spacedFrom true s.

(** As [spacedFrom], but the text may end with a space. *)
Fixpoint looseFrom (afterSpace : bool) (s : string) : bool :=
  match s with
  | EmptyString => true
  | String c s' =>
      if Str.isWhiteSpace c then
        Ascii.eqb c " " && negb afterSpace && looseFrom true s'
      else looseFrom false s'
  end.

(** [s] starts with a character that is not white space. *)
Definition headSolid (s : string) : bool :=
  match s with
  | EmptyString => false
  | String c _ => negb (Str.isWhiteSpace c)
  end.

(** [s] ends with a character that is not white space. *)
Fixpoint lastSolid (s : string) : bool :=
  match s with
  | EmptyString => false
  | String c EmptyString => negb (Str.isWhiteSpace c)
  | String _ s' => lastSolid s'
  end.

(** *** The addresses the normalizer reads as documented *)

(** Every character of [s] is a letter. *)
Fixpoint lettersOnly (s : string) : bool :=
  match s with
  | EmptyString => true
  | String c s' => Str.isLetter c && lettersOnly s'
  end.

(** One of the street-type tokens is at the head of [s], in either
    case. *)
Definition tokenAt (s : string) : bool :=
  existsb
    (fun tok =>
       match Str.matchTokenCI tok s with Some _ => true | None => false end)
    Address.suffixTokens.

(** No street-type token occurs inside [s]. *)
Fixpoint tokenFree (s : string) : bool :=
  match s with
  | EmptyString => true
  | String _ s' => negb (tokenAt s) && tokenFree s'
  end.

(** The street-type tokens none of which starts with another one (AVE
    starts with AV, which the alternation tries first). *)
Definition plainSuffixes : list string :=
  ["ST"; "AV"; "BLVD"; "DR"; "CT"; "PL"; "WAY"; "LN"; "RD"; "TER"; "CIR";
   "HWY"]%string.

(** [s] is four digits. *)
Definition fourDigits (s : string) : bool :=
  match s with
  | String a (String b (String c (String d EmptyString))) =>
      Str.isDigit a && Str.isDigit b && Str.isDigit c && Str.isDigit d
  | _ => false
  end.

(** What holds of a number below 10000 written on four digits. *)
Definition pad4Check (n : N) : bool :=
  let d := Format.pad4 n in
  fourDigits d
  && (Address.parseInt10 d =? n)%N
  && String.eqb (Address.stripZeros d)
       (if (n =? 0)%N then ""%string else Address.stringOfN n).

(** *** Integers and halves in binary64 *)

(** The number of bits of [v]. *)
Definition bitLength (v : positive) : Z := Zpos (digits2_pos v).

(** The binary64 number [v * 2^k], for [v] of at most 53 bits: its
    mantissa has 53 bits. *)
Definition dyadic (s : bool) (v : positive) (k : Z) : spec_float :=
  S754_finite s (Z.to_pos (Zpos v * 2 ^ (53 - bitLength v)))
    (k + bitLength v - 53).

(** [x] is the number [v * 2^k]. *)
Definition isDyadic (x : float) (v : positive) (k : Z) : Prop :=
  Prim2SF x = dyadic false v k.

(** Of [q] and [q + 1], the even one. *)
Definition evenOf (q : positive) : positive :=
  if Z.even (Zpos q) then q else Pos.succ q.

(** An integer from 0 to 2^63 - 1 as a number; it is exact below 2^53. *)
Definition integerNumber (z : Z) : float := of_uint63 (Uint63.of_Z z).

(** The sum of positive integers. *)
Definition totalOf (prices : list positive) : Z :=
  fold_right (fun z total => (Zpos z + total)%Z) 0%Z prices.

(* ===================================================================== *)
(** * Part II: properties *)
(* ===================================================================== *)

Import FloatOrder FloatSign.

(** ** Binary64: order *)

Section Order.

Local Open Scope Z_scope.

Lemma SFcompare_key (x y : spec_float) :
  SFcompare x y =
    match key x, key y with
    | Some a, Some b =>
        Some (if klt a b then Lt else if keq a b then Eq else Gt)
    | _, _ => None
    end.
Proof.
  destruct x as [[]|[]| |[] mx ex], y as [[]|[]| |[] my ey];
    try reflexivity; unfold SFcompare, key, klt, keq;
    change (Pos.compare_cont Eq mx my) with (Pos.compare mx my);
    destruct (Z.compare_spec ex ey); destruct (Pos.compare_spec mx my);
    zbool.
Qed.

Lemma ltb_key (x y : float) :
  (x <? y)%float =
    match fkey x, fkey y with
    | Some a, Some b => klt a b
    | _, _ => false
    end.
Proof.
  rewrite ltb_spec. unfold SFltb, fkey. rewrite SFcompare_key.
  destruct (key (Prim2SF x)) as [a|], (key (Prim2SF y)) as [b|];
    try reflexivity.
  destruct (klt a b); [reflexivity|]. destruct (keq a b); reflexivity.
Qed.

Lemma leb_key (x y : float) :
  (x <=? y)%float =
    match fkey x, fkey y with
    | Some a, Some b => klt a b || keq a b
    | _, _ => false
    end.
Proof.
  rewrite leb_spec. unfold SFleb, fkey. rewrite SFcompare_key.
  destruct (key (Prim2SF x)) as [a|], (key (Prim2SF y)) as [b|];
    try reflexivity.
  destruct (klt a b); [reflexivity|]. destruct (keq a b); reflexivity.
Qed.

End Order.

(** Comparisons between floats turned into comparisons between the integers
    of their keys, and solved there.  The key of a literal is computed; the
    key of a variable is taken apart. *)
Ltac float_order :=
  rewrite ?ltb_key, ?leb_key in *;
  repeat match goal with
    | H : context [fkey ?x] |- _ =>
        tryif is_var x then fail else
          let v := eval vm_compute in (fkey x) in
          change (fkey x) with v in *
    | |- context [fkey ?x] =>
        tryif is_var x then fail else
          let v := eval vm_compute in (fkey x) in
          change (fkey x) with v in *
    end;
  repeat match goal with
    | H : context [fkey ?x] |- _ => destruct (fkey x) as [[[? ?] ?]|]
    | |- context [fkey ?x] => destruct (fkey x) as [[[? ?] ?]|]
    end;
  unfold klt, keq in *; zprop.

(** ** Binary64: signs *)

Section Sign.

Local Open Scope Z_scope.

Lemma binary_round_aux_sign (s : bool) (m e : Z) (l : location) :
  match binary_round_aux prec emax s m e l with
  | S754_nan => True
  | S754_zero s' | S754_infinity s' | S754_finite s' _ _ => s' = s
  end.
Proof.
  unfold binary_round_aux.
  destruct (shr_fexp prec emax m e l) as [mrs' e'].
  destruct (shr_fexp prec emax _ e' loc_Exact) as [mrs'' e''].
  destruct (shr_m mrs''); [reflexivity| |exact I].
  destruct (e'' <=? emax - prec); reflexivity.
Qed.

Lemma binary_round_aux_nonpos (m e : Z) (l : location) :
  nonpos (binary_round_aux prec emax true m e l).
Proof.
  pose proof (binary_round_aux_sign true m e l) as H.
  destruct (binary_round_aux prec emax true m e l); simpl; auto.
Qed.

Lemma digits2_pos_bounds (p : positive) :
  2 ^ (Zpos (digits2_pos p) - 1) <= Zpos p < 2 ^ Zpos (digits2_pos p).
Proof.
  induction p as [p IH|p IH|]; cbn [digits2_pos].
  - rewrite Pos2Z.inj_succ.
    replace (Z.succ (Zpos (digits2_pos p)) - 1)
      with (Z.succ (Zpos (digits2_pos p) - 1)) by lia.
    rewrite !Z.pow_succ_r by lia. lia.
  - rewrite Pos2Z.inj_succ.
    replace (Z.succ (Zpos (digits2_pos p)) - 1)
      with (Z.succ (Zpos (digits2_pos p) - 1)) by lia.
    rewrite !Z.pow_succ_r by lia. lia.
  - simpl. lia.
Qed.

Lemma shl_align_value (m : positive) (e e' : Z) :
  e' <= e ->
  Zpos (fst (shl_align m e e')) = Zpos m * 2 ^ (e - e').
Proof.
  intros He. unfold shl_align.
  destruct (e' - e) as [|d|d] eqn:Hd; try lia; cbn [fst].
  - replace (e - e') with 0 by lia. lia.
  - change (Pos.iter xO m d) with (shift_pos d m).
    rewrite shift_pos_correct, Z.pow_pos_fold.
    replace (e - e') with (Zpos d) by lia. lia.
Qed.

(** The order of two valid finite numbers above zero is the order of their
    mantissas once aligned on the smaller exponent. *)
Lemma aligned_le (ma me : positive) (ea ee : Z) :
  valid_binary (S754_finite false ma ea) = true ->
  valid_binary (S754_finite false me ee) = true ->
  SFleb (S754_finite false ma ea) (S754_finite false me ee) = true ->
  Zpos (fst (shl_align ma ea (Z.min ea ee)))
    <= Zpos (fst (shl_align me ee (Z.min ea ee))).
Proof.
  unfold valid_binary, bounded, canonical_mantissa, fexp, SFleb, SFcompare.
  rewrite !Bool.andb_true_iff, !Z.eqb_eq.
  intros [Ha _] [He _] Hle.
  rewrite !shl_align_value by lia.
  pose proof (digits2_pos_bounds ma) as Ba.
  pose proof (digits2_pos_bounds me) as Be.
  change (Pos.compare_cont Eq ma me) with (Pos.compare ma me) in Hle.
  destruct (Z.compare_spec ea ee) as [Heq|Hlt|Hgt]; try discriminate.
  - subst ee. rewrite Z.min_id, Z.sub_diag. simpl.
    destruct (Pos.compare_spec ma me); try discriminate; lia.
  - rewrite Z.min_l by lia. rewrite Z.sub_diag. simpl (2 ^ 0).
    assert (Hde : Zpos (digits2_pos me) = prec)
      by (unfold prec, emax, emin in *; lia).
    assert (Hda : Zpos (digits2_pos ma) <= prec)
      by (unfold prec, emax, emin in *; lia).
    rewrite Hde in Be.
    assert (Zpos ma < 2 ^ prec).
    { apply Z.lt_le_trans with (2 ^ Zpos (digits2_pos ma)); [lia|].
      apply Z.pow_le_mono_r; lia. }
    assert (2 ^ 1 <= 2 ^ (ee - ea)) by (apply Z.pow_le_mono_r; lia).
    replace (2 ^ prec) with (2 * 2 ^ (prec - 1)) in * by reflexivity.
    change (2 ^ 1) with 2 in *. nia.
Qed.

Lemma sub_nonpos (x y : spec_float) :
  valid_binary x = true -> valid_binary y = true ->
  above_zero x -> SFleb x y = true -> nonpos (SF64sub x y).
Proof.
  intros Vx Vy Px Hle.
  destruct x as [sx|sx| |sx mx ex]; try contradiction; simpl in Px; subst sx;
    destruct y as [sy|[]| |[] my ey]; try discriminate Hle; try exact I;
    try reflexivity.
  pose proof (aligned_le mx my ex ey Vx Vy Hle) as H.
  unfold SF64sub, SFsub, cond_Zopp, binary_normalize.
  destruct (_ - _) as [|d|d] eqn:Hd; try lia; [exact I|].
  unfold binary_round. destruct (shl_align d _ _) as [mz ez].
  apply binary_round_aux_nonpos.
Qed.

Lemma div_nonpos (x y : spec_float) :
  nonpos x -> above_zero y -> nonpos (SF64div x y).
Proof.
  intros Nx Py.
  destruct x as [sx|sx| |sx mx ex], y as [sy|sy| |sy my ey];
    simpl in *; try contradiction; subst; try exact I; try reflexivity.
  destruct (SFdiv_core_binary prec emax (Zpos mx) ex (Zpos my) ey)
    as [[mz ez] lz].
  apply binary_round_aux_nonpos.
Qed.

Lemma mul_nonpos (x : spec_float) (m : positive) (e : Z) :
  nonpos x -> nonpos (SF64mul x (S754_finite false m e)).
Proof.
  intros Nx. destruct x as [sx|sx| |sx mx ex]; simpl in *; subst;
    try exact I; try reflexivity.
  apply binary_round_aux_nonpos.
Qed.

Lemma leb_nonpos (m : positive) (e : Z) (x : spec_float) :
  nonpos x -> SFleb (S754_finite false m e) x = false.
Proof.
  intros Nx. destruct x as [sx|sx| |sx mx ex]; simpl in *; subst; reflexivity.
Qed.

Lemma above_zero_of_ltb (x : float) :
  (0 <? x)%float = true -> above_zero (Prim2SF x).
Proof.
  rewrite ltb_spec. change (Prim2SF 0) with (S754_zero false).
  destruct (Prim2SF x) as [sx|[]| |[] mx ex]; simpl; intros H;
    try discriminate H; reflexivity.
Qed.

End Sign.

(** ** The case-strength scorer *)

(** A reference value at or above a positive assessed value leaves the
    percentage below every threshold: the difference is not above zero, and
    neither the division by a positive number nor the product by 100 changes
    that. *)
Lemma gap_not_above_five (a r : float) :
  (0 <? a)%float = true -> (a <=? r)%float = true ->
  (5 <=? gapPercent a r)%float = false.
Proof.
  intros Ha Hle. unfold gapPercent.
  rewrite leb_spec, mul_spec, div_spec, sub_spec.
  apply above_zero_of_ltb in Ha. rewrite leb_spec in Hle.
  change (Prim2SF 5) with (S754_finite false 5629499534213120 (-50)).
  change (Prim2SF 100) with (S754_finite false 7036874417766400 (-46)).
  apply leb_nonpos, mul_nonpos, div_nonpos; [|exact Ha].
  apply sub_nonpos; auto using Prim2SF_valid.
Qed.

(** C1. For positive assessed and reference values the scorer answers
    strong exactly when gapPercent is at least 15, medium exactly when it is
    at least 5 and below 15, and weak otherwise; it answers weak whenever the
    reference value is at or above the assessed value; and it answers
    strong, medium, weak and weak on (500000, 425000), (500000, 460000),
    (500000, 490000) and (500000, 520000).  gapPercent is computed as the
    scorer computes it, in binary64. *)
Theorem case_strength_tiers (assessedValue referenceValue : float) :
  (0 <? assessedValue)%float = true ->
  (0 <? referenceValue)%float = true ->
  let gap := gapPercent assessedValue referenceValue in
  let tier := calculateCaseStrength assessedValue referenceValue in
  (tier = strong <-> (15 <=? gap)%float = true)
  /\ (tier = medium <-> (5 <=? gap)%float = true /\ (gap <? 15)%float = true)
  /\ (tier = weak <->
        (15 <=? gap)%float <> true
        /\ ~ ((5 <=? gap)%float = true /\ (gap <? 15)%float = true))
  /\ ((assessedValue <=? referenceValue)%float = true -> tier = weak)
  /\ calculateCaseStrength 500000 425000 = strong
  /\ calculateCaseStrength 500000 460000 = medium
  /\ calculateCaseStrength 500000 490000 = weak
  /\ calculateCaseStrength 500000 520000 = weak.
Proof.
  intros Ha Hr gap tier.
  assert (Hweak : (assessedValue <=? referenceValue)%float = true ->
                  (5 <=? gap)%float = false)
    by (apply gap_not_above_five; exact Ha).
  assert (Htier : tier = if (15 <=? gap)%float then strong
                         else if (5 <=? gap)%float then medium else weak)
    by reflexivity.
  clearbody gap tier. subst tier.
  (* 15 <= gap gives 5 <= gap and excludes gap < 15; 5 <= gap without
     15 <= gap gives gap < 15. *)
  assert (H15_5 : (15 <=? gap)%float = true -> (5 <=? gap)%float = true)
    by (intros; float_order).
  assert (H15_lt : (15 <=? gap)%float = true -> (gap <? 15)%float = false)
    by (intros; float_order).
  assert (H5_lt : (5 <=? gap)%float = true -> (15 <=? gap)%float = false ->
                  (gap <? 15)%float = true)
    by (intros; float_order).
  destruct (15 <=? gap)%float eqn:H15; destruct (5 <=? gap)%float eqn:H5;
    try (specialize (H15_5 eq_refl); discriminate);
    repeat match goal with
      | H : true = true -> _ |- _ => specialize (H eq_refl)
      | H : false = true -> _ |- _ => clear H
      | H : _ = false -> _ |- _ => specialize (H eq_refl)
      end.
  - (* strong *)
    split; [tauto|]. split; [split; [discriminate|intros [_ H]; congruence]|].
    split; [split; [discriminate|intros [H _]; congruence]|].
    split; [intros Hle; specialize (Hweak Hle); discriminate|].
    repeat split; vm_compute; reflexivity.
  - (* medium *)
    split; [split; discriminate|]. split; [tauto|].
    split; [split; [discriminate|intros [_ H]; tauto]|].
    split; [intros Hle; specialize (Hweak Hle); discriminate|].
    repeat split; vm_compute; reflexivity.
  - (* weak *)
    split; [split; discriminate|].
    split; [split; [discriminate|intros [H _]; discriminate]|].
    split; [split; [intros _; split; [discriminate|intros [H _]; discriminate]
                   |reflexivity]|].
    split; [reflexivity|].
    repeat split; vm_compute; reflexivity.
Qed.

Lemma case_strength_tiers_witness :
  calculateCaseStrength 500000 520000 = weak.
Proof.
  destruct (case_strength_tiers 500000 520000 eq_refl eq_refl)
    as (_ & _ & _ & H & _).
  exact (H eq_refl).
Defined.

(** The tiers follow the binary64 value of the percentage.  Beyond 2^52 it
    can differ from the exact quotient: for these two amounts the exact
    percentage is below 15, the quotient rounds to the number nearest 0.15
    and its product by 100 to 15. *)
Remark case_strength_rounding :
  calculateCaseStrength 4000000000000007 3400000000000006 = strong
  /\ (100 * (4000000000000007 - 3400000000000006) < 15 * 4000000000000007)%Z.
Proof. split; [vm_compute; reflexivity|lia]. Qed.

(** ** find-comps: the radius ladder *)

Lemma Flt_neq (x y : float) : Flt x y -> x <> y.
Proof. unfold Flt. intros H ->. float_order. Qed.

(** The loop stops at the first radius whose query yields a record. *)
Lemma searchRadii_first (query : float -> string + list SFRecord)
    (before after : list float) (used : float)
    (records records0 : list SFRecord) (used0 : float) :
  Forall (yieldsNothing query) before ->
  yields query used records ->
  searchRadii query (before ++ used :: after) records0 used0
    = inr (records, used).
Proof.
  intros Hbefore [Hused Hne]. revert records0 used0.
  induction Hbefore as [|x before Hx _ IH]; intros records0 used0.
  - cbn [app searchRadii]. rewrite Hused.
    destruct records as [|rec records]; [contradiction|reflexivity].
  - cbn [app searchRadii]. rewrite Hx. cbn. apply IH.
Qed.

(** What the loop returns with a record is the answer at the radius it
    names, and every radius before that one yielded nothing. *)
Lemma searchRadii_found (query : float -> string + list SFRecord)
    (radii : list float) (used0 : float)
    (records : list SFRecord) (used : float) :
  searchRadii query radii [] used0 = inr (records, used) ->
  records <> [] ->
  exists before after,
    radii = before ++ used :: after
    /\ Forall (yieldsNothing query) before
    /\ yields query used records.
Proof.
  revert used0.
  induction radii as [|r rest IH]; intros used0 H Hne; cbn [searchRadii] in H.
  - inversion H; subst. contradiction.
  - destruct (query r) as [e|recs] eqn:Hq; [discriminate|].
    destruct recs as [|rec recs]; cbn in H.
    + destruct (IH _ H Hne) as (before & after & -> & Hb & Hu).
      exists (r :: before), after. repeat split; try apply Hu.
      constructor; assumption.
    + inversion H; subst. exists [], rest. repeat split; auto.
Qed.

(** The effective radius of the search is the one the handler reports. *)
Lemma find_comps_reports_radius (B : Builtins) (W : World)
    (radius monthsBack limit : float) (s : AppState) (p : Property.t)
    (lat lng : float) (cutoffStr : string) (records : list SFRecord)
    (used : float) :
  property s = Some p ->
  Property.lat p = Some lat -> Property.lng p = Some lng ->
  truthyNumber lat && truthyNumber lng = true ->
  cutoffDate W monthsBack = inr cutoffStr ->
  searchRadii
    (queryRadius B W lat lng cutoffStr (Property.apn p) limit)
    (radiiToTry radius) [] radius
  = inr (records, used) ->
  records <> [] ->
  exists found rest,
    responseText (fst (find_comps B W radius monthsBack limit s))
    = Some ("Found " +:+ found +:+ " comparable sales within "
              +:+ Number_toString B used +:+ " miles" +:+ rest).
Proof.
  intros Hp Hlat Hlng Htruthy Hdate Hsearch Hne.
  unfold find_comps. rewrite Hp, Hlat, Hlng, Htruthy, Hdate, Hsearch.
  destruct records as [|rec records]; [contradiction|].
  cbn [length Nat.eqb fst responseText]. eexists _, _. reflexivity.
Qed.

(** C2 (amended). For every requested radius r > 0 the radii find-comps
    tries are strictly ascending, without duplicates, each of them r or one
    of the checkpoints 0.75, 1.0, 1.5, 2.0 and at least r (they are r
    followed by the checkpoints above r); only r itself can
    exceed 2.0, so that nothing exceeds 2.0 when r does not; the effective
    radius is the first one in that order whose query yields a record; and
    when the radii 0.5 and 0.75 yield nothing and 1.0 yields records, the
    effective radius is 1.0 (whatever 0.75 yields, it is 0.75 or 1.0, not 1.5
    or 2.0). *)
Theorem radius_ladder (radius : float)
    (query : float -> string + list SFRecord) :
  (0 <? radius)%float = true ->
  let radii := radiiToTry radius in
  radii
  = radius :: List.filter (fun c => (radius <? c)%float) radiusCheckpoints
  /\ StronglySorted Flt radii
  /\ NoDup radii
  /\ Forall (fun x => (x = radius \/ x ∈ radiusCheckpoints) /\ Fle radius x)
       radii
  /\ Forall (fun x => x = radius \/ Fle x 2) radii
  /\ (Fle radius 2 -> Forall (fun x => Fle x 2) radii)
  /\ (forall before used after records,
        radii = before ++ used :: after ->
        Forall (yieldsNothing query) before ->
        yields query used records ->
        searchRadii query radii [] radius = inr (records, used))
  /\ (forall records used,
        searchRadii query radii [] radius = inr (records, used) ->
        records <> [] ->
        exists before after,
          radii = before ++ used :: after
          /\ Forall (yieldsNothing query) before
          /\ yields query used records)
  /\ (forall records,
        yieldsNothing query 0.5 -> yieldsNothing query 0.75 ->
        yields query 1 records ->
        searchRadii query (radiiToTry 0.5) [] 0.5 = inr (records, 1%float))
  /\ (forall records found used,
        yieldsNothing query 0.5 -> yields query 1 records ->
        searchRadii query (radiiToTry 0.5) [] 0.5 = inr (found, used) ->
        used = 0.75%float \/ used = 1%float).
Proof.
  intros Hpos radii.
  split.
  { subst radii. unfold radiiToTry, radiusCheckpoints. cbn [List.filter app].
    destruct (radius <? 0.75)%float, (radius <? 1.0)%float,
      (radius <? 1.5)%float, (radius <? 2.0)%float; reflexivity. }
  assert (Hshape :
    StronglySorted Flt radii /\ NoDup radii
    /\ Forall (fun x => (x = radius \/ x ∈ radiusCheckpoints) /\ Fle radius x)
         radii
    /\ Forall (fun x => x = radius \/ Fle x 2) radii
    /\ (Fle radius 2 -> Forall (fun x => Fle x 2) radii)).
  { subst radii. unfold radiiToTry, radiusCheckpoints, Flt, Fle.
    destruct (radius <? 0.75)%float eqn:H1;
      destruct (radius <? 1.0)%float eqn:H2;
      destruct (radius <? 1.5)%float eqn:H3;
      destruct (radius <? 2.0)%float eqn:H4;
      try (exfalso; float_order; fail); cbn [app];
      (split; [repeat constructor; float_order|]);
      (split; [repeat (constructor; [rewrite ?elem_of_cons, ?elem_of_nil;
                 intros Hin; repeat destruct Hin as [Hin|Hin]; subst;
                 try contradiction; float_order|]); constructor|]);
      (split; [repeat (constructor; [split;
                 [first [left; reflexivity | right; set_solver]
                 |float_order]|]); constructor|]);
      (split; [repeat (constructor;
                 [first [left; reflexivity | right; float_order]|]);
               constructor|]);
      intros Hle; repeat (constructor; [float_order|]); constructor. }
  destruct Hshape as (Hs & Hn & Hf & Hc & Hc').
  repeat split; try assumption.
  - intros before used after records -> Hb Hu.
    apply searchRadii_first; assumption.
  - intros records used H Hne. eapply searchRadii_found; eassumption.
  - intros records H05 H075 H1.
    apply (searchRadii_first query [0.5; 0.75]%float [1.5; 2.0]%float).
    + repeat constructor; assumption.
    + assumption.
  - intros records found used H05 [H1 Hne] H.
    change (radiiToTry 0.5) with [0.5; 0.75; 1; 1.5; 2]%float in H.
    cbn [searchRadii] in H. rewrite H05 in H. cbn in H.
    destruct (query 0.75%float) as [e|[|rec recs]]; try discriminate.
    + cbn in H. rewrite H1 in H. destruct records; [contradiction|].
      cbn in H. inversion H. right. reflexivity.
    + cbn in H. inversion H. left. reflexivity.
Qed.

Lemma radius_ladder_witness :
  StronglySorted Flt (radiiToTry 0.5).
Proof.
  exact (proj1 (proj2 (radius_ladder 0.5 (fun _ => inr []) eq_refl))).
Defined.

(** C2, as stated, fails twice.  A requested radius of 3 is tried, above
    the ceiling of 2.0.  And with nothing within 0.5, a record within 0.75
    and so within 1.0, the effective radius is 0.75, not 1.0: the handler
    reports a search expanded from 0.5 to 0.75 miles. *)
Lemma radius_ladder_counterexample :
  radiiToTry 3 = [3%float]
  /\ (3 <=? 2)%float = false
  /\ (let rows := [Example.row (Some "0595140") "600000" "300000"] in
      let query r : string + list SFRecord :=
        if (r <? 0.75)%float then inr [] else inr rows in
      yieldsNothing query 0.5 /\ yields query 1 rows
      /\ searchRadii query (radiiToTry 0.5) [] 0.5 = inr (rows, 0.75%float)
      /\ responseText
           (fst (find_comps Sample.builtins (Example.sparseWorld rows)
                   0.5 24 15
                   (mkState (Some Example.subject) [] None)))
         = Some "Found 1 comparable sales within 0.75 miles (expanded from 0.5 mi). 1 total comps, case strength: medium. Assessed values shown reflect post-sale reassessment under Prop 13 (proxy for sale price)."%string).
Proof.
  repeat split; try (vm_compute; reflexivity). discriminate.
Qed.

(** ** find-comps: merging the discovered comparables *)

Lemma filter_sublist {A} (p : A -> bool) (l : list A) :
  sublist (List.filter p l) l.
Proof.
  induction l as [|x l IH]; simpl; [constructor|].
  destruct (p x); constructor; exact IH.
Qed.

Lemma filter_none {A} (p : A -> bool) (l : list A) :
  (forall x, x ∈ l -> p x = false) -> List.filter p l = [].
Proof.
  induction l as [|x l IH]; intros H; simpl; [reflexivity|].
  rewrite (H x) by constructor. apply IH. intros y Hy. apply H.
  constructor. exact Hy.
Qed.

Lemma fold_merge (ids : gset string) (newComps acc : list Comp.t) :
  fold_left
    (fun acc comp =>
       if bool_decide (Comp.id comp ∈ ids) then acc else acc ++ [comp])
    newComps acc
  = acc ++ List.filter (fun c => negb (bool_decide (Comp.id c ∈ ids))) newComps.
Proof.
  revert acc. induction newComps as [|c newComps IH]; intros acc; simpl.
  - symmetry. apply app_nil_r.
  - rewrite IH. destruct (bool_decide (Comp.id c ∈ ids)); simpl.
    + reflexivity.
    + rewrite <- app_assoc. reflexivity.
Qed.

(** First-write-wins: the comparables already in the case stay as they
    are, in place, and the candidates are appended in order, those whose
    identifier the case already had being skipped. *)
Lemma mergeComps_app (existing newComps : list Comp.t) :
  mergeComps existing newComps
  = existing ++ List.filter (freshIn existing) newComps.
Proof.
  unfold mergeComps. rewrite fold_merge. f_equal.
  apply List.filter_ext. intros c. unfold freshIn, compIds. f_equal.
  apply bool_decide_ext, elem_of_list_to_set.
Qed.

(** Merging the same candidates a second time adds nothing. *)
Lemma mergeComps_idempotent (existing newComps : list Comp.t) :
  mergeComps (mergeComps existing newComps) newComps
  = mergeComps existing newComps.
Proof.
  rewrite (mergeComps_app (mergeComps existing newComps)).
  rewrite filter_none; [apply app_nil_r|].
  intros c Hc. unfold freshIn.
  apply Bool.negb_false_iff, bool_decide_eq_true.
  rewrite mergeComps_app. unfold compIds. rewrite fmap_app, elem_of_app.
  destruct (bool_decide (Comp.id c ∈ compIds existing)) eqn:Hex.
  - left. apply bool_decide_eq_true in Hex. exact Hex.
  - right. apply list_elem_of_fmap. exists c. split; [reflexivity|].
    apply list_elem_of_In, List.filter_In. split.
    + apply list_elem_of_In. exact Hc.
    + unfold freshIn. rewrite Hex. reflexivity.
Qed.

(** Candidates with pairwise distinct identifiers keep a case without
    duplicate identifiers without duplicates. *)
Lemma mergeComps_NoDup (existing newComps : list Comp.t) :
  NoDup (compIds existing) -> NoDup (compIds newComps) ->
  NoDup (compIds (mergeComps existing newComps)).
Proof.
  intros He Hn. rewrite mergeComps_app. unfold compIds in *.
  rewrite fmap_app. apply NoDup_app. repeat split.
  - exact He.
  - intros i Hi Hin. apply list_elem_of_fmap in Hin as (c & -> & Hc).
    apply list_elem_of_In, List.filter_In in Hc as [_ Hc].
    unfold freshIn in Hc. apply Bool.negb_true_iff, bool_decide_eq_false in Hc.
    contradiction.
  - apply (sublist_NoDup _ (Comp.id <$> newComps)); 
      [exact Hn | apply fmap_sublist, filter_sublist].
Qed.

(** ** find-comps: running it twice *)

Lemma searchRadii_ext (q q' : float -> string + list SFRecord)
    (radii : list float) (records0 : list SFRecord) (used0 : float) :
  (forall r, q' r = q r) ->
  searchRadii q' radii records0 used0 = searchRadii q radii records0 used0.
Proof.
  intros H. revert records0 used0.
  induction radii as [|r radii IH]; intros records0 used0; simpl;
    [reflexivity|].
  rewrite H. destruct (q r) as [e|recs]; [reflexivity|].
  destruct (0 <? length recs)%nat; [reflexivity|apply IH].
Qed.

(** The records the loop returns are those it was entered with or an answer
    of the feed. *)
Lemma searchRadii_records (q : float -> string + list SFRecord)
    (radii : list float) (records0 : list SFRecord) (used0 : float)
    (records : list SFRecord) (used : float) :
  searchRadii q radii records0 used0 = inr (records, used) ->
  records = records0 \/ exists r, q r = inr records.
Proof.
  revert records0 used0.
  induction radii as [|r radii IH]; intros records0 used0 H; simpl in H.
  - inversion H. left. reflexivity.
  - destruct (q r) as [e|recs] eqn:Hq; [discriminate|].
    destruct (0 <? length recs)%nat.
    + inversion H; subst. right. eexists. exact Hq.
    + destruct (IH _ _ H) as [->|Hex]; [|right; exact Hex].
      right. exists r. exact Hq.
Qed.

Lemma discovered_feed (B : Builtins) (W : World)
    (radius monthsBack limit : float) (s : AppState)
    (P : list SFRecord -> Prop) :
  P [] -> feedRows W P -> P (discovered B W radius monthsBack limit s).
Proof.
  intros Hnil Hfeed. unfold discovered.
  destruct (property s) as [p|]; [|exact Hnil].
  destruct (Property.lat p) as [lat|]; [|exact Hnil].
  destruct (Property.lng p) as [lng|]; [|exact Hnil].
  destruct (truthyNumber lat && truthyNumber lng); [|exact Hnil].
  destruct (cutoffDate W monthsBack) as [e|cutoffStr]; [exact Hnil|].
  destruct (searchRadii _ _ _ _) as [e|[records used]] eqn:Hs; [exact Hnil|].
  apply searchRadii_records in Hs as [->|[r Hr]]; [exact Hnil|].
  unfold queryRadius in Hr. eapply Hfeed. exact Hr.
Qed.

Lemma withComps_same (s : AppState) : withComps s (comps s) = s.
Proof. destruct s. reflexivity. Qed.

(** The state find-comps leaves: the comparables converted from the
    records discovered, merged into the case; nothing else changes. *)
Lemma find_comps_state (B : Builtins) (W : World)
    (radius monthsBack limit : float) (s : AppState) :
  snd (find_comps B W radius monthsBack limit s)
  = withComps s
      (mergeComps (comps s)
         (newCompsOf B W (property s)
            (discovered B W radius monthsBack limit s))).
Proof.
  unfold find_comps, discovered.
  destruct (property s) as [p|] eqn:Hp;
    [|symmetry; apply withComps_same].
  destruct (Property.lat p) as [lat|];
    [|symmetry; apply withComps_same].
  destruct (Property.lng p) as [lng|];
    [|symmetry; apply withComps_same].
  destruct (truthyNumber lat && truthyNumber lng);
    [|symmetry; apply withComps_same].
  destruct (cutoffDate W monthsBack) as [e|cutoffStr];
    [symmetry; apply withComps_same|].
  destruct (searchRadii _ _ _ _) as [e|[records used]];
    [symmetry; apply withComps_same|].
  destruct records as [|rec records]; [symmetry; apply withComps_same|].
  cbn [length Nat.eqb snd]. unfold withComps. rewrite Hp. reflexivity.
Qed.

Lemma discovered_same (B : Builtins) (W W' : World)
    (radius monthsBack limit : float) (s : AppState) (l : list Comp.t) :
  sameResponses B W W' monthsBack ->
  discovered B W' radius monthsBack limit (withComps s l)
  = discovered B W radius monthsBack limit s.
Proof.
  intros Hsame. unfold discovered, withComps. cbn [property].
  destruct (property s) as [p|]; [|reflexivity].
  destruct (Property.lat p) as [lat|]; [|reflexivity].
  destruct (Property.lng p) as [lng|]; [|reflexivity].
  destruct (truthyNumber lat && truthyNumber lng); [|reflexivity].
  unfold sameResponses in Hsame.
  destruct (cutoffDate W monthsBack) as [e|cutoffStr],
    (cutoffDate W' monthsBack) as [e'|cutoffStr'];
    try contradiction; [reflexivity|].
  rewrite (searchRadii_ext
             (queryRadius B W lat lng cutoffStr (Property.apn p) limit)
             (queryRadius B W' lat lng cutoffStr' (Property.apn p) limit));
    [reflexivity|].
  intros r. apply Hsame.
Qed.

(** The identifier of a comparable found by a search is derived from the
    parcel identifier of its row alone. *)
Lemma compIdOf_parcel (B : Builtins) (W : World) (rec : SFRecord) (p : string) :
  parcel_number rec = Some p -> compIdOf B W rec = ("comp-" +:+ p)%string.
Proof. intros H. unfold compIdOf. rewrite H. reflexivity. Qed.

Lemma recordToComp_world (B : Builtins) (W W' : World)
    (p : option Property.t) (rec : SFRecord) :
  is_Some (parcel_number rec) ->
  recordToComp B W' p rec = recordToComp B W p rec.
Proof.
  intros [i Hi]. unfold recordToComp, compIdOf. rewrite Hi. reflexivity.
Qed.

Lemma newCompsOf_world (B : Builtins) (W W' : World)
    (p : option Property.t) (rows : list SFRecord) :
  wellKeyed rows -> newCompsOf B W' p rows = newCompsOf B W p rows.
Proof.
  unfold newCompsOf. induction 1 as [|rec rows Hrec _ IH]; simpl;
    [reflexivity|].
  destruct (0 <? assessedOf rec)%float; [|exact IH].
  cbn [fmap list_fmap]. f_equal; [|exact IH].
  apply recordToComp_world. exact Hrec.
Qed.

Lemma compIds_newCompsOf (B : Builtins) (W : World) (p : option Property.t)
    (rows : list SFRecord) :
  wellKeyed rows -> distinctParcels rows ->
  NoDup (compIds (newCompsOf B W p rows)).
Proof.
  unfold wellKeyed, distinctParcels, compIds, newCompsOf.
  intros Hk Hd. rewrite <- list_fmap_compose.
  apply NoDup_fmap_2_strong.
  - intros x y Hx Hy Hxy. cbn in Hxy.
    apply list_elem_of_In, List.filter_In in Hx as [Hx _].
    apply list_elem_of_In, List.filter_In in Hy as [Hy _].
    apply list_elem_of_In in Hx, Hy.
    rewrite Forall_forall in Hk.
    destruct (Hk x Hx) as [i Hi], (Hk y Hy) as [j Hj].
    change (compIdOf B W x = compIdOf B W y) in Hxy.
    rewrite (compIdOf_parcel _ _ _ _ Hi), (compIdOf_parcel _ _ _ _ Hj) in Hxy.
    apply (inj (String.append "comp-")) in Hxy. subst j.
    clear Hk. induction rows as [|r rows IH]; [inversion Hx|].
    cbn in Hd. apply NoDup_cons in Hd as [Hr Hd].
    apply elem_of_cons in Hx as [->|Hx], Hy as [->|Hy].
    + reflexivity.
    + exfalso. apply Hr. apply list_elem_of_fmap. exists y. split; congruence.
    + exfalso. apply Hr. apply list_elem_of_fmap. exists x. split; congruence.
    + apply IH; assumption.
  - apply (sublist_NoDup _ rows); [|apply filter_sublist].
    eapply NoDup_fmap_1. exact Hd.
Qed.

(** C3 (amended). When every row of the feed carries a parcel identifier,
    running find-comps a second time on the same case, with the same
    parameters and the same answers of the feed, adds no comparable: the
    state after the second run is the state after the first.  The
    identifier of a discovered comparable is "comp-" followed by the parcel
    identifier of its row, whatever the clock reads; a run keeps the
    comparables of the case as they are and appends candidates whose
    identifier the case does not have yet; and when the rows of an answer
    carry pairwise distinct parcel identifiers, a case without duplicate
    identifiers has none after either run. *)
Theorem find_comps_twice (B : Builtins) (W W' : World)
    (radius monthsBack limit : float) (s : AppState) :
  sameResponses B W W' monthsBack ->
  feedRows W wellKeyed ->
  let s1 := snd (find_comps B W radius monthsBack limit s) in
  let s2 := snd (find_comps B W' radius monthsBack limit s1) in
  s2 = s1
  /\ (forall p rec i,
        parcel_number rec = Some i ->
        Comp.id (recordToComp B W p rec) = ("comp-" +:+ i)%string
        /\ Comp.id (recordToComp B W' p rec) = ("comp-" +:+ i)%string)
  /\ (exists added,
        comps s1 = comps s ++ added
        /\ Forall (fun c => Comp.id c ∉ compIds (comps s)) added)
  /\ property s1 = property s /\ argument s1 = argument s
  /\ (feedRows W distinctParcels ->
      NoDup (compIds (comps s)) ->
      NoDup (compIds (comps s1)) /\ NoDup (compIds (comps s2))).
Proof.
  intros Hsame Hkeyed s1 s2.
  pose proof (discovered_feed B W radius monthsBack limit s wellKeyed
                (List.Forall_nil _) Hkeyed) as Hk.
  assert (H1 : s1 = withComps s
                 (mergeComps (comps s)
                    (newCompsOf B W (property s)
                       (discovered B W radius monthsBack limit s))))
    by apply find_comps_state.
  assert (H2 : s2 = s1).
  { unfold s2. rewrite find_comps_state. rewrite H1.
    rewrite (discovered_same B W W') by exact Hsame.
    cbn [withComps property comps argument].
    rewrite (newCompsOf_world B W W') by exact Hk.
    rewrite mergeComps_idempotent. reflexivity. }
  split; [exact H2|]. split.
  { intros p rec i Hi. unfold recordToComp. cbn [Comp.id].
    rewrite !(compIdOf_parcel _ _ _ _ Hi). split; reflexivity. }
  rewrite H2. clearbody s1 s2. subst s1.
  cbn [withComps property comps argument]. rewrite mergeComps_app.
  split; [|split; [reflexivity|split; [reflexivity|]]].
  - eexists. split; [reflexivity|].
    apply Forall_forall. intros c Hc.
    apply list_elem_of_In, List.filter_In in Hc as [_ Hc].
    unfold freshIn in Hc.
    apply Bool.negb_true_iff, bool_decide_eq_false in Hc. exact Hc.
  - intros Hdistinct Hnodup. rewrite <- mergeComps_app.
    assert (NoDup (compIds
              (mergeComps (comps s)
                 (newCompsOf B W (property s)
                    (discovered B W radius monthsBack limit s))))).
    { apply mergeComps_NoDup; [exact Hnodup|].
      apply compIds_newCompsOf; [exact Hk|].
      apply discovered_feed; [constructor|exact Hdistinct]. }
    split; assumption.
Qed.

Lemma find_comps_twice_witness :
  let W := Sample.world 1739620800000
             [Example.row (Some "0595140") "600000" "300000"] in
  let W' := Sample.world 1739620860000
              [Example.row (Some "0595140") "600000" "300000"] in
  let s := mkState (Some Example.subject) [] None in
  snd (find_comps Sample.builtins W' 0.5 24 15
         (snd (find_comps Sample.builtins W 0.5 24 15 s)))
  = snd (find_comps Sample.builtins W 0.5 24 15 s).
Proof.
  intros W W' s.
  apply (find_comps_twice Sample.builtins W W' 0.5 24 15 s).
  - intros lat lng apn limit r. reflexivity.
  - intros whereClause select limit order rows Hrows.
    injection Hrows as <-. repeat constructor. eexists. reflexivity.
Defined.

(** C3, as stated, fails on a row without a parcel identifier: its
    comparable is named after the clock, and a second run a minute later,
    with the same answer of the feed, adds the same sale once more. *)
Lemma find_comps_twice_counterexample :
  let rows := [Example.row None "600000" "300000"] in
  let s := mkState (Some Example.subject) [] None in
  let s1 :=
    snd (find_comps Sample.builtins (Sample.world 1739620800000 rows)
           0.5 24 15 s) in
  let s2 :=
    snd (find_comps Sample.builtins (Sample.world 1739620860000 rows)
           0.5 24 15 s1) in
  compIds (comps s1) = ["comp-1739620800000"%string]
  /\ compIds (comps s2)
     = ["comp-1739620800000"; "comp-1739620860000"]%string
  /\ Comp.address <$> comps s2 = ["990 GREEN ST"; "990 GREEN ST"]%string
  /\ s2 <> s1.
Proof.
  repeat split; try (vm_compute; reflexivity).
  intros H. apply (f_equal (fun s => length (comps s))) in H.
  vm_compute in H. discriminate H.
Qed.

(** The identifiers of the case are collected once, before the candidates
    are added: two rows of one answer with the same parcel identifier both
    enter the case. *)
Lemma find_comps_repeated_row :
  let rows := [Example.row (Some "0595140") "600000" "300000";
               Example.row (Some "0595140") "600000" "300000"] in
  let s := mkState (Some Example.subject) [] None in
  compIds
    (comps
       (snd (find_comps Sample.builtins (Sample.world 1739620800000 rows)
               0.5 24 15 s)))
  = ["comp-0595140"; "comp-0595140"]%string.
Proof. vm_compute. reflexivity. Qed.

(** ** The address normalizer *)

(** C4. The two addresses the specification gives are normalized as it
    says.  An address of the documented format whose street name contains a
    suffix token is not: the suffix pattern stops at the first place where a
    token occurs, here the ST inside CASTRO, and what follows becomes the
    unit.  And the third example of the comment of [parseAddress], documented
    to give 1139 GREEN ST, keeps the letters of its secondary number. *)
Theorem parseAddress_examples :
  Address.parseAddress "0000 1625 PACIFIC             AV0007"
    = "1625 PACIFIC AV #7"%string
  /\ Address.parseAddress "0000 0990 GREEN                ST0000"
    = "990 GREEN ST"%string
  /\ Format.rawAddress 0 1625 "PACIFIC" 13 "AV" 7
    = "0000 1625 PACIFIC             AV0007"%string
  /\ Format.canonicalAddress 1625 "PACIFIC" "AV" 7
    = "1625 PACIFIC AV #7"%string
  /\ Format.rawAddress 0 123 "CASTRO" 15 "ST" 0
    = "0000 0123 CASTRO               ST0000"%string
  /\ Format.canonicalAddress 123 "CASTRO" "ST" 0 = "123 CASTRO ST"%string
  /\ Address.parseAddress "0000 0123 CASTRO               ST0000"
    = "123 CA ST #ROST0000"%string
  /\ Address.parseAddress "0000 1139D1139BGREEN           ST0000"
    = "1139 DBGREEN ST"%string.
Proof. repeat split; vm_compute; reflexivity. Qed.

(** ** manage-comps *)

Lemma truthyString_true (v : string) : truthyString v = true <-> v <> ""%string.
Proof. destruct v; simpl; split; congruence. Qed.

Lemma suppliedId_Some (c : CompInput.t) (i : string) :
  CompInput.id c = Some i -> i <> ""%string -> suppliedId (Some c) = Some i.
Proof.
  intros Hi Hne. unfold suppliedId. cbn. rewrite Hi.
  apply truthyString_true in Hne. rewrite Hne. reflexivity.
Qed.

Lemma suppliedId_None (comp : option CompInput.t) :
  namesNoComp comp -> suppliedId comp = None.
Proof.
  intros [->|(c & -> & Hc)]; unfold suppliedId; cbn; [|rewrite Hc];
    reflexivity.
Qed.

Lemma findComp_Some (i : string) (l : list Comp.t) (idx : nat) (c : Comp.t) :
  findComp i l = Some (idx, c) <->
  l !! idx = Some c /\ Comp.id c = i
  /\ forall j y, l !! j = Some y -> j < idx -> Comp.id y <> i.
Proof. unfold findComp. apply (list_find_Some (fun c0 => Comp.id c0 = i)). Qed.

Lemma findComp_present (i : string) (l : list Comp.t) :
  i ∈ compIds l -> exists idx c, findComp i l = Some (idx, c).
Proof.
  intros Hin. apply list_elem_of_fmap in Hin as (c & -> & Hc).
  destruct (list_find_elem_of (fun c0 => Comp.id c0 = Comp.id c) l c Hc eq_refl)
    as [[idx c'] H].
  exists idx, c'. exact H.
Qed.

Lemma findComp_absent (i : string) (l : list Comp.t) :
  i ∉ compIds l -> findComp i l = None.
Proof.
  intros Hnot. apply list_find_None, Forall_forall. intros c Hc Heq.
  apply Hnot, list_elem_of_fmap. exists c. split; [symmetry|]; assumption.
Qed.

(** Replacing the comparable found by one with the same identifier leaves
    it the first with that identifier. *)
Lemma findComp_insert (i : string) (l : list Comp.t) (idx : nat)
    (c c' : Comp.t) :
  findComp i l = Some (idx, c) -> Comp.id c' = i ->
  findComp i (<[idx := c']> l) = Some (idx, c').
Proof.
  intros Hfind Hid. apply findComp_Some in Hfind as (Hl & _ & Hfirst).
  apply findComp_Some. repeat split.
  - apply list_lookup_insert_eq. eapply lookup_lt_Some. exact Hl.
  - exact Hid.
  - intros j y Hj Hlt. rewrite list_lookup_insert_ne in Hj by lia.
    eapply Hfirst; eassumption.
Qed.

(** What toggle does to the state for an identifier the case has. *)
Lemma manage_comps_toggle (B : Builtins) (W : World) (s : AppState)
    (comp : CompInput.t) (i : string) (idx : nat) (found : Comp.t) :
  CompInput.id comp = Some i -> i <> ""%string ->
  findComp i (comps s) = Some (idx, found) ->
  manage_comps B W Action.toggle (Some comp) s
  = (let s' :=
       withComps s
         (<[idx := Comp.setIncluded (negb (Comp.included found)) found]>
            (comps s)) in
     (workspaceSummary B s', s')).
Proof.
  intros Hi Hne Hfind. unfold manage_comps, addStep, updateStep, removeStep.
  cbn [fst snd]. unfold toggleStep.
  rewrite (suppliedId_Some comp i Hi Hne), Hfind. reflexivity.
Qed.

(** C5. For an identifier present in a case whose identifiers are not
    empty, toggle succeeds and flips the [included] flag of the first
    comparable carrying the identifier: the comparable [found] at the
    place [idx] of the case has the identifier [i], and no comparable
    before it has.  Every other comparable, every other field of that
    comparable, the property and the argument are as before.  A second
    toggle of the same identifier restores the state, and with it the
    [included] flag, the mean price of the included comparables and the
    strength reported. *)
Theorem toggle_flips_included (B : Builtins) (W1 W2 : World) (s : AppState)
    (comp : CompInput.t) (i : string) :
  idsNonEmpty s ->
  i ∈ compIds (comps s) ->
  CompInput.id comp = Some i ->
  exists idx found,
    findComp i (comps s) = Some (idx, found)
    /\ comps s !! idx = Some found
    /\ Comp.id found = i
    /\ (forall j c, comps s !! j = Some c -> j < idx -> Comp.id c <> i)
    /\ (let '(r1, s1) := manage_comps B W1 Action.toggle (Some comp) s in
        isError r1 = false
        /\ property s1 = property s /\ argument s1 = argument s
        /\ length (comps s1) = length (comps s)
        /\ (forall j, j <> idx -> comps s1 !! j = comps s !! j)
        /\ comps s1 !! idx
           = Some (Comp.mk (Comp.id found) (Comp.address found)
                     (Comp.saleDate found) (Comp.salePrice found)
                     (Comp.sqft found) (Comp.beds found) (Comp.baths found)
                     (Comp.distance found) (negb (Comp.included found))
                     (Comp.notes found))
        /\ (let '(r2, s2) := manage_comps B W2 Action.toggle (Some comp) s1 in
            isError r2 = false
            /\ s2 = s
            /\ Comp.included <$> comps s2 !! idx = Some (Comp.included found)
            /\ meanSalePrice (includedComps s2)
               = meanSalePrice (includedComps s)
            /\ workspaceStrength s2 = workspaceStrength s)).
Proof.
  intros Hids Hin Hi.
  destruct (findComp_present i (comps s) Hin) as (idx & found & Hfind).
  exists idx, found. split; [exact Hfind|].
  pose proof Hfind as Hfind'.
  apply findComp_Some in Hfind' as (Hl & Hid & Hfirst).
  split; [exact Hl|]. split; [exact Hid|]. split; [exact Hfirst|].
  assert (Hne : i <> ""%string).
  { unfold idsNonEmpty in Hids. rewrite Forall_forall in Hids. subst i.
    apply Hids. eapply list_elem_of_lookup_2. exact Hl. }
  rewrite (manage_comps_toggle B W1 s comp i idx found Hi Hne Hfind).
  cbv beta iota zeta.
  set (found' := Comp.setIncluded (negb (Comp.included found)) found).
  set (s1 := withComps s (<[idx := found']> (comps s))).
  assert (Hfind2 : findComp i (comps s1) = Some (idx, found'))
    by (apply (findComp_insert i (comps s) idx found); [exact Hfind|exact Hid]).
  rewrite (manage_comps_toggle B W2 s1 comp i idx found' Hi Hne Hfind2).
  cbv beta iota zeta.
  assert (Hback :
    withComps s1
      (<[idx := Comp.setIncluded (negb (Comp.included found')) found']>
         (comps s1)) = s).
  { unfold s1, withComps. cbn [property comps argument].
    rewrite list_insert_insert_eq.
    replace (Comp.setIncluded (negb (Comp.included found')) found')
      with found by (destruct found as [? ? ? ? ? ? ? ? [] ?]; reflexivity).
    rewrite list_insert_id by exact Hl. destruct s. reflexivity. }
  rewrite Hback. unfold s1, withComps. cbn [property comps argument].
  split; [reflexivity|]. split; [reflexivity|]. split; [reflexivity|].
  split; [apply length_insert|].
  split; [intros j Hj; apply list_lookup_insert_ne; congruence|].
  split; [apply list_lookup_insert_eq; eapply lookup_lt_Some; exact Hl|].
  split; [reflexivity|]. split; [reflexivity|].
  split; [rewrite Hl; reflexivity|]. split; reflexivity.
Qed.

Lemma toggle_flips_included_witness :
  exists idx found,
    comps Example.case !! idx = Some found
    /\ Comp.id found = "comp-0595142"%string
    /\ comps
         (snd (manage_comps Sample.builtins (Sample.world 1739620800000 [])
                 Action.toggle (Some (onlyId "comp-0595142")) Example.case))
         !! idx
       = Some (Comp.setIncluded (negb (Comp.included found)) found).
Proof.
  destruct (toggle_flips_included Sample.builtins
              (Sample.world 1739620800000 []) (Sample.world 1739620860000 [])
              Example.case (onlyId "comp-0595142") "comp-0595142")
    as (idx & found & _ & Hl & Hid & _ & H).
  - repeat constructor; discriminate.
  - vm_compute. right. right. left.
  - reflexivity.
  - exists idx, found. split; [exact Hl|]. split; [exact Hid|].
    destruct (manage_comps _ _ _ _ _) as [r1 s1].
    destruct H as (_ & _ & _ & _ & _ & H & _). cbn [snd]. rewrite H.
    destruct found. reflexivity.
Defined.

(** *** The identifiers of the case are never empty *)

Lemma idsNonEmpty_initial : idsNonEmpty initialState.
Proof. constructor. Qed.

Lemma idsNonEmpty_manage_comps (B : Builtins) (W : World) (action : Action.t)
    (comp : option CompInput.t) (s : AppState) :
  idsNonEmpty s -> idsNonEmpty (snd (manage_comps B W action comp s)).
Proof.
  unfold idsNonEmpty. intros H.
  destruct action; unfold manage_comps, addStep, updateStep, removeStep,
    toggleStep; cbn [snd].
  - destruct comp as [c|]; [|exact H].
    destruct (CompInput.address c) as [a|]; [|exact H].
    destruct (CompInput.salePrice c) as [p|]; [|exact H].
    destruct (CompInput.saleDate c) as [d|]; [|exact H].
    destruct (truthyString a && truthyNumber p && truthyString d); [|exact H].
    cbn. apply Forall_app. split; [exact H|]. repeat constructor. discriminate.
  - destruct comp as [c|]; [|exact H].
    destruct (suppliedId (Some c)) as [i|] eqn:Hi; [|exact H].
    destruct (findComp i (comps s)) as [[idx old]|] eqn:Hf; [|exact H].
    cbn. apply Forall_insert; [exact H|]. cbn.
    unfold suppliedId in Hi. cbn in Hi.
    destruct (CompInput.id c) as [i'|]; [|discriminate]. cbn.
    destruct (truthyString i') eqn:Ht; [|discriminate].
    apply truthyString_true. exact Ht.
  - destruct (suppliedId comp) as [i|]; [|exact H].
    destruct (findComp i (comps s)) as [[idx old]|]; [|exact H].
    cbn. apply Forall_delete. exact H.
  - destruct (suppliedId comp) as [i|]; [|exact H].
    destruct (findComp i (comps s)) as [[idx found]|] eqn:Hf; [|exact H].
    cbn. apply Forall_insert; [exact H|]. cbn.
    apply findComp_Some in Hf as (Hl & _ & _).
    rewrite Forall_forall in H. apply H. eapply list_elem_of_lookup_2. exact Hl.
  - exact H.
Qed.

Lemma idsNonEmpty_find_comps (B : Builtins) (W : World)
    (radius monthsBack limit : float) (s : AppState) :
  idsNonEmpty s -> idsNonEmpty (snd (find_comps B W radius monthsBack limit s)).
Proof.
  unfold idsNonEmpty. intros H. rewrite find_comps_state.
  cbn [withComps comps]. rewrite mergeComps_app. apply Forall_app.
  split; [exact H|]. apply Forall_forall. intros c Hc.
  apply list_elem_of_In, List.filter_In in Hc as [Hc _].
  unfold newCompsOf in Hc. apply list_elem_of_In, list_elem_of_fmap in Hc
    as (rec & -> & _).
  unfold recordToComp, compIdOf. cbn. discriminate.
Qed.

Lemma idsNonEmpty_generate_argument (B : Builtins) (tone : Tone)
    (declaredMarketValue : option float) (s : AppState) :
  idsNonEmpty s ->
  idsNonEmpty (snd (generate_argument B tone declaredMarketValue s)).
Proof.
  unfold idsNonEmpty, generate_argument. intros H.
  destruct (property s); [|exact H].
  destruct (length (includedComps s) =? 0)%nat; exact H.
Qed.

Lemma idsNonEmpty_packet (B : Builtins) (W : World) (s : AppState) :
  snd (generate_packet B W s) = s /\ snd (export_packet B W s) = s.
Proof.
  unfold generate_packet, export_packet.
  destruct (property s); [|split; reflexivity].
  destruct (length (includedComps s) =? 0)%nat; [split; reflexivity|].
  destruct (argument s); split; reflexivity.
Qed.

(** *** add *)

Lemma lackingText_iff (field : option string) :
  lackingText field <-> truthyOpt truthyString field = false.
Proof.
  unfold lackingText. destruct field as [[|a v]|]; cbn; split;
    try reflexivity; try (intros [H|H]; discriminate H); try discriminate;
    auto.
Qed.

Lemma lackingNumber_iff (field : option float) :
  lackingNumber field <-> truthyOpt truthyNumber field = false.
Proof.
  unfold lackingNumber, truthyNumber. destruct field as [v|]; cbn.
  - rewrite Bool.negb_false_iff. split.
    + intros [H|(v' & [= <-] & H)]; [discriminate|exact H].
    + intros H. right. exists v. split; [reflexivity|exact H].
  - split; auto.
Qed.

Lemma addRejected_iff (comp : option CompInput.t) :
  addRejected comp <->
  match comp with
  | None => True
  | Some c =>
      truthyOpt truthyString (CompInput.address c)
      && truthyOpt truthyNumber (CompInput.salePrice c)
      && truthyOpt truthyString (CompInput.saleDate c) = false
  end.
Proof.
  unfold addRejected. destruct comp as [c|]; [|split; auto].
  rewrite !Bool.andb_false_iff, <- !lackingText_iff, <- lackingNumber_iff.
  split.
  - intros [H|(c' & [= <-] & H)]; [discriminate|]. tauto.
  - intros H. right. exists c. split; [reflexivity|]. tauto.
Qed.

(** C8 (amended). add fails, with the one message and the state
    unchanged, exactly when the [comp] argument is left out or its address
    is left out or empty, or its sale price is left out, zero or NaN, or
    its sale date is left out or empty.  Otherwise it succeeds and appends
    exactly one comparable, named after the clock, with the address, sale
    date and sale price supplied, [included] true, the numeric fields left
    out zero and the notes left out empty; the property and the argument
    are unchanged. *)
Theorem add_comp (B : Builtins) (W : World) (comp : option CompInput.t)
    (s : AppState) :
  let '(r, s') := manage_comps B W Action.add comp s in
  (isError r = true <-> addRejected comp)
  /\ (isError r = true -> r = error addErrorMessage /\ s' = s)
  /\ (isError r = false ->
      exists c address saleDate salePrice,
        comp = Some c
        /\ CompInput.address c = Some address
        /\ CompInput.saleDate c = Some saleDate
        /\ CompInput.salePrice c = Some salePrice
        /\ comps s'
           = comps s ++
             [Comp.mk ("comp-" +:+ Number_toString B (Date_now W))%string
                address saleDate salePrice
                (default 0%float (CompInput.sqft c))
                (default 0%float (CompInput.beds c))
                (default 0%float (CompInput.baths c))
                (default 0%float (CompInput.distance c))
                true
                (default ""%string (CompInput.notes c))]
        /\ property s' = property s /\ argument s' = argument s).
Proof.
  destruct (manage_comps B W Action.add comp s) as [r s'] eqn:E.
  rewrite addRejected_iff. unfold manage_comps, addStep in E.
  destruct comp as [[i a d p sq be ba di no]|]; cbn in E |- *.
  2:{ injection E as <- <-. repeat split; auto; discriminate. }
  destruct a as [a|]; [destruct p as [p|]; [destruct d as [d|]|]|];
    cbn in E |- *;
    try (injection E as <- <-; rewrite ?Bool.andb_false_r;
         repeat split; auto; discriminate).
  destruct (truthyString a); destruct (truthyNumber p);
    destruct (truthyString d); cbn in E |- *; injection E as <- <-;
    try (repeat split; auto; discriminate).
  repeat split; try discriminate.
  intros _. eexists _, a, d, p. repeat split.
Qed.

(** C8, as stated, fails on a sale price of zero: address, sale date and
    sale price are all supplied, and add fails. *)
Lemma add_comp_counterexample :
  let comp :=
    CompInput.mk None (Some "990 GREEN ST"%string) (Some "2024-06-30"%string)
      (Some 0%float) None None None None None in
  CompInput.address comp <> None
  /\ CompInput.saleDate comp <> None
  /\ CompInput.salePrice comp <> None
  /\ manage_comps Sample.builtins (Sample.world 1739620800000 []) Action.add
       (Some comp) Example.case
     = (error addErrorMessage, Example.case).
Proof. repeat split; try discriminate. Qed.

(** *** remove *)

(** C9 (amended). remove on an identifier that is not empty and not in
    the case fails with the not-found message and returns the state it was
    given: property, comparables and argument are unchanged. *)
Theorem remove_absent (B : Builtins) (W : World) (comp : CompInput.t)
    (i : string) (s : AppState) :
  CompInput.id comp = Some i ->
  i <> ""%string ->
  i ∉ compIds (comps s) ->
  manage_comps B W Action.remove (Some comp) s
  = (error ("Comp not found: " +:+ i), s).
Proof.
  intros Hi Hne Habsent.
  unfold manage_comps, addStep, updateStep, removeStep. cbn [fst snd].
  rewrite (suppliedId_Some comp i Hi Hne), (findComp_absent i _ Habsent).
  reflexivity.
Qed.

Lemma remove_absent_witness :
  manage_comps Sample.builtins (Sample.world 1739620800000 []) Action.remove
    (Some (onlyId "comp-0000000")) Example.case
  = (error "Comp not found: comp-0000000", Example.case).
Proof.
  apply (remove_absent Sample.builtins (Sample.world 1739620800000 [])
           (onlyId "comp-0000000") "comp-0000000" Example.case).
  - reflexivity.
  - discriminate.
  - vm_compute. intros H. repeat (apply elem_of_cons in H as [H|H];
      [discriminate H|]). inversion H.
Defined.

(** C9, as stated, fails on the empty identifier: it is in no case, and
    remove does not fail on it; it answers with the summary of the case. *)
Lemma remove_absent_counterexample :
  let W := Sample.world 1739620800000 [] in
  (""%string ∉ compIds (comps Example.case))
  /\ manage_comps Sample.builtins W Action.remove (Some (onlyId ""))
       Example.case
     = (workspaceSummary Sample.builtins Example.case, Example.case)
  /\ isError
       (fst (manage_comps Sample.builtins W Action.remove (Some (onlyId ""))
               Example.case)) = false.
Proof.
  repeat split; try reflexivity.
  vm_compute. intros H. repeat (apply elem_of_cons in H as [H|H];
    [discriminate H|]). inversion H.
Qed.

(** *** No identifier *)

(** C10. list, and update, remove or toggle with no [comp] argument or no
    [id] in it, do not fail: the answer is the summary of the case, with
    its counts and the strength recomputed, and the state is the one
    given. *)
Theorem no_identifier_no_error (B : Builtins) (W : World) (action : Action.t)
    (comp : option CompInput.t) (s : AppState) :
  action = Action.list
  \/ ((action = Action.update \/ action = Action.remove
       \/ action = Action.toggle) /\ namesNoComp comp) ->
  manage_comps B W action comp s = (workspaceSummary B s, s)
  /\ isError (fst (manage_comps B W action comp s)) = false
  /\ workspaceSummary B s
     = widgetCompWorkspace
         (mkCompWorkspace (property s) (comps s) (workspaceStrength s))
         (text
            (Number_toString B (lengthNumber (comps s)) +:+ " comps total, "
               +:+ Number_toString B (lengthNumber (includedComps s))
               +:+ " included. Case strength: "
               +:+ Strength_toString (workspaceStrength s) +:+ ".")).
Proof.
  intros H.
  assert (Heq : manage_comps B W action comp s = (workspaceSummary B s, s)).
  { unfold manage_comps, addStep, updateStep, removeStep, toggleStep.
    destruct H as [->|[Hact Hno]]; [reflexivity|].
    pose proof (suppliedId_None comp Hno) as Hid.
    destruct Hact as [->|[->| ->]]; destruct comp as [c|];
      rewrite ?Hid; reflexivity. }
  rewrite Heq. repeat split; reflexivity.
Qed.

Lemma no_identifier_no_error_witness :
  manage_comps Sample.builtins (Sample.world 1739620800000 []) Action.toggle
    None Example.case
  = (workspaceSummary Sample.builtins Example.case, Example.case).
Proof.
  apply (no_identifier_no_error Sample.builtins
           (Sample.world 1739620800000 []) Action.toggle None Example.case).
  right. split; [right; right; reflexivity|left; reflexivity].
Defined.

(** ** Binary64: exact arithmetic on integers and halves

    The sum, the difference and the quotient of two numbers [v * 2^k] of
    at most 53 bits are exact when the result has at most 53 bits, and
    [Math.round] of an integer or of a number half way between two
    integers follows from them, with the one inexact sum of its
    definition (a number half way, added to 2^52). *)

Section Exact.

Local Open Scope Z_scope.

Lemma bitLength_pos (v : positive) : 1 <= bitLength v.
Proof. unfold bitLength. lia. Qed.

Lemma bitLength_unique (p : positive) (d : Z) :
  2 ^ (d - 1) <= Zpos p < 2 ^ d -> bitLength p = d.
Proof.
  intros [Hlo Hhi]. pose proof (digits2_pos_bounds p) as [Blo Bhi].
  unfold bitLength. set (dp := Zpos (digits2_pos p)) in *.
  assert (Hd : 0 < d).
  { destruct (Z.lt_trichotomy d 0) as [H|[H|H]]; [|subst d; simpl in *; lia|lia].
    rewrite Z.pow_neg_r in Hhi by lia. lia. }
  destruct (Z.lt_trichotomy dp d) as [H|[H|H]]; [|assumption|]; exfalso.
  - assert (2 ^ dp <= 2 ^ (d - 1)) by (apply Z.pow_le_mono_r; lia). lia.
  - assert (2 ^ d <= 2 ^ (dp - 1)) by (apply Z.pow_le_mono_r; lia). lia.
Qed.

Lemma bitLength_shift (p q : positive) (n : Z) :
  0 <= n -> Zpos q = Zpos p * 2 ^ n -> bitLength q = bitLength p + n.
Proof.
  intros Hn Hq. apply bitLength_unique.
  pose proof (digits2_pos_bounds p) as [Blo Bhi]. fold (bitLength p) in *.
  pose proof (bitLength_pos p).
  replace (bitLength p + n - 1) with ((bitLength p - 1) + n) by lia.
  rewrite !Z.pow_add_r by lia. rewrite Hq.
  assert (0 < 2 ^ n) by (apply Z.pow_pos_nonneg; lia). nia.
Qed.

Lemma bitLength_mono (a b : positive) : (a <= b)%positive -> bitLength a <= bitLength b.
Proof.
  intros Hab. pose proof (digits2_pos_bounds a) as [Alo Ahi].
  pose proof (digits2_pos_bounds b) as [Blo Bhi]. fold (bitLength a) (bitLength b) in *.
  destruct (Z.le_gt_cases (bitLength a) (bitLength b)) as [|H]; [assumption|exfalso].
  assert (2 ^ bitLength b <= 2 ^ (bitLength a - 1))
    by (apply Z.pow_le_mono_r; pose proof (bitLength_pos b); lia).
  lia.
Qed.

Lemma iter_pos_nat {A} (f : A -> A) (n : positive) (x : A) :
  SpecFloat.iter_pos f n x = Nat.iter (Pos.to_nat n) f x.
Proof.
  revert x. induction n as [n IH|n IH|]; intros x; cbn [SpecFloat.iter_pos].
  - rewrite !IH, Pos2Nat.inj_xI, <- Nat.iter_add, <- Nat.iter_succ_r.
    f_equal. lia.
  - rewrite !IH, Pos2Nat.inj_xO, <- Nat.iter_add. f_equal. lia.
  - reflexivity.
Qed.

Lemma iter_xO_value (j : nat) (m : positive) :
  Zpos (Nat.iter j xO m) = Zpos m * 2 ^ Z.of_nat j.
Proof.
  induction j as [|j IH]; [simpl; lia|].
  rewrite Nat2Z.inj_succ, Z.pow_succ_r by lia. rewrite Nat.iter_succ.
  rewrite Pos2Z.inj_xO, IH. lia.
Qed.

Lemma shr_iter_exact (j : nat) (m : positive) :
  Nat.iter j shr_1
    {| shr_m := Zpos (Nat.iter j xO m); shr_r := false; shr_s := false |}
  = {| shr_m := Zpos m; shr_r := false; shr_s := false |}.
Proof.
  induction j as [|j IH]; [reflexivity|].
  rewrite Nat.iter_succ_r, Nat.iter_succ. cbn [shr_1 orb]. exact IH.
Qed.

Lemma shr_exact (M m0 : positive) (e n : Z) :
  0 <= n -> Zpos M = Zpos m0 * 2 ^ n ->
  shr {| shr_m := Zpos M; shr_r := false; shr_s := false |} e n
  = ({| shr_m := Zpos m0; shr_r := false; shr_s := false |}, e + n).
Proof.
  intros Hn HM. unfold shr. destruct n as [|p|p]; [| |lia].
  - simpl in HM. assert (M = m0) by lia. subst. f_equal. lia.
  - rewrite iter_pos_nat.
    assert (M = Nat.iter (Pos.to_nat p) xO m0) as ->.
    { apply Pos2Z.inj. rewrite iter_xO_value, positive_nat_Z. exact HM. }
    rewrite shr_iter_exact. reflexivity.
Qed.

Lemma binary_round_aux_exact (s : bool) (M m0 : positive) (e e0 : Z) :
  e <= e0 -> Zpos M = Zpos m0 * 2 ^ (e0 - e) ->
  bitLength m0 = 53 -> -1074 <= e0 <= 971 ->
  binary_round_aux prec emax s (Zpos M) e loc_Exact = S754_finite s m0 e0.
Proof.
  intros He HM Hd Hr. unfold binary_round_aux, shr_fexp.
  cbn [Zdigits2 shr_record_of_loc].
  assert (HdM : bitLength M = 53 + (e0 - e))
    by (rewrite (bitLength_shift m0 M (e0 - e)); lia).
  unfold bitLength in HdM, Hd. rewrite HdM.
  assert (Hf : fexp prec emax (53 + (e0 - e) + e) - e = e0 - e).
  { unfold fexp, emin, prec, emax. lia. }
  rewrite Hf, (shr_exact M m0 e (e0 - e)) by (lia || assumption).
  cbn [shr_m loc_of_shr_record round_nearest_even Zdigits2 shr_record_of_loc].
  rewrite Hd.
  assert (Hf2 : fexp prec emax (53 + (e + (e0 - e))) - (e + (e0 - e)) = 0).
  { unfold fexp, emin, prec, emax. lia. }
  rewrite Hf2. cbn [shr shr_m].
  replace (e + (e0 - e)) with e0 by lia.
  assert (Hle : (e0 <=? emax - prec) = true)
    by (apply Z.leb_le; unfold emax, prec; lia).
  rewrite Hle. reflexivity.
Qed.

Lemma dyadic_mantissa (v : positive) :
  bitLength v <= 53 ->
  Zpos (Z.to_pos (Zpos v * 2 ^ (53 - bitLength v))) = Zpos v * 2 ^ (53 - bitLength v).
Proof.
  intros Hd. apply Z2Pos.id.
  assert (0 < 2 ^ (53 - bitLength v)) by (apply Z.pow_pos_nonneg; lia). nia.
Qed.

Lemma dyadic_bitLength (v : positive) :
  bitLength v <= 53 -> bitLength (Z.to_pos (Zpos v * 2 ^ (53 - bitLength v))) = 53.
Proof.
  intros Hd. rewrite (bitLength_shift v _ (53 - bitLength v)); [lia|lia|].
  apply dyadic_mantissa, Hd.
Qed.

Lemma binary_round_dyadic (s : bool) (m v : positive) (e k : Z) :
  e <= k -> Zpos m = Zpos v * 2 ^ (k - e) ->
  bitLength v <= 53 -> -1022 <= k <= 971 ->
  binary_round prec emax s m e = dyadic s v k.
Proof.
  intros He Hm Hd Hk. unfold binary_round, dyadic.
  pose proof (bitLength_pos v) as Hv.
  pose proof (dyadic_mantissa v Hd) as Hm0.
  pose proof (dyadic_bitLength v Hd) as Hd0.
  set (m0 := Z.to_pos (Zpos v * 2 ^ (53 - bitLength v))) in *.
  set (e0 := k + bitLength v - 53).
  assert (Hdm : Zpos (digits2_pos m) = bitLength v + (k - e))
    by (apply (bitLength_shift v m); [lia|exact Hm]).
  rewrite Hdm.
  assert (Hf : fexp prec emax (bitLength v + (k - e) + e) = e0).
  { unfold fexp, emin, prec, emax, e0. lia. }
  rewrite Hf. unfold shl_align.
  destruct (e0 - e) as [|p|p] eqn:Hp.
  - apply binary_round_aux_exact; try lia.
    rewrite Hm, Hm0. replace (e0 - e) with 0 by lia.
    replace (k - e) with (53 - bitLength v) by (unfold e0 in Hp; lia). lia.
  - apply binary_round_aux_exact; try lia.
    rewrite Hm, Hm0, <- Z.mul_assoc, <- Z.pow_add_r by (unfold e0; lia).
    f_equal. f_equal. unfold e0. lia.
  - replace (Pos.iter xO m p) with m0.
    + replace (S754_finite s m0 e0)
        with (S754_finite s m0 e0) by reflexivity.
      apply binary_round_aux_exact; try lia. rewrite Z.sub_diag. simpl. lia.
    + apply Pos2Z.inj. change (Pos.iter xO m p) with (shift_pos p m).
      rewrite shift_pos_correct, Z.pow_pos_fold, Hm0, Hm.
      replace (53 - bitLength v) with ((k - e) + Zpos p) by (unfold e0 in Hp; lia).
      rewrite Z.pow_add_r by lia. lia.
Qed.

Lemma dyadic_aligned (v : positive) (k ez : Z) :
  bitLength v <= 53 -> ez <= k + bitLength v - 53 ->
  Zpos (fst (shl_align (Z.to_pos (Zpos v * 2 ^ (53 - bitLength v)))
               (k + bitLength v - 53) ez))
  = Zpos v * 2 ^ (k - ez).
Proof.
  intros Hd He. pose proof (bitLength_pos v).
  rewrite shl_align_value by lia. rewrite dyadic_mantissa by exact Hd.
  rewrite <- Z.mul_assoc, <- Z.pow_add_r by lia. f_equal. f_equal. lia.
Qed.

Lemma add_dyadic (a b : positive) (k : Z) :
  bitLength (a + b) <= 53 -> -1022 <= k <= 971 ->
  SF64add (dyadic false a k) (dyadic false b k) = dyadic false (a + b) k.
Proof.
  intros Hd Hk.
  assert (Ha : bitLength a <= 53)
    by (pose proof (bitLength_mono a (a + b)%positive); lia).
  assert (Hb : bitLength b <= 53)
    by (pose proof (bitLength_mono b (a + b)%positive); lia).
  pose proof (bitLength_pos a). pose proof (bitLength_pos b).
  unfold SF64add, SFadd, dyadic. cbn [cond_Zopp].
  set (ez := Z.min (k + bitLength a - 53) (k + bitLength b - 53)).
  rewrite !dyadic_aligned by (assumption || unfold ez; lia).
  rewrite <- Z.mul_add_distr_r.
  assert (Hpos : 0 < 2 ^ (k - ez)) by (apply Z.pow_pos_nonneg; unfold ez; lia).
  destruct ((Zpos a + Zpos b) * 2 ^ (k - ez)) as [|m|m] eqn:Hm; try lia.
  cbn [binary_normalize].
  apply binary_round_dyadic; try assumption; [unfold ez; lia|].
  rewrite <- Hm, Pos2Z.inj_add. reflexivity.
Qed.

Lemma sub_dyadic (a b c : positive) (k : Z) :
  bitLength a <= 53 -> (a = b + c)%positive -> -1022 <= k <= 971 ->
  SF64sub (dyadic false a k) (dyadic false b k) = dyadic false c k.
Proof.
  intros Ha Habc Hk.
  assert (Hb : bitLength b <= 53)
    by (pose proof (bitLength_mono b a); lia).
  assert (Hc : bitLength c <= 53)
    by (pose proof (bitLength_mono c a); lia).
  pose proof (bitLength_pos a). pose proof (bitLength_pos b).
  unfold SF64sub, SFsub, dyadic. cbn [cond_Zopp].
  set (ez := Z.min (k + bitLength a - 53) (k + bitLength b - 53)).
  rewrite !dyadic_aligned by (assumption || unfold ez; lia).
  rewrite <- Z.mul_sub_distr_r.
  assert (Hpos : 0 < 2 ^ (k - ez)) by (apply Z.pow_pos_nonneg; unfold ez; lia).
  assert (Hdiff : Zpos a - Zpos b = Zpos c) by lia.
  rewrite Hdiff.
  destruct (Zpos c * 2 ^ (k - ez)) as [|m|m] eqn:Hm; try lia.
  cbn [binary_normalize].
  apply binary_round_dyadic; try assumption; [unfold ez; lia|].
  rewrite <- Hm. reflexivity.
Qed.

Lemma compare_dyadic (a b : positive) (k : Z) :
  bitLength a <= 53 -> bitLength b <= 53 ->
  SFcompare (dyadic false a k) (dyadic false b k) = Some (Pos.compare a b).
Proof.
  intros Ha Hb. unfold SFcompare, dyadic. f_equal.
  pose proof (digits2_pos_bounds a) as [Alo Ahi].
  pose proof (digits2_pos_bounds b) as [Blo Bhi].
  fold (bitLength a) (bitLength b) in *.
  pose proof (bitLength_pos a). pose proof (bitLength_pos b).
  change (Pos.compare_cont Eq ?x ?y) with (Pos.compare x y).
  destruct (Z.compare_spec (k + bitLength a - 53) (k + bitLength b - 53))
    as [Heq|Hlt|Hgt].
  - assert (Hd : bitLength a = bitLength b) by lia.
    pose proof (dyadic_mantissa a Ha) as Hma.
    pose proof (dyadic_mantissa b Hb) as Hmb.
    rewrite Hd in Hma.
    assert (Hp : 0 < 2 ^ (53 - bitLength b)) by (apply Z.pow_pos_nonneg; lia).
    rewrite Hd.
    destruct (Pos.compare_spec a b) as [Hab|Hab|Hab].
    + subst b. apply Pos.compare_refl.
    + apply Pos.compare_lt_iff. assert (Zpos a < Zpos b) by lia.
      change (Zpos (Z.to_pos (Zpos a * 2 ^ (53 - bitLength b)))
              < Zpos (Z.to_pos (Zpos b * 2 ^ (53 - bitLength b)))).
      rewrite Hma, Hmb. nia.
    + apply Pos.compare_gt_iff. assert (Zpos b < Zpos a) by lia.
      change (Zpos (Z.to_pos (Zpos b * 2 ^ (53 - bitLength b)))
              < Zpos (Z.to_pos (Zpos a * 2 ^ (53 - bitLength b)))).
      rewrite Hma, Hmb. nia.
  - symmetry. apply Pos.compare_lt_iff.
    assert (2 ^ bitLength a <= 2 ^ (bitLength b - 1))
      by (apply Z.pow_le_mono_r; lia).
    lia.
  - symmetry. apply Pos.compare_gt_iff.
    assert (2 ^ bitLength b <= 2 ^ (bitLength a - 1))
      by (apply Z.pow_le_mono_r; lia).
    lia.
Qed.

Lemma of_uint63_dyadic (a : positive) :
  bitLength a <= 53 ->
  Prim2SF (of_uint63 (Uint63.of_Z (Zpos a))) = dyadic false a 0.
Proof.
  intros Ha. rewrite of_uint63_spec.
  pose proof (digits2_pos_bounds a) as [_ Ahi]. fold (bitLength a) in Ahi.
  assert (Zpos a < 2 ^ 53).
  { apply Z.lt_le_trans with (2 ^ bitLength a); [assumption|].
    apply Z.pow_le_mono_r; lia. }
  rewrite Uint63.of_Z_spec, Z.mod_small by (change wB with (2 ^ 63); lia).
  cbn [binary_normalize]. apply binary_round_dyadic; try lia.
Qed.

Lemma dyadic_double (s : bool) (v : positive) (k : Z) :
  bitLength v < 53 -> dyadic s (v~0) k = dyadic s v (k + 1).
Proof.
  intros Hd. unfold dyadic.
  assert (Hx : bitLength v~0 = bitLength v + 1).
  { unfold bitLength. cbn [digits2_pos]. lia. }
  rewrite Hx. f_equal; [|lia]. f_equal.
  pose proof (bitLength_pos v).
  replace (53 - bitLength v) with (Z.succ (53 - (bitLength v + 1))) by lia.
  rewrite Z.pow_succ_r by lia. rewrite Pos2Z.inj_xO. lia.
Qed.

(** The two integers next to a number half way; the even one. *)
Lemma evenOf_bitLength (k : positive) :
  Zpos k < 2251799813685248 ->
  bitLength (4503599627370496 + k) = 53
  /\ bitLength (evenOf (4503599627370496 + k)) = 53.
Proof.
  intros Hk.
  assert (Hq : Zpos (4503599627370496 + k) = 4503599627370496 + Zpos k)
    by apply Pos2Z.inj_add.
  assert (He : Zpos (evenOf (4503599627370496 + k))
               = Zpos (4503599627370496 + k)
               \/ Zpos (evenOf (4503599627370496 + k))
                  = Zpos (4503599627370496 + k) + 1).
  { unfold evenOf. destruct (Z.even _); [left; reflexivity|].
    right. apply Pos2Z.inj_succ. }
  generalize dependent (evenOf (4503599627370496 + k)).
  generalize dependent (4503599627370496 + k)%positive.
  intros q Hq r Hr.
  split; apply bitLength_unique;
    change (2 ^ (53 - 1)) with 4503599627370496;
    change (2 ^ 53) with 9007199254740992; lia.
Qed.

Lemma binary_round_tie (q : positive) (j : nat) :
  bitLength q = 53 -> bitLength (evenOf q) = 53 ->
  binary_round prec emax false (Nat.iter j xO (xI q)) (-1 - Z.of_nat j)
  = S754_finite false (evenOf q) 0.
Proof.
  intros Hq Hr. unfold binary_round.
  remember (Nat.iter j xO (xI q)) as M eqn:HM.
  assert (HdM : Zpos (digits2_pos M) = 54 + Z.of_nat j).
  { change (bitLength M = 54 + Z.of_nat j).
    rewrite (bitLength_shift (xI q) M (Z.of_nat j)); [|lia|].
    - unfold bitLength in *. cbn [digits2_pos]. lia.
    - rewrite HM. apply iter_xO_value. }
  rewrite HdM.
  assert (Hf : fexp prec emax (54 + Z.of_nat j + (-1 - Z.of_nat j)) = 0)
    by (unfold fexp, emin, prec, emax; lia).
  rewrite Hf. unfold shl_align.
  remember (-1 - Z.of_nat j) as ex eqn:Hex.
  destruct (0 - ex) as [|p|p] eqn:Hp; try lia.
  unfold binary_round_aux, shr_fexp. cbn [Zdigits2 shr_record_of_loc].
  rewrite HdM.
  replace (54 + Z.of_nat j + ex) with 53 by lia.
  change (fexp prec emax 53) with 0. rewrite Hp. unfold shr.
  rewrite iter_pos_nat.
  assert (Hn : Pos.to_nat p = S j) by lia.
  rewrite Hn, Nat.iter_succ, HM, shr_iter_exact.
  cbn [shr_1 orb shr_m loc_of_shr_record round_nearest_even].
  assert (Hres : (if IntDef.Z.even (Zpos q) then Zpos q else Zpos q + 1)
                 = Zpos (evenOf q)).
  { unfold evenOf. change IntDef.Z.even with Z.even.
    destruct (Z.even (Zpos q)); [reflexivity|].
    rewrite Pos2Z.inj_succ. reflexivity. }
  rewrite Hres. cbn [Zdigits2]. unfold bitLength in Hr. rewrite Hr.
  replace (ex + Zpos p) with 0 by lia.
  change (fexp prec emax (53 + 0) - 0) with 0. cbn [shr_m].
  reflexivity.
Qed.

(** Adding 2^52 to a number half way between two integers rounds the sum
    to the even one of its two neighbours. *)
Lemma add_two52_tie (k : positive) :
  bitLength k~1 <= 52 ->
  SF64add (dyadic false k~1 (-1)) (S754_finite false 4503599627370496 0)
  = S754_finite false (evenOf (4503599627370496 + k)) 0.
Proof.
  intros Hd. pose proof (bitLength_pos k~1) as Hd1.
  assert (Hk : Zpos k < 2251799813685248).
  { pose proof (digits2_pos_bounds k~1) as [_ Hhi]. fold (bitLength k~1) in Hhi.
    assert (2 ^ bitLength k~1 <= 2 ^ 52) by (apply Z.pow_le_mono_r; lia).
    change (2 ^ 52) with (2 * 2251799813685248) in *. lia. }
  destruct (evenOf_bitLength k Hk) as [Hq Hr].
  unfold SF64add, SFadd, dyadic. cbn [cond_Zopp].
  assert (Hmin : Z.min (-1 + bitLength k~1 - 53) 0 = -1 + bitLength k~1 - 53) by lia.
  rewrite Hmin.
  rewrite (dyadic_aligned k~1 (-1) (-1 + bitLength k~1 - 53)) by lia.
  rewrite shl_align_value by lia.
  remember (Z.to_nat (53 - bitLength k~1)) as j eqn:Hj.
  assert (Hex : -1 + bitLength k~1 - 53 = -1 - Z.of_nat j) by lia.
  rewrite Hex.
  replace (-1 - (-1 - Z.of_nat j)) with (Z.of_nat j) by lia.
  replace (0 - (-1 - Z.of_nat j)) with (1 + Z.of_nat j) by lia.
  rewrite Z.pow_add_r by lia. change (2 ^ 1) with 2.
  assert (Hsum : Zpos k~1 * 2 ^ Z.of_nat j
                 + 4503599627370496 * (2 * 2 ^ Z.of_nat j)
                 = Zpos (Nat.iter j xO (xI (4503599627370496 + k)))).
  { rewrite iter_xO_value. rewrite !Pos2Z.inj_xI, Pos2Z.inj_add. lia. }
  rewrite Hsum. cbn [binary_normalize].
  apply binary_round_tie; assumption.
Qed.

Lemma dyadic_full (s : bool) (v : positive) (k : Z) :
  bitLength v = 53 -> dyadic s v k = S754_finite s v k.
Proof.
  intros Hd. unfold dyadic. rewrite Hd. f_equal; [|lia].
  change (2 ^ (53 - 53)) with 1. rewrite Z.mul_1_r. reflexivity.
Qed.

Lemma isDyadic_add (x y : float) (a b : positive) (k : Z) :
  isDyadic x a k -> isDyadic y b k ->
  bitLength (a + b) <= 53 -> -1022 <= k <= 971 ->
  isDyadic (x + y) (a + b) k.
Proof.
  unfold isDyadic. intros Hx Hy Hd Hk.
  rewrite add_spec, Hx, Hy. apply add_dyadic; assumption.
Qed.

Lemma isDyadic_sub (x y : float) (a b c : positive) (k : Z) :
  isDyadic x a k -> isDyadic y b k ->
  bitLength a <= 53 -> (a = b + c)%positive -> -1022 <= k <= 971 ->
  isDyadic (x - y) c k.
Proof.
  unfold isDyadic. intros Hx Hy Hd Habc Hk.
  rewrite sub_spec, Hx, Hy. apply (sub_dyadic a b c); assumption.
Qed.

Lemma isDyadic_compare (x y : float) (a b : positive) (k : Z) :
  isDyadic x a k -> isDyadic y b k -> bitLength a <= 53 -> bitLength b <= 53 ->
  (x =? y)%float = (a =? b)%positive
  /\ (x <? y)%float = (a <? b)%positive
  /\ (x <=? y)%float = (a <=? b)%positive.
Proof.
  unfold isDyadic. intros Hx Hy Ha Hb.
  rewrite FloatAxioms.eqb_spec, FloatAxioms.ltb_spec, FloatAxioms.leb_spec, Hx, Hy.
  unfold SFeqb, SFltb, SFleb. rewrite (compare_dyadic a b k Ha Hb).
  unfold Pos.ltb, Pos.leb. rewrite Pos.eqb_compare.
  destruct (a ?= b)%positive; repeat split.
Qed.

Lemma isDyadic_double (x : float) (v : positive) (k : Z) :
  bitLength v < 53 -> isDyadic x v~0 k <-> isDyadic x v (k + 1).
Proof.
  intros Hd. unfold isDyadic. rewrite (dyadic_double false v k Hd).
  reflexivity.
Qed.

Lemma isDyadic_eq (x y : float) (v : positive) (k : Z) :
  isDyadic x v k -> isDyadic y v k -> x = y.
Proof. unfold isDyadic. intros Hx Hy. apply Prim2SF_inj. congruence. Qed.

(** A number above zero is not NaN, not infinite and not below 0. *)
Lemma isDyadic_finite (x : float) (v : positive) (k : Z) :
  isDyadic x v k ->
  is_nan x = false /\ is_infinity x = false
  /\ (0 <=? x)%float = true /\ (x <? 0)%float = false
  /\ abs x = x.
Proof.
  unfold isDyadic, dyadic. intros Hx.
  assert (Habs : abs x = x).
  { apply Prim2SF_inj. rewrite abs_spec, Hx. reflexivity. }
  unfold is_nan, is_infinity. rewrite Habs.
  rewrite !FloatAxioms.eqb_spec, FloatAxioms.leb_spec, FloatAxioms.ltb_spec, Hx.
  change (Prim2SF 0) with (S754_zero false).
  change (Prim2SF infinity) with (S754_infinity false).
  unfold SFeqb, SFleb, SFltb. cbn [SFcompare].
  change (Pos.compare_cont Eq ?p ?p) with (Pos.compare p p).
  rewrite Z.compare_refl, Pos.compare_refl. repeat split.
Qed.

Lemma isDyadic_integer (a : positive) :
  bitLength a <= 53 -> isDyadic (integerNumber (Zpos a)) a 0.
Proof. apply of_uint63_dyadic. Qed.

Lemma bitLength_lt (v : positive) (d : Z) :
  0 <= d -> Zpos v < 2 ^ d -> bitLength v <= d.
Proof.
  intros H0 Hv. pose proof (digits2_pos_bounds v) as [Hlo _].
  fold (bitLength v) in Hlo.
  destruct (Z.le_gt_cases (bitLength v) d) as [|Hgt]; [assumption|exfalso].
  assert (2 ^ d <= 2 ^ (bitLength v - 1)) by (apply Z.pow_le_mono_r; lia).
  lia.
Qed.

Lemma bitLength_xO (v : positive) : bitLength v~0 = bitLength v + 1.
Proof. unfold bitLength. cbn [digits2_pos]. lia. Qed.

Lemma bitLength_xI (v : positive) : bitLength v~1 = bitLength v + 1.
Proof. unfold bitLength. cbn [digits2_pos]. lia. Qed.

Lemma pos_leb_Z (p q : positive) : (p <=? q)%positive = (Zpos p <=? Zpos q).
Proof. reflexivity. Qed.

(** [Math.round] of an integer is the integer. *)
Lemma Math_round_integer (x : float) (m : positive) :
  isDyadic x m 0 -> Zpos m < 2 ^ 51 -> Math_round x = x.
Proof.
  intros Hx Hm.
  assert (Hd : bitLength m <= 51) by (apply bitLength_lt; [lia|assumption]).
  destruct (isDyadic_finite x m 0 Hx) as (Hnan & Hinf & Hpos & Hneg & Habs).
  assert (H52 : isDyadic two52 4503599627370496 0) by reflexivity.
  assert (Hq : bitLength (m + 4503599627370496) <= 53).
  { apply bitLength_lt; [lia|]. rewrite Pos2Z.inj_add.
    change (2 ^ 53) with (2 ^ 51 + 6755399441055744). lia. }
  unfold Math_round. rewrite Hnan, Hinf, Habs, Hpos. cbn [orb].
  destruct (isDyadic_compare two52 x _ _ 0 H52 Hx) as (_ & _ & Hle);
    [reflexivity|lia|].
  rewrite Hle.
  assert (Hbig : (4503599627370496 <=? m)%positive = false).
  { rewrite pos_leb_Z. apply Z.leb_gt.
    change (2 ^ 51) with 2251799813685248 in Hm. lia. }
  rewrite Hbig.
  assert (Ht : (x + two52 - two52)%float = x).
  { apply (isDyadic_eq _ _ m 0); [|exact Hx].
    apply (isDyadic_sub (x + two52) two52 (m + 4503599627370496)
             4503599627370496 m 0);
      [|exact H52|exact Hq|apply Pos.add_comm|lia].
    apply isDyadic_add; [exact Hx|exact H52|exact Hq|lia]. }
  rewrite Ht.
  destruct (isDyadic_compare x x m m 0 Hx Hx) as (Heq & _ & _); try lia.
  rewrite Heq, Pos.eqb_refl. reflexivity.
Qed.

Lemma evenOf_neighbour (k : positive) :
  let c := (evenOf (4503599627370496 + k) - 4503599627370496)%positive in
  (evenOf (4503599627370496 + k) = 4503599627370496 + c)%positive
  /\ (c = k \/ c = Pos.succ k).
Proof.
  cbv zeta. unfold evenOf.
  destruct (Z.even (Zpos (4503599627370496 + k))).
  - rewrite Pos.add_comm, Pos.add_sub. split; [apply Pos.add_comm|].
    left. reflexivity.
  - rewrite <- Pos.add_succ_r, Pos.add_comm, Pos.add_sub.
    split; [apply Pos.add_comm|]. right. reflexivity.
Qed.

(** [Math.round] of a number half way between the integers [k] and
    [k + 1] is [k + 1]. *)
Lemma Math_round_half (x : float) (k : positive) :
  isDyadic x k~1 (-1) -> Zpos k < 2 ^ 50 ->
  Math_round x = integerNumber (Zpos (Pos.succ k)).
Proof.
  intros Hx Hk.
  assert (Hd : bitLength k <= 50) by (apply bitLength_lt; [lia|assumption]).
  assert (Hd1 : bitLength k~1 <= 51) by (rewrite bitLength_xI; lia).
  assert (Hds : bitLength (Pos.succ k) <= 51).
  { apply bitLength_lt; [lia|]. rewrite Pos2Z.inj_succ.
    change (2 ^ 51) with (2 ^ 50 + 2 ^ 50). lia. }
  destruct (isDyadic_finite x _ _ Hx) as (Hnan & Hinf & Hpos & Hneg & Habs).
  assert (H52 : Prim2SF two52 = S754_finite false 4503599627370496 0)
    by reflexivity.
  unfold Math_round. rewrite Hnan, Hinf, Habs, Hpos, Hneg. cbn [orb andb].
  (* below 2^52 *)
  assert (Hbig : (two52 <=? x)%float = false).
  { rewrite FloatAxioms.leb_spec, H52, Hx. unfold dyadic, SFleb, SFcompare.
    pose proof (bitLength_pos k~1).
    destruct (Z.compare_spec 0 (-1 + bitLength k~1 - 53));
      first [reflexivity|lia]. }
  rewrite Hbig.
  (* the sum with 2^52 and back *)
  destruct (evenOf_neighbour k) as [Hsum Hc].
  remember (evenOf (4503599627370496 + k) - 4503599627370496)%positive
    as c eqn:Hcdef.
  clear Hcdef.
  assert (Hk51 : Zpos k < 2251799813685248)
    by (change (2 ^ 50) with 1125899906842624 in Hk; lia).
  destruct (evenOf_bitLength k Hk51) as [_ Hre].
  assert (Hr : isDyadic (x + two52) (evenOf (4503599627370496 + k)) 0).
  { unfold isDyadic. rewrite add_spec, Hx, H52, add_two52_tie by lia.
    symmetry. apply dyadic_full. exact Hre. }
  assert (Hdc : bitLength c <= 51) by (destruct Hc as [-> | ->]; lia).
  assert (Ht : isDyadic (x + two52 - two52) c 0).
  { apply (isDyadic_sub (x + two52) two52 (evenOf (4503599627370496 + k))
             4503599627370496 c 0); try assumption; lia. }
  remember (x + two52 - two52)%float as t eqn:Htdef.
  clear Htdef Hsum Hr Hre.
  assert (Ht' : isDyadic t c~0 (-1)) by (apply isDyadic_double; [lia|exact Ht]).
  assert (Hdc0 : bitLength c~0 <= 52) by (rewrite bitLength_xO; lia).
  destruct (isDyadic_compare t x _ _ (-1) Ht' Hx) as (Heq & _ & _); try lia.
  destruct (isDyadic_compare x t _ _ (-1) Hx Ht') as (_ & Hlt & _); try lia.
  assert (Hhalf : isDyadic 0.5 1 (-1)) by reflexivity.
  destruct (isDyadic_compare x 0.5 _ _ (-1) Hx Hhalf) as (_ & Hlt5 & _);
    [lia|discriminate|].
  rewrite Heq, Hlt5, Hlt.
  assert (Hne : (c~0 =? k~1)%positive = false) by (apply Pos.eqb_neq; lia).
  assert (Hl5 : (k~1 <? 1)%positive = false) by (apply Pos.ltb_ge; lia).
  rewrite Hne, Hl5, Bool.andb_false_r.
  (* the floor *)
  assert (Hone : isDyadic 1 1 0) by reflexivity.
  set (f := if (k~1 <? c~0)%positive then (t - 1)%float else t).
  assert (Hf : isDyadic f k 0).
  { unfold f. destruct Hc as [Hck|Hck]; rewrite Hck in *.
    - assert (Hlt' : (k~1 <? k~0)%positive = false) by (apply Pos.ltb_ge; lia).
      rewrite Hlt'. exact Ht.
    - assert (Hlt' : (k~1 <? (Pos.succ k)~0)%positive = true)
        by (apply Pos.ltb_lt; lia).
      rewrite Hlt'.
      apply (isDyadic_sub t 1 (Pos.succ k) 1 k 0); try assumption; lia. }
  clearbody f.
  assert (Hf' : isDyadic f k~0 (-1)) by (apply isDyadic_double; [lia|exact Hf]).
  assert (Hdiff : isDyadic (x - f) 1 (-1)).
  { apply (isDyadic_sub x f k~1 k~0 1 (-1)); try assumption; lia. }
  destruct (isDyadic_compare 0.5 (x - f) _ _ (-1) Hhalf Hdiff)
    as (_ & _ & Hle); [discriminate|discriminate|].
  rewrite Hle. cbn.
  apply (isDyadic_eq _ _ (Pos.succ k) 0).
  - replace (Pos.succ k) with (k + 1)%positive by lia.
    apply isDyadic_add; try assumption; try lia.
    replace (k + 1)%positive with (Pos.succ k) by lia. lia.
  - apply isDyadic_integer. lia.
Qed.

(** Exact division: [a * 2^j = b * c]. *)
Lemma div_dyadic (a b c : positive) (j : Z) :
  0 <= j <= 53 -> Zpos a * 2 ^ j = Zpos b * Zpos c ->
  bitLength a <= 53 -> bitLength b <= 53 -> bitLength c <= 53 ->
  SF64div (dyadic false a 0) (dyadic false b 0) = dyadic false c (- j).
Proof.
  intros Hj Habc Ha Hb Hc.
  pose proof (bitLength_pos a). pose proof (bitLength_pos b).
  pose proof (bitLength_pos c).
  pose proof (dyadic_mantissa a Ha) as Hma.
  pose proof (dyadic_mantissa b Hb) as Hmb.
  pose proof (dyadic_mantissa c Hc) as Hmc.
  pose proof (dyadic_bitLength a Ha) as Hda.
  pose proof (dyadic_bitLength b Hb) as Hdb.
  pose proof (dyadic_bitLength c Hc) as Hdc.
  (* the bitLength of a product *)
  assert (Hdig : bitLength a + j <= bitLength b + bitLength c).
  { pose proof (digits2_pos_bounds a) as [Alo _].
    pose proof (digits2_pos_bounds b) as [_ Bhi].
    pose proof (digits2_pos_bounds c) as [_ Chi].
    fold (bitLength a) (bitLength b) (bitLength c) in *.
    destruct (Z.le_gt_cases (bitLength a + j) (bitLength b + bitLength c))
      as [|Hgt]; [assumption|exfalso].
    assert (Hpw : 2 ^ (bitLength b + bitLength c) <= 2 ^ (bitLength a - 1 + j))
      by (apply Z.pow_le_mono_r; lia).
    rewrite !Z.pow_add_r in Hpw by lia.
    assert (0 < 2 ^ j) by (apply Z.pow_pos_nonneg; lia).
    assert (Zpos b * Zpos c < 2 ^ bitLength b * 2 ^ bitLength c) by nia.
    nia. }
  unfold SF64div, SFdiv, dyadic, SFdiv_core_binary.
  remember (Z.to_pos (Zpos a * 2 ^ (53 - bitLength a))) as ma eqn:Ema.
  remember (Z.to_pos (Zpos b * 2 ^ (53 - bitLength b))) as mb eqn:Emb.
  remember (Z.to_pos (Zpos c * 2 ^ (53 - bitLength c))) as mc eqn:Emc.
  clear Ema Emb Emc.
  cbn [Zdigits2 xorb]. unfold bitLength in Hda, Hdb. rewrite Hda, Hdb.
  fold (bitLength a) (bitLength b) in *.
  assert (He' : Z.min
                  (fexp prec emax
                     (53 + (0 + bitLength a - 53) - (53 + (0 + bitLength b - 53))))
                  (0 + bitLength a - 53 - (0 + bitLength b - 53))
                = bitLength a - bitLength b - 53).
  { unfold fexp, emin, prec, emax. lia. }
  rewrite He'.
  replace (0 + bitLength a - 53 - (0 + bitLength b - 53)
           - (bitLength a - bitLength b - 53)) with 53 by lia.
  rewrite Z.shiftl_mul_pow2 by lia.
  set (t := 53 - bitLength a + bitLength b - j).
  assert (Ht : 0 <= t) by (unfold t; lia).
  assert (Hq : exists q : positive, Zpos q = Zpos c * 2 ^ t).
  { exists (Z.to_pos (Zpos c * 2 ^ t)). apply Z2Pos.id.
    assert (0 < 2 ^ t) by (apply Z.pow_pos_nonneg; lia). nia. }
  destruct Hq as [q Hq].
  assert (Hprod : Zpos ma * 2 ^ 53 = Zpos mb * Zpos q).
  { rewrite Hma, Hmb, Hq.
    replace (Zpos b * 2 ^ (53 - bitLength b) * (Zpos c * 2 ^ t))
      with ((Zpos b * Zpos c) * (2 ^ (53 - bitLength b) * 2 ^ t)) by ring.
    rewrite <- Habc, <- Z.pow_add_r by lia.
    rewrite <- !Z.mul_assoc, <- !Z.pow_add_r by lia.
    f_equal. f_equal. unfold t. lia. }
  assert (Hdiv : Z.div_eucl (Zpos ma * 2 ^ 53) (Zpos mb) = (Zpos q, 0)).
  { pose proof (Z.div_eucl_eq (Zpos ma * 2 ^ 53) (Zpos mb)) as Heq.
    pose proof (Z.mod_pos_bound (Zpos ma * 2 ^ 53) (Zpos mb)) as Hbound.
    unfold Z.modulo in Hbound.
    destruct (Z.div_eucl (Zpos ma * 2 ^ 53) (Zpos mb)) as [q' r'].
    specialize (Heq ltac:(discriminate)).
    specialize (Hbound ltac:(reflexivity)).
    rewrite Hprod in Heq.
    assert (q' = Zpos q) by nia. subst q'.
    f_equal. lia. }
  rewrite Hdiv.
  assert (Hloc : new_location (Zpos mb) 0 = loc_Exact).
  { unfold new_location, new_location_even, new_location_odd.
    destruct (Z.even (Zpos mb)); reflexivity. }
  rewrite Hloc.
  rewrite (binary_round_aux_exact false q mc (bitLength a - bitLength b - 53)
             (- j + bitLength c - 53)); [reflexivity|lia| |exact Hdc|lia].
  rewrite Hq, Hmc, <- Z.mul_assoc, <- Z.pow_add_r by lia.
  f_equal. f_equal. unfold t. lia.
Qed.

Lemma isDyadic_div (x y : float) (a b c : positive) (j : Z) :
  isDyadic x a 0 -> isDyadic y b 0 ->
  0 <= j <= 53 -> Zpos a * 2 ^ j = Zpos b * Zpos c ->
  bitLength a <= 53 -> bitLength b <= 53 -> bitLength c <= 53 ->
  isDyadic (x / y) c (- j).
Proof.
  unfold isDyadic. intros Hx Hy Hj Habc Ha Hb Hc.
  rewrite div_spec, Hx, Hy. apply div_dyadic; assumption.
Qed.

Lemma totalOf_nonneg (prices : list positive) : 0 <= totalOf prices.
Proof.
  induction prices as [|z prices IH]; cbn [totalOf fold_right]; [lia|].
  fold (totalOf prices). lia.
Qed.

(** Summing integers from an integer. *)
Lemma fold_sum_integers (numbers : list float) (prices : list positive)
    (acc : float) (start : positive) :
  numbers = (fun z => integerNumber (Zpos z)) <$> prices ->
  isDyadic acc start 0 ->
  Zpos start + totalOf prices < 2 ^ 53 ->
  exists total : positive,
    Zpos total = Zpos start + totalOf prices
    /\ isDyadic (fold_left (fun s c => (s + c)%float) numbers acc) total 0.
Proof.
  revert numbers acc start.
  induction prices as [|z prices IH]; intros numbers acc start -> Hacc Hlt.
  - exists start. cbn. split; [lia|exact Hacc].
  - cbn [fmap list_fmap fold_left]. cbn [totalOf fold_right] in Hlt |- *.
    fold (totalOf prices) in *.
    pose proof (totalOf_nonneg prices) as Hnn.
    assert (Hd : bitLength (start + z) <= 53).
    { apply bitLength_lt; [lia|]. rewrite Pos2Z.inj_add. lia. }
    assert (Hz : bitLength z <= 53).
    { pose proof (bitLength_mono z (start + z)%positive). lia. }
    destruct (IH ((fun z => integerNumber (Zpos z)) <$> prices)
                (acc + integerNumber (Zpos z))%float (start + z)%positive
                eq_refl)
      as (total & Htotal & Hfold).
    + apply isDyadic_add; [exact Hacc|apply isDyadic_integer; exact Hz|
                           exact Hd|lia].
    + rewrite Pos2Z.inj_add. lia.
    + exists total. split; [rewrite Htotal, Pos2Z.inj_add; lia|exact Hfold].
Qed.

Lemma reduceSum_integers {A} (price : A -> float) (l : list A)
    (prices : list positive) :
  price <$> l = (fun z => integerNumber (Zpos z)) <$> prices ->
  l <> [] -> totalOf prices < 2 ^ 53 ->
  exists total : positive,
    Zpos total = totalOf prices /\ isDyadic (reduceSum price l) total 0.
Proof.
  intros Hl Hne Hlt. unfold reduceSum.
  destruct l as [|c l]; [contradiction|].
  destruct prices as [|z prices]; [discriminate|].
  cbn [fmap list_fmap] in Hl. injection Hl as Hc Hl.
  cbn [fold_left]. cbn [totalOf fold_right] in Hlt |- *.
  fold (totalOf prices) in *.
  pose proof (totalOf_nonneg prices) as Hnn.
  assert (Hz : bitLength z <= 53) by (apply bitLength_lt; lia).
  assert (Hfirst : (0 + price c)%float = integerNumber (Zpos z)).
  { rewrite Hc. apply Prim2SF_inj. rewrite add_spec.
    pose proof (isDyadic_integer z Hz) as Hi. unfold isDyadic in Hi.
    rewrite Hi. reflexivity. }
  rewrite Hfirst.
  assert (Hfold : forall (f : float -> A -> float) (g : float -> float -> float)
                    (l0 : list A) (acc : float),
            (forall s0 c0, f s0 c0 = g s0 (price c0)) ->
            fold_left f l0 acc = fold_left g (price <$> l0) acc).
  { intros f g l0. induction l0 as [|c0 l0 IH]; intros acc Hfg; [reflexivity|].
    cbn [fmap list_fmap fold_left]. rewrite Hfg. apply IH. exact Hfg. }
  rewrite (Hfold _ (fun s0 c0 => (s0 + c0)%float)) by reflexivity.
  apply (fold_sum_integers (price <$> l) prices _ z Hl).
  - apply isDyadic_integer. exact Hz.
  - exact Hlt.
Qed.

Lemma lengthNumber_integer {A} (l : list A) :
  l <> [] -> Z.of_nat (length l) < 2 ^ 53 ->
  isDyadic (lengthNumber l) (Pos.of_nat (length l)) 0.
Proof.
  intros Hne Hlt. unfold lengthNumber, natNumber.
  assert (Hn : Z.of_nat (length l) = Zpos (Pos.of_nat (length l))).
  { destruct l; [contradiction|]. cbn [length].
    rewrite <- (Nat2Pos.id (S (length l))) at 1 by lia.
    apply positive_nat_Z. }
  rewrite Hn. apply isDyadic_integer. apply bitLength_lt; lia.
Qed.

(** The mean of positive integers, rounded, when twice the mean is the
    integer [h]: the mean itself when [h] is even, and the integer next
    above the mean when [h] is odd. *)
Lemma rounded_mean_integers (l : list Comp.t) (prices : list positive)
    (h : Z) :
  Comp.salePrice <$> l = (fun z => integerNumber (Zpos z)) <$> prices ->
  l <> [] ->
  totalOf prices < 2 ^ 50 ->
  2 * totalOf prices = Z.of_nat (length prices) * h ->
  Math_round (meanSalePrice l) = integerNumber ((h + 1) / 2).
Proof.
  intros Hl Hne Hlt Hh.
  assert (Hlen : length prices = length l).
  { rewrite <- (length_fmap Comp.salePrice l), Hl, length_fmap. reflexivity. }
  assert (Hnpos : 0 < Z.of_nat (length l)) by (destruct l; [contradiction|cbn; lia]).
  destruct (reduceSum_integers Comp.salePrice l prices Hl Hne) as (total & Htotal & Hsum).
  { change (2 ^ 53) with (8 * 2 ^ 50). lia. }
  assert (Hlenlt : Z.of_nat (length l) <= totalOf prices).
  { rewrite <- Hlen. clear. induction prices as [|z prices IH]; [cbn; lia|].
    cbn [length totalOf fold_right]. fold (totalOf prices). lia. }
  pose proof (lengthNumber_integer l Hne) as Hcount.
  specialize (Hcount ltac:(change (2 ^ 53) with (8 * 2 ^ 50); lia)).
  set (n := Pos.of_nat (length l)) in *.
  assert (Hn : Zpos n = Z.of_nat (length l)).
  { unfold n. destruct l; [contradiction|]. cbn [length].
    rewrite <- (Nat2Pos.id (S (length l))) at 2 by lia.
    symmetry. apply positive_nat_Z. }
  clearbody n. rewrite Hlen, <- Hn, <- Htotal in Hh.
  rewrite <- Htotal in Hlt. rewrite <- Hn, <- Htotal in Hlenlt.
  assert (Hhpos : 0 < h) by nia.
  destruct h as [|hp|hp]; try lia.
  assert (Hhlt : Zpos hp < 2 ^ 51).
  { change (2 ^ 51) with (2 * 2 ^ 50). nia. }
  assert (Hx : isDyadic (meanSalePrice l) hp (-1)).
  { unfold meanSalePrice.
    apply (isDyadic_div _ _ total n hp 1);
      [exact Hsum|exact Hcount|lia| | | | ].
    - change (2 ^ 1) with 2. rewrite Z.mul_comm. exact Hh.
    - apply bitLength_lt; [lia|]. change (2 ^ 53) with (8 * 2 ^ 50). lia.
    - apply bitLength_lt; [lia|]. change (2 ^ 53) with (8 * 2 ^ 50). lia.
    - apply bitLength_lt; [lia|]. change (2 ^ 53) with (4 * 2 ^ 51). lia. }
  remember (meanSalePrice l) as x eqn:Ex. clear Ex.
  destruct hp as [k|m|].
  - assert (Hk : Zpos k < 2 ^ 50).
    { rewrite Pos2Z.inj_xI in Hhlt. change (2 ^ 51) with (2 * 2 ^ 50) in Hhlt.
      lia. }
    rewrite (Math_round_half x k Hx Hk). f_equal.
    rewrite Pos2Z.inj_xI, Pos2Z.inj_succ.
    replace (2 * Zpos k + 1 + 1) with ((Zpos k + 1) * 2) by lia.
    rewrite Z.div_mul by lia. lia.
  - assert (Hdm : bitLength m < 53).
    { assert (bitLength m <= 51); [|lia]. apply bitLength_lt; [lia|].
      rewrite Pos2Z.inj_xO in Hhlt. lia. }
    assert (Hx' : isDyadic x m 0)
      by (apply (isDyadic_double x m (-1)); [exact Hdm|exact Hx]).
    assert (Hm : Zpos m < 2 ^ 51) by (rewrite Pos2Z.inj_xO in Hhlt; lia).
    rewrite (Math_round_integer x m Hx' Hm).
    apply (isDyadic_eq _ _ m 0); [exact Hx'|].
    replace ((Zpos m~0 + 1) / 2) with (Zpos m).
    + apply isDyadic_integer. lia.
    + rewrite Pos2Z.inj_xO. apply Z.div_unique with 1; lia.
  - (* twice the mean is 1: the mean is 0.5 *)
    exfalso.
    assert (Zpos n <= Zpos total) by exact Hlenlt. lia.
Qed.

End Exact.

(** ** generate-argument *)

(** The sum of [reduceSum] is the sum of the prices, in their order. *)
Lemma reduceSum_fmap {A} (price : A -> float) (l : list A) (acc : float) :
  fold_left (fun s c => (s + price c)%float) l acc
  = fold_left (fun s x => (s + x)%float) (price <$> l) acc.
Proof.
  revert acc. induction l as [|c l IH]; intros acc; [reflexivity|].
  cbn [fmap list_fmap fold_left]. apply IH.
Qed.

Lemma meanSalePrice_prices (l : list Comp.t) :
  meanSalePrice l
  = (fold_left (fun s x => (s + x)%float) (Comp.salePrice <$> l) 0
     / natNumber (length (Comp.salePrice <$> l)))%float.
Proof.
  unfold meanSalePrice, reduceSum, lengthNumber.
  rewrite reduceSum_fmap, length_fmap. reflexivity.
Qed.

(** The declared value generate-argument stores when none is supplied. *)
Lemma generate_argument_default (B : Builtins) (tone : Tone) (s : AppState)
    (p : Property.t) :
  property s = Some p ->
  includedComps s <> [] ->
  Argument.declaredMarketValue
    <$> argument (snd (generate_argument B tone None s))
  = Some (Math_round (meanSalePrice (includedComps s))).
Proof.
  intros Hp Hinc. unfold generate_argument. rewrite Hp.
  destruct (includedComps s) as [|c l] eqn:E; [contradiction|].
  reflexivity.
Qed.



(** ** generate-packet and export-packet *)

Lemma append_assoc (a b c : string) : (a +:+ b) +:+ c = a +:+ (b +:+ c).
Proof.
  induction a as [|x a IH]; [reflexivity|].
  change (String x ((a +:+ b) +:+ c) = String x (a +:+ (b +:+ c))).
  f_equal. exact IH.
Qed.

Lemma append_nil_r (a : string) : a +:+ "" = a.
Proof.
  induction a as [|x a IH]; [reflexivity|].
  change (String x (a +:+ "") = String x a). f_equal. exact IH.
Qed.

Lemma join_cons (sep x : string) (l : list string) :
  l <> [] -> Str.join sep (x :: l) = (x +:+ sep +:+ Str.join sep l)%string.
Proof. destruct l; [contradiction|reflexivity]. Qed.

Lemma join_app (sep : string) (l1 l2 : list string) :
  l1 <> [] -> l2 <> [] ->
  Str.join sep (l1 ++ l2)
  = (Str.join sep l1 +:+ sep +:+ Str.join sep l2)%string.
Proof.
  intros H1 H2. induction l1 as [|x l1 IH]; [contradiction|].
  destruct l1 as [|y l1].
  - cbn [app]. apply join_cons. exact H2.
  - change ((x :: y :: l1) ++ l2) with (x :: ((y :: l1) ++ l2)).
    rewrite join_cons by discriminate. rewrite IH by discriminate.
    rewrite (join_cons sep x (y :: l1)) by discriminate.
    rewrite !append_assoc. reflexivity.
Qed.

Lemma occursIn_refl (x : string) : Str.occursIn x x.
Proof. exists ""%string, ""%string. cbn. symmetry. apply append_nil_r. Qed.

Lemma occursIn_append (x pre s post : string) :
  Str.occursIn x s -> Str.occursIn x (pre +:+ s +:+ post).
Proof.
  intros (a & b & ->). exists (pre +:+ a)%string, (b +:+ post)%string.
  rewrite !append_assoc. reflexivity.
Qed.

Lemma occursIn_join (sep x : string) (l : list string) :
  x ∈ l -> Str.occursIn x (Str.join sep l).
Proof.
  induction l as [|y l IH]; intros Hin; [inversion Hin|].
  destruct l as [|z l].
  - apply list_elem_of_singleton in Hin as ->. apply occursIn_refl.
  - rewrite join_cons by discriminate.
    apply elem_of_cons in Hin as [->|Hin].
    + exists ""%string, (sep +:+ Str.join sep (z :: l))%string. reflexivity.
    + destruct (IH Hin) as (a & b & Hab).
      exists (y +:+ sep +:+ a)%string, b. rewrite Hab, !append_assoc.
      reflexivity.
Qed.

Lemma filterTruthy_app (l1 l2 : list string) :
  Str.filterTruthy (l1 ++ l2) = Str.filterTruthy l1 ++ Str.filterTruthy l2.
Proof. apply List.filter_app. Qed.

Lemma filterTruthy_head (x : string) (l : list string) :
  truthyString x = true -> Str.filterTruthy (x :: l) <> [].
Proof. intros H. unfold Str.filterTruthy. cbn [List.filter]. rewrite H. discriminate. Qed.

Lemma packetTail_truthy (windowOpen : bool) :
  Str.filterTruthy (packetTail windowOpen) = packetTail windowOpen.
Proof. destruct windowOpen; reflexivity. Qed.

Lemma truthy_nl (x : string) : truthyString (nl +:+ x) = true.
Proof. reflexivity. Qed.

Lemma compRows_truthy (B : Builtins) (included : list Comp.t) :
  included <> [] ->
  truthyString (Str.join nl (compRow B <$> included)) = true.
Proof.
  destruct included as [|c [|c' l]]; [contradiction| |]; intros _; reflexivity.
Qed.

(** The document is its head, the rows of the comparables, the average and
    the heading of the argument, the narrative, and the tail. *)
Lemma buildPacketMarkdown_shape (B : Builtins) (W : World)
    (property : Property.t) (included : list Comp.t) (argument : Argument.t)
    (caseStrength : string) (avgCompPrice : float) :
  included <> [] ->
  exists pre mid,
    buildPacketMarkdown B W property included argument caseStrength
      avgCompPrice
    = (pre +:+ Str.join nl (compRow B <$> included) +:+ mid
         +:+ Argument.narrative argument +:+ nl
         +:+ Str.join nl
               (packetTail
                  (isFilingWindowOpen (Date_month W) (Date_day W))))%string.
Proof.
  intros Hinc. unfold buildPacketMarkdown.
  set (tail := packetTail _).
  set (rows := Str.join nl (compRow B <$> included)).
  assert (Hrows : truthyString rows = true) by (apply compRows_truthy, Hinc).
  assert (Htail : tail <> []) by (unfold tail; destruct (isFilingWindowOpen _ _); discriminate).
  rewrite !filterTruthy_app. unfold tail at 1. rewrite packetTail_truthy.
  fold tail.
  assert (Hhead :
    Str.filterTruthy (packetHead B property argument caseStrength) <> []).
  { unfold packetHead. apply filterTruthy_head. reflexivity. }
  set (head := Str.filterTruthy (packetHead B property argument caseStrength))
    in *.
  unfold Str.filterTruthy at 1. cbn [List.filter].
  rewrite Hrows, !truthy_nl.
  destruct (Argument.narrative argument) as [|ch narrative] eqn:En;
    cbn [truthyString].
  - rewrite join_app by (assumption || discriminate).
    rewrite (join_app nl [_; _; _] tail) by (assumption || discriminate).
    rewrite !join_cons by discriminate. cbn [Str.join].
    exists (Str.join nl head +:+ nl),
      (nl +:+ (nl +:+ "**Average Comparable Sale Price:** "
                 +:+ formatCurrency B avgCompPrice)
          +:+ nl +:+ (nl +:+ "## Value Argument")).
    rewrite !append_assoc. reflexivity.
  - rewrite join_app by (assumption || discriminate).
    rewrite (join_app nl [_; _; _; _] tail) by (assumption || discriminate).
    rewrite !join_cons by discriminate. cbn [Str.join].
    exists (Str.join nl head +:+ nl),
      (nl +:+ (nl +:+ "**Average Comparable Sale Price:** "
                 +:+ formatCurrency B avgCompPrice)
          +:+ nl +:+ (nl +:+ "## Value Argument") +:+ nl).
    rewrite !append_assoc. reflexivity.
Qed.

(** The document around the table of comparables: the header of the
    table, its rows, a blank line and the line of the average. *)
Lemma buildPacketMarkdown_table (B : Builtins) (W : World)
    (property : Property.t) (included : list Comp.t) (argument : Argument.t)
    (caseStrength : string) (avgCompPrice : float) :
  included <> [] ->
  exists pre rest,
    buildPacketMarkdown B W property included argument caseStrength
      avgCompPrice
    = (pre
         +:+ "| Address | Sale Date | Price | Sqft | Bed/Bath | Distance | Notes |"
         +:+ nl
         +:+ "|---------|-----------|-------|------|----------|----------|-------|"
         +:+ nl +:+ Str.join nl (compRow B <$> included) +:+ nl +:+ nl
         +:+ "**Average Comparable Sale Price:** " +:+ rest)%string.
Proof.
  intros Hinc. unfold buildPacketMarkdown.
  set (tail := packetTail _).
  set (rows := Str.join nl (compRow B <$> included)).
  assert (Hrows : truthyString rows = true) by (apply compRows_truthy, Hinc).
  rewrite filterTruthy_app.
  set (after := Str.filterTruthy (_ ++ tail)).
  assert (Hafter :
    exists more, after
    = rows :: (nl +:+ "**Average Comparable Sale Price:** "
                 +:+ formatCurrency B avgCompPrice)%string :: more).
  { unfold after. rewrite filterTruthy_app. unfold Str.filterTruthy at 1.
    cbn [List.filter]. rewrite Hrows, truthy_nl. eexists. reflexivity. }
  destruct Hafter as [more ->].
  unfold packetHead.
  match goal with
  | |- context [Str.filterTruthy ?l] =>
      let front := eval cbv beta iota delta [firstn] in (firstn 14 l) in
      let back := eval cbv beta iota delta [skipn] in (skipn 14 l) in
      change l with (front ++ back)
  end.
  rewrite filterTruthy_app.
  set (front := Str.filterTruthy _).
  change (Str.filterTruthy [_; _; _]) with
    [ (nl +:+ "## Comparable Sales Evidence")%string;
      "| Address | Sale Date | Price | Sqft | Bed/Bath | Distance | Notes |"%string;
      "|---------|-----------|-------|------|----------|----------|-------|"%string ].
  rewrite <- app_assoc.
  assert (Hjoin : forall l1 l2, l2 <> [] ->
            exists pre, Str.join nl (l1 ++ l2) = (pre +:+ Str.join nl l2)%string).
  { intros l1 l2 H2. destruct l1 as [|x l1]; [exists ""%string; reflexivity|].
    rewrite join_app by (discriminate || exact H2). eexists.
    rewrite <- append_assoc. reflexivity. }
  destruct (Hjoin front
              ([(nl +:+ "## Comparable Sales Evidence")%string;
                "| Address | Sale Date | Price | Sqft | Bed/Bath | Distance | Notes |"%string;
                "|---------|-----------|-------|------|----------|----------|-------|"%string]
                 ++ rows :: (nl +:+ "**Average Comparable Sale Price:** "
                               +:+ formatCurrency B avgCompPrice)%string :: more))
    as [pre Hpre]; [discriminate|].
  rewrite Hpre. cbn [app]. rewrite !join_cons by discriminate.
  exists (pre +:+ (nl +:+ "## Comparable Sales Evidence") +:+ nl)%string.
  destruct more as [|m more].
  - exists (formatCurrency B avgCompPrice). cbn [Str.join].
    rewrite !append_assoc. reflexivity.
  - rewrite join_cons by discriminate.
    exists (formatCurrency B avgCompPrice +:+ nl +:+ Str.join nl (m :: more))%string.
    rewrite !append_assoc. reflexivity.
Qed.

Lemma includedComps_length (s : AppState) :
  (length (includedComps s) =? 0)%nat = true <-> includedComps s = [].
Proof.
  destruct (includedComps s); cbn; split; try reflexivity; discriminate.
Qed.



(* ===================================================================== *)
(** * Part III: the other tools, and the tools together *)
(* ===================================================================== *)

(** ** The tools of the server: what a request may change *)

(** Each action of manage-comps runs one of the four blocks of the
    handler; the other blocks pass the state on. *)
Lemma manage_comps_action (B : Builtins) (W : World) (action : Action.t)
    (comp : option CompInput.t) (s : AppState) :
  manage_comps B W action comp s
  = match
      match action with
      | Action.add => addStep B W Action.add comp s
      | Action.update => updateStep Action.update comp s
      | Action.remove => removeStep Action.remove comp s
      | Action.toggle => toggleStep Action.toggle comp s
      | Action.list => inr s
      end
    with
    | inl message => (error message, s)
    | inr s' => (workspaceSummary B s', s')
    end.
Proof.
  unfold manage_comps.
  assert (Hu : forall a s0, a <> Action.update ->
                 updateStep a comp s0 = inr s0).
  { intros a s0 Ha. unfold updateStep.
    destruct a, comp as [c|]; try reflexivity; try contradiction;
      destruct (suppliedId (Some c)); reflexivity. }
  assert (Hr : forall a s0, a <> Action.remove ->
                 removeStep a comp s0 = inr s0).
  { intros a s0 Ha. unfold removeStep.
    destruct a; try contradiction; try reflexivity;
      destruct (suppliedId comp); reflexivity. }
  assert (Ht : forall a s0, a <> Action.toggle ->
                 toggleStep a comp s0 = inr s0).
  { intros a s0 Ha. unfold toggleStep.
    destruct a; try contradiction; try reflexivity;
      destruct (suppliedId comp); reflexivity. }
  destruct action.
  - destruct (addStep B W Action.add comp s) as [m|s1]; [reflexivity|].
    rewrite Hu, Hr, Ht by discriminate. reflexivity.
  - change (addStep B W Action.update comp s) with (inr s : string + AppState).
    cbv beta iota.
    destruct (updateStep Action.update comp s) as [m|s1]; [reflexivity|].
    rewrite Hr, Ht by discriminate. reflexivity.
  - change (addStep B W Action.remove comp s) with (inr s : string + AppState).
    cbv beta iota. rewrite Hu by discriminate.
    destruct (removeStep Action.remove comp s) as [m|s1]; [reflexivity|].
    rewrite Ht by discriminate. reflexivity.
  - change (addStep B W Action.toggle comp s) with (inr s : string + AppState).
    cbv beta iota. rewrite Hu, Hr by discriminate.
    destruct (toggleStep Action.toggle comp s) as [m|s1]; reflexivity.
  - change (addStep B W Action.list comp s) with (inr s : string + AppState).
    cbv beta iota. rewrite Hu, Hr, Ht by discriminate. reflexivity.
Qed.

Lemma manage_comps_error (B : Builtins) (W : World) (action : Action.t)
    (comp : option CompInput.t) (s : AppState) :
  isError (fst (manage_comps B W action comp s)) = true ->
  snd (manage_comps B W action comp s) = s.
Proof.
  rewrite manage_comps_action.
  destruct (match action with Action.add => _ | _ => _ end) as [m|s'];
    [reflexivity|discriminate].
Qed.

Lemma find_comps_error (B : Builtins) (W : World)
    (radius monthsBack limit : float) (s : AppState) :
  isError (fst (find_comps B W radius monthsBack limit s)) = true ->
  snd (find_comps B W radius monthsBack limit s) = s.
Proof.
  unfold find_comps.
  destruct (property s) as [p|]; [|reflexivity].
  destruct (Property.lat p) as [lat|]; [|reflexivity].
  destruct (Property.lng p) as [lng|]; [|reflexivity].
  destruct (truthyNumber lat && truthyNumber lng); [|reflexivity].
  destruct (cutoffDate W monthsBack) as [e|cutoffStr]; [reflexivity|].
  destruct (searchRadii _ _ _ _) as [e|[records used]]; [reflexivity|].
  destruct (length records =? 0)%nat; [reflexivity|discriminate].
Qed.

Lemma lookup_property_error (B : Builtins) (W : World)
    (address block lot : option string) (estimatedMarketValue : option float)
    (s : AppState) :
  isError (fst (lookup_property B W address block lot estimatedMarketValue s))
  = true ->
  snd (lookup_property B W address block lot estimatedMarketValue s) = s.
Proof.
  unfold lookup_property.
  destruct (negb _ && _); [reflexivity|].
  destruct (lookupQuery W address block lot) as [m|[e|records]];
    [reflexivity|reflexivity|].
  destruct records as [|rec [|rec' records]]; [reflexivity|discriminate|reflexivity].
Qed.

Lemma generate_argument_error (B : Builtins) (tone : Tone)
    (declaredMarketValue : option float) (s : AppState) :
  isError (fst (generate_argument B tone declaredMarketValue s)) = true ->
  snd (generate_argument B tone declaredMarketValue s) = s.
Proof.
  unfold generate_argument.
  destruct (property s) as [p|]; [|reflexivity].
  destruct (length (includedComps s) =? 0)%nat; [reflexivity|discriminate].
Qed.

(** X1.  A request that is answered with an error changes nothing: after
    any tool call whose response is an error, the state of the case is the
    state before the call. *)
Theorem tool_error_keeps_state (B : Builtins) (W : World) (c : Call)
    (s : AppState) :
  isError (fst (callTool B W c s)) = true -> snd (callTool B W c s) = s.
Proof.
  destruct c as
    [address blk lt estimate|radius monthsBack limit|propertyType assessed estimate|input|action comp|tone declared| | |];
    cbn [callTool].
  - apply lookup_property_error.
  - apply find_comps_error.
  - reflexivity.
  - discriminate.
  - apply manage_comps_error.
  - apply generate_argument_error.
  - intros _. apply idsNonEmpty_packet.
  - intros _. apply idsNonEmpty_packet.
  - reflexivity.
Qed.

Lemma tool_error_keeps_state_witness :
  isError
    (fst (callTool Sample.builtins (Sample.world 0 [])
            (manageComps Action.toggle (Some (onlyId "comp-1")))
            Example.case)) = true
  /\ snd (callTool Sample.builtins (Sample.world 0 [])
            (manageComps Action.toggle (Some (onlyId "comp-1")))
            Example.case) = Example.case.
Proof.
  split; [reflexivity|].
  apply (tool_error_keeps_state Sample.builtins (Sample.world 0 [])
           (manageComps Action.toggle (Some (onlyId "comp-1"))) Example.case).
  reflexivity.
Defined.

(** The properties and arguments of the states a step of manage-comps
    leaves. *)
Lemma manage_comps_frame (B : Builtins) (W : World) (action : Action.t)
    (comp : option CompInput.t) (s : AppState) :
  property (snd (manage_comps B W action comp s)) = property s
  /\ argument (snd (manage_comps B W action comp s)) = argument s.
Proof.
  rewrite manage_comps_action.
  destruct action; cbn [addStep updateStep removeStep toggleStep].
  - unfold addStep. destruct comp as [c|]; [|split; reflexivity].
    destruct (CompInput.address c); [|split; reflexivity].
    destruct (CompInput.salePrice c); [|split; reflexivity].
    destruct (CompInput.saleDate c); [|split; reflexivity].
    destruct (_ && _); split; reflexivity.
  - unfold updateStep. destruct comp as [c|]; [|split; reflexivity].
    destruct (suppliedId (Some c)) as [i|]; [|split; reflexivity].
    destruct (findComp i (comps s)) as [[idx old]|]; split; reflexivity.
  - unfold removeStep. destruct (suppliedId comp) as [i|]; [|split; reflexivity].
    destruct (findComp i (comps s)) as [[idx old]|]; split; reflexivity.
  - unfold toggleStep. destruct (suppliedId comp) as [i|]; [|split; reflexivity].
    destruct (findComp i (comps s)) as [[idx old]|]; split; reflexivity.
  - split; reflexivity.
Qed.

Lemma lookup_property_frame (B : Builtins) (W : World)
    (address block lot : option string) (estimatedMarketValue : option float)
    (s : AppState) :
  let s' := snd (lookup_property B W address block lot estimatedMarketValue s) in
  comps s' = comps s /\ argument s' = argument s
  /\ (is_Some (property s) -> is_Some (property s')).
Proof.
  unfold lookup_property.
  destruct (negb _ && _); [repeat split; trivial|].
  destruct (lookupQuery W address block lot) as [m|[e|records]];
    [repeat split; trivial|repeat split; trivial|].
  destruct records as [|rec [|rec' records]]; cbn [snd comps argument property];
    (split; [reflexivity|split; [reflexivity|]]); [trivial| |trivial].
  intros _. eexists. reflexivity.
Qed.

Lemma generate_argument_frame (B : Builtins) (tone : Tone)
    (declaredMarketValue : option float) (s : AppState) :
  let s' := snd (generate_argument B tone declaredMarketValue s) in
  property s' = property s /\ comps s' = comps s
  /\ (is_Some (argument s) -> is_Some (argument s')).
Proof.
  cbv zeta. unfold generate_argument.
  destruct (property s) as [p|] eqn:Hp;
    [|split; [exact Hp|split; [reflexivity|trivial]]].
  destruct (length (includedComps s) =? 0)%nat.
  - split; [exact Hp|split; [reflexivity|trivial]].
  - split; [reflexivity|split; [reflexivity|]].
    intros _. eexists. reflexivity.
Qed.

(** X2.  What each tool may change.  lookup-property and manage-property
    change nothing but the property, and never clear it; find-comps and
    manage-comps change nothing but the comparables; generate-argument
    changes nothing but the argument, and never clears it; the other tools
    (check-eligibility, generate-packet, export-packet,
    get-submission-info) change nothing.  In particular a newly looked-up
    property keeps the comparables and the argument of the previous one. *)
Theorem tool_frame (B : Builtins) (W : World) (c : Call) (s : AppState) :
  let s' := snd (callTool B W c s) in
  match c with
  | lookupProperty _ _ _ _ | manageProperty _ =>
      comps s' = comps s /\ argument s' = argument s
      /\ (is_Some (property s) -> is_Some (property s'))
  | findComps _ _ _ | manageComps _ _ =>
      property s' = property s /\ argument s' = argument s
  | generateArgument _ _ =>
      property s' = property s /\ comps s' = comps s
      /\ (is_Some (argument s) -> is_Some (argument s'))
  | checkEligibility _ _ _ | generatePacket | exportPacket
  | getSubmissionInfo => s' = s
  end.
Proof.
  destruct c as
    [address blk lt estimate|radius monthsBack limit|propertyType assessed estimate|input|action comp|tone declared| | |];
    cbn [callTool].
  - apply lookup_property_frame.
  - cbv zeta. rewrite find_comps_state. split; reflexivity.
  - reflexivity.
  - cbn. split; [reflexivity|split; [reflexivity|]].
    intros _. eexists. reflexivity.
  - apply manage_comps_frame.
  - apply generate_argument_frame.
  - apply idsNonEmpty_packet.
  - apply idsNonEmpty_packet.
  - reflexivity.
Qed.

(** ** The invariant of a session *)

Lemma prefix_comp (x : string) : Text.startsWith "comp-" ("comp-" +:+ x) = true.
Proof. reflexivity. Qed.

Lemma manage_comps_ids (B : Builtins) (W : World) (action : Action.t)
    (comp : option CompInput.t) (s : AppState) :
  Forall (fun c => Text.startsWith "comp-" (Comp.id c) = true) (comps s) ->
  Forall (fun c => Text.startsWith "comp-" (Comp.id c) = true)
    (comps (snd (manage_comps B W action comp s))).
Proof.
  intros H. rewrite manage_comps_action.
  destruct action; cbn [addStep updateStep removeStep toggleStep].
  - unfold addStep. destruct comp as [c|]; [|exact H].
    destruct (CompInput.address c); [|exact H].
    destruct (CompInput.salePrice c); [|exact H].
    destruct (CompInput.saleDate c); [|exact H].
    destruct (_ && _); [|exact H].
    cbn. apply Forall_app. split; [exact H|].
    repeat constructor.
  - unfold updateStep. destruct comp as [c|]; [|exact H].
    destruct (suppliedId (Some c)) as [i|] eqn:Hi; [|exact H].
    destruct (findComp i (comps s)) as [[idx old]|] eqn:Hf; [|exact H].
    cbn. apply Forall_insert; [exact H|]. cbn.
    apply findComp_Some in Hf as (Hl & Hid & _).
    assert (Hold : Text.startsWith "comp-" (Comp.id old) = true).
    { rewrite Forall_forall in H. apply H.
      eapply list_elem_of_lookup_2. exact Hl. }
    unfold suppliedId in Hi. cbn in Hi.
    destruct (CompInput.id c) as [i'|]; [|exact Hold]. cbn.
    destruct (truthyString i'); [|discriminate].
    injection Hi as ->. rewrite <- Hid. exact Hold.
  - unfold removeStep. destruct (suppliedId comp) as [i|]; [|exact H].
    destruct (findComp i (comps s)) as [[idx old]|]; [|exact H].
    cbn. apply Forall_delete. exact H.
  - unfold toggleStep. destruct (suppliedId comp) as [i|]; [|exact H].
    destruct (findComp i (comps s)) as [[idx found]|] eqn:Hf; [|exact H].
    cbn. apply Forall_insert; [exact H|]. cbn.
    apply findComp_Some in Hf as (Hl & _ & _).
    rewrite Forall_forall in H. apply H. eapply list_elem_of_lookup_2. exact Hl.
  - exact H.
Qed.

Lemma find_comps_ids (B : Builtins) (W : World)
    (radius monthsBack limit : float) (s : AppState) :
  Forall (fun c => Text.startsWith "comp-" (Comp.id c) = true) (comps s) ->
  Forall (fun c => Text.startsWith "comp-" (Comp.id c) = true)
    (comps (snd (find_comps B W radius monthsBack limit s))).
Proof.
  intros H. rewrite find_comps_state.
  cbn [withComps comps]. rewrite mergeComps_app. apply Forall_app.
  split; [exact H|]. apply Forall_forall. intros c Hc.
  apply list_elem_of_In, List.filter_In in Hc as [Hc _].
  unfold newCompsOf in Hc. apply list_elem_of_In, list_elem_of_fmap in Hc
    as (rec & -> & _).
  apply prefix_comp.
Qed.

Lemma callTool_invariant (B : Builtins) (W : World) (c : Call) (s : AppState) :
  caseInvariant s -> caseInvariant (snd (callTool B W c s)).
Proof.
  intros [Hids Harg]. unfold caseInvariant.
  destruct c as
    [address blk lt estimate|radius monthsBack limit|propertyType assessed estimate|input|action comp|tone declared| | |];
    cbn [callTool].
  - destruct (lookup_property_frame B W address blk lt estimate s)
      as (-> & -> & Hp).
    split; [exact Hids|]. intros Ha. apply Hp, Harg, Ha.
  - split; [apply find_comps_ids, Hids|].
    rewrite find_comps_state. exact Harg.
  - split; assumption.
  - split; [exact Hids|]. intros _. eexists. reflexivity.
  - split; [apply manage_comps_ids, Hids|].
    destruct (manage_comps_frame B W action comp s) as [-> ->]. exact Harg.
  - destruct (generate_argument_frame B tone declared s)
      as (Hp' & -> & _).
    rewrite Hp'. split; [exact Hids|]. intros Ha.
    destruct (property s) as [p|] eqn:Hp; [eexists; reflexivity|].
    apply Harg. revert Ha. unfold generate_argument. rewrite Hp. trivial.
  - rewrite (proj1 (idsNonEmpty_packet B W s)). split; assumption.
  - rewrite (proj2 (idsNonEmpty_packet B W s)). split; assumption.
  - split; assumption.
Qed.

(** X3.  In every state a session reaches from the initial state, by any
    series of tool calls in any worlds, the identifier of every comparable
    starts with comp- (so it is never empty, and update, remove and toggle
    can name every comparable), and an argument is on file only if a
    property is. *)
Theorem session_invariant (B : Builtins) (calls : list (World * Call)) :
  caseInvariant (session B calls initialState).
Proof.
  assert (H : forall s, caseInvariant s -> caseInvariant (session B calls s)).
  { induction calls as [|[W c] calls IH]; intros s Hs; [exact Hs|].
    cbn [session]. apply IH, callTool_invariant, Hs. }
  apply H. split; [constructor|].
  intros [a Ha]. discriminate.
Qed.

(** ** manage-property, then find-comps *)

Lemma storedByHand_callTool (B : Builtins) (W : World) (c : Call)
    (s : AppState) :
  match c with lookupProperty _ _ _ _ => False | _ => True end ->
  storedByHand s -> storedByHand (snd (callTool B W c s)).
Proof.
  intros Hc Hs. unfold storedByHand.
  destruct c as
    [address blk lt estimate|radius monthsBack limit|propertyType assessed estimate|input|action comp|tone declared| | |];
    try contradiction; cbn [callTool].
  - rewrite find_comps_state. exact Hs.
  - exact Hs.
  - eexists. reflexivity.
  - rewrite (proj1 (manage_comps_frame B W action comp s)). exact Hs.
  - rewrite (proj1 (generate_argument_frame B tone declared s)).
    exact Hs.
  - rewrite (proj1 (idsNonEmpty_packet B W s)). exact Hs.
  - rewrite (proj2 (idsNonEmpty_packet B W s)). exact Hs.
  - exact Hs.
Qed.

(** X4.  A property stored by manage-property has no coordinates, so
    find-comps answers with its no-coordinates error, and changes nothing,
    after manage-property and any further requests other than
    lookup-property (although the error find-comps gives without a property
    recommends manage-property). *)
Theorem find_comps_after_manage_property (B : Builtins) (W0 W : World)
    (input : PropertyInput.t) (calls : list (World * Call))
    (radius monthsBack limit : float) (s : AppState) :
  withoutLookup calls ->
  let s1 := session B calls (snd (callTool B W0 (manageProperty input) s)) in
  callTool B W (findComps radius monthsBack limit) s1 = (noCoordinates, s1).
Proof.
  intros Hcalls s1.
  assert (Hs1 : storedByHand s1).
  { subst s1. generalize (snd (callTool B W0 (manageProperty input) s)),
      (ex_intro (fun i => property (snd (callTool B W0 (manageProperty input) s))
                          = Some (propertyOfInput i)) input eq_refl
       : storedByHand (snd (callTool B W0 (manageProperty input) s))).
    induction Hcalls as [|[W' c] calls Hc _ IH]; intros s0 Hs0; [exact Hs0|].
    cbn [session]. apply IH, storedByHand_callTool; assumption. }
  destruct Hs1 as [i Hi]. cbn [callTool]. unfold find_comps. rewrite Hi.
  reflexivity.
Qed.

Lemma find_comps_after_manage_property_witness :
  callTool Sample.builtins (Sample.world 0 [])
    (findComps 0.5 24 15)
    (session Sample.builtins
       [(Sample.world 0 [], manageComps Action.list None)]
       (snd (callTool Sample.builtins (Sample.world 0 [])
               (manageProperty
                  (PropertyInput.mk "990 GREEN ST" "0595140" sfh 1000000
                     900000 None None None None))
               initialState)))
  = (noCoordinates,
     session Sample.builtins
       [(Sample.world 0 [], manageComps Action.list None)]
       (snd (callTool Sample.builtins (Sample.world 0 [])
               (manageProperty
                  (PropertyInput.mk "990 GREEN ST" "0595140" sfh 1000000
                     900000 None None None None))
               initialState))).
Proof.
  apply (find_comps_after_manage_property Sample.builtins (Sample.world 0 [])
           (Sample.world 0 [])
           (PropertyInput.mk "990 GREEN ST" "0595140" sfh 1000000 900000
              None None None None)
           [(Sample.world 0 [], manageComps Action.list None)]
           0.5 24 15 initialState).
  repeat constructor.
Defined.

(** ** manage-comps: update, remove and the round trip with add *)

Lemma manage_comps_update (B : Builtins) (W : World) (s : AppState)
    (comp : CompInput.t) (i : string) (idx : nat) (old : Comp.t) :
  CompInput.id comp = Some i -> i <> ""%string ->
  findComp i (comps s) = Some (idx, old) ->
  manage_comps B W Action.update (Some comp) s
  = (let s' := withComps s (<[idx := mergeComp old comp]> (comps s)) in
     (workspaceSummary B s', s')).
Proof.
  intros Hi Hne Hf. rewrite manage_comps_action. unfold updateStep.
  rewrite (suppliedId_Some comp i Hi Hne), Hf. reflexivity.
Qed.

Lemma manage_comps_remove (B : Builtins) (W : World) (s : AppState)
    (comp : CompInput.t) (i : string) (idx : nat) (old : Comp.t) :
  CompInput.id comp = Some i -> i <> ""%string ->
  findComp i (comps s) = Some (idx, old) ->
  manage_comps B W Action.remove (Some comp) s
  = (let s' := withComps s (delete idx (comps s)) in
     (workspaceSummary B s', s')).
Proof.
  intros Hi Hne Hf. rewrite manage_comps_action. unfold removeStep.
  rewrite (suppliedId_Some comp i Hi Hne), Hf. reflexivity.
Qed.

Lemma manage_comps_not_found (B : Builtins) (W : World) (action : Action.t)
    (s : AppState) (comp : CompInput.t) (i : string) :
  action = Action.update \/ action = Action.remove \/ action = Action.toggle ->
  CompInput.id comp = Some i -> i <> ""%string ->
  findComp i (comps s) = None ->
  manage_comps B W action (Some comp) s = (compNotFound i, s).
Proof.
  intros Ha Hi Hne Hf. rewrite manage_comps_action.
  destruct Ha as [->|[->| ->]]; unfold updateStep, removeStep, toggleStep;
    rewrite (suppliedId_Some comp i Hi Hne), Hf; reflexivity.
Qed.

Lemma mergeComp_id (old : Comp.t) (comp : CompInput.t) :
  CompInput.id comp = Some (Comp.id old) ->
  Comp.id (mergeComp old comp) = Comp.id old.
Proof. intros H. unfold mergeComp. cbn. rewrite H. reflexivity. Qed.

Lemma mergeComp_twice (old : Comp.t) (comp : CompInput.t) :
  mergeComp (mergeComp old comp) comp = mergeComp old comp.
Proof.
  unfold mergeComp. cbn.
  destruct comp as [[?|] [?|] [?|] [?|] [?|] [?|] [?|] [?|] [?|]];
    reflexivity.
Qed.

Lemma fmap_insert_same {A C} (f : A -> C) (l : list A) (idx : nat) (x y : A) :
  l !! idx = Some x -> f y = f x -> f <$> <[idx := y]> l = f <$> l.
Proof.
  intros Hl Hf. rewrite list_fmap_insert, Hf.
  apply list_insert_id. rewrite list_lookup_fmap, Hl. reflexivity.
Qed.



(** X6.  update and toggle on an identifier the case does not have are
    answered with the not-found error, which names the identifier, and
    change nothing. *)
Theorem update_toggle_absent (B : Builtins) (W : World) (action : Action.t)
    (comp : CompInput.t) (i : string) (s : AppState) :
  action = Action.update \/ action = Action.toggle ->
  CompInput.id comp = Some i -> i <> ""%string ->
  i ∉ compIds (comps s) ->
  manage_comps B W action (Some comp) s = (compNotFound i, s).
Proof.
  intros Ha Hi Hne Hnot.
  apply manage_comps_not_found; [tauto|assumption|assumption|].
  apply findComp_absent, Hnot.
Qed.

Lemma update_toggle_absent_witness :
  manage_comps Sample.builtins (Sample.world 0 []) Action.update
    (Some (onlyId "comp-7")) Example.case
  = (compNotFound "comp-7", Example.case).
Proof.
  apply (update_toggle_absent Sample.builtins (Sample.world 0 [])
           Action.update (onlyId "comp-7") "comp-7" Example.case).
  - left. reflexivity.
  - reflexivity.
  - discriminate.
  - vm_compute. intros H.
    repeat (apply elem_of_cons in H as [H|H]; [discriminate|]).
    apply elem_of_nil in H. exact H.
Defined.

Lemma lookup_delete_below {A} (l : list A) (idx j : nat) :
  j < idx -> delete idx l !! j = l !! j.
Proof. intros H. apply list_lookup_delete_lt. exact H. Qed.

Lemma lookup_delete_above {A} (l : list A) (idx j : nat) :
  idx <= j -> delete idx l !! j = l !! S j.
Proof. intros H. apply list_lookup_delete_ge. exact H. Qed.

Lemma NoDup_delete_absent (l : list Comp.t) (idx : nat) (c : Comp.t) :
  NoDup (compIds l) -> l !! idx = Some c ->
  Comp.id c ∉ compIds (delete idx l).
Proof.
  intros Hnd Hl Hin. unfold compIds in *.
  apply list_elem_of_fmap in Hin as (y & Hy & Hin).
  apply list_elem_of_lookup_1 in Hin as [j Hj].
  assert (Hj' : l !! (if decide (j < idx) then j else S j) = Some y).
  { destruct (decide (j < idx)).
    - rewrite <- Hj. symmetry. apply list_lookup_delete_lt. assumption.
    - rewrite <- Hj. symmetry. apply list_lookup_delete_ge. lia. }
  assert (Heq : idx = (if decide (j < idx) then j else S j)).
  { eapply NoDup_lookup; [exact Hnd| |].
    - rewrite list_lookup_fmap, Hl. reflexivity.
    - rewrite list_lookup_fmap, Hj'. cbn. rewrite Hy. reflexivity. }
  destruct (decide (j < idx)); lia.
Qed.



Lemma manage_comps_add (B : Builtins) (W : World) (c : CompInput.t)
    (s : AppState) :
  isError (fst (manage_comps B W Action.add (Some c) s)) = false ->
  manage_comps B W Action.add (Some c) s
  = (let s' := withComps s (comps s ++ [addedComp B W c]) in
     (workspaceSummary B s', s')).
Proof.
  rewrite manage_comps_action. unfold addStep, addedComp.
  destruct (CompInput.address c) as [a|]; [|discriminate].
  destruct (CompInput.salePrice c) as [p|]; [|discriminate].
  destruct (CompInput.saleDate c) as [d|]; [|discriminate].
  destruct (_ && _); [|discriminate].
  reflexivity.
Qed.

Lemma findComp_app_new (i : string) (l : list Comp.t) (c : Comp.t) :
  Comp.id c = i -> i ∉ compIds l -> findComp i (l ++ [c]) = Some (length l, c).
Proof.
  intros Hid Hnot. apply findComp_Some. repeat split.
  - rewrite lookup_app_r by lia. rewrite Nat.sub_diag. reflexivity.
  - exact Hid.
  - intros j y Hj Hlt Hy. apply Hnot. unfold compIds.
    apply list_elem_of_fmap. exists y. split; [symmetry; exact Hy|].
    rewrite lookup_app_l in Hj by exact Hlt.
    eapply list_elem_of_lookup_2. exact Hj.
Qed.

Lemma findComp_app_old (i : string) (l : list Comp.t) (c : Comp.t)
    (idx : nat) (old : Comp.t) :
  findComp i l = Some (idx, old) -> findComp i (l ++ [c]) = Some (idx, old).
Proof.
  intros Hf. apply findComp_Some in Hf as (Hl & Hid & Hfirst).
  assert (Hlt : idx < length l) by (eapply lookup_lt_Some; exact Hl).
  apply findComp_Some. repeat split.
  - rewrite lookup_app_l by exact Hlt. exact Hl.
  - exact Hid.
  - intros j y Hj Hj'. rewrite lookup_app_l in Hj by lia.
    eapply Hfirst; eassumption.
Qed.

Lemma delete_app_last {A} (l : list A) (x : A) : delete (length l) (l ++ [x]) = l.
Proof. induction l as [|y l IH]; cbn; [reflexivity|]. f_equal. exact IH. Qed.

Lemma delete_app_l {A} (l l' : list A) (idx : nat) :
  idx < length l -> delete idx (l ++ l') = delete idx l ++ l'.
Proof.
  revert idx. induction l as [|y l IH]; intros idx H; cbn in *; [lia|].
  destruct idx as [|idx]; cbn; [reflexivity|]. f_equal. apply IH. lia.
Qed.

(** X8.  add, then remove by the identifier add gave.  When the case had
    no comparable with that identifier, the two requests leave the state
    as it was.  When it had one (add names a comparable after the clock, so
    two of them added within a millisecond share the identifier), remove
    deletes the older comparable with that identifier and the new one
    stays. *)
Theorem add_then_remove (B : Builtins) (W W' : World) (c : CompInput.t)
    (s : AppState) :
  isError (fst (manage_comps B W Action.add (Some c) s)) = false ->
  let new := addedComp B W c in
  let s1 := snd (manage_comps B W Action.add (Some c) s) in
  let s2 :=
    snd (manage_comps B W' Action.remove (Some (onlyId (Comp.id new))) s1) in
  comps s1 = comps s ++ [new]
  /\ (Comp.id new ∉ compIds (comps s) -> s2 = s)
  /\ (forall idx old,
        findComp (Comp.id new) (comps s) = Some (idx, old) ->
        comps s2 = delete idx (comps s) ++ [new]).
Proof.
  intros Hok new s1 s2. subst s1 s2.
  rewrite (manage_comps_add B W c s Hok). cbv zeta. cbn [snd withComps comps].
  assert (Hne : Comp.id new <> ""%string) by discriminate.
  split; [reflexivity|]. split.
  - intros Hfresh.
    rewrite (manage_comps_remove B W' _ (onlyId (Comp.id new)) (Comp.id new)
               (length (comps s)) new eq_refl Hne).
    + cbv zeta. cbn [snd withComps comps property argument].
      rewrite delete_app_last. destruct s; reflexivity.
    + cbn [withComps comps]. apply findComp_app_new; [reflexivity|exact Hfresh].
  - intros idx old Hf.
    rewrite (manage_comps_remove B W' _ (onlyId (Comp.id new)) (Comp.id new)
               idx old eq_refl Hne).
    + cbv zeta. cbn [snd withComps comps]. apply delete_app_l.
      apply findComp_Some in Hf as (Hl & _). eapply lookup_lt_Some. exact Hl.
    + cbn [withComps comps]. apply findComp_app_old, Hf.
Qed.

Lemma add_then_remove_witness :
  snd (manage_comps Sample.builtins (Sample.world 1 []) Action.remove
         (Some (onlyId "comp-1"))
         (snd (manage_comps Sample.builtins (Sample.world 1 []) Action.add
                 (Some (CompInput.mk None (Some "990 GREEN ST"%string)
                          (Some "2024-06-30"%string) (Some 900000%float)
                          None None None None None))
                 Example.case)))
  = Example.case.
Proof.
  apply (add_then_remove Sample.builtins (Sample.world 1 [])
           (Sample.world 1 [])
           (CompInput.mk None (Some "990 GREEN ST"%string)
              (Some "2024-06-30"%string) (Some 900000%float)
              None None None None None)
           Example.case eq_refl).
  vm_compute. intros H.
  repeat (apply elem_of_cons in H as [H|H]; [discriminate|]).
  apply elem_of_nil in H. exact H.
Defined.

(** ** The buttons of the comp-workspace widget *)



(** ** generate-argument *)

Lemma includedComps_nil (s : AppState) :
  (length (includedComps s) =? 0)%nat = true <-> includedComps s = [].
Proof.
  destruct (includedComps s); cbn; split; congruence.
Qed.

Lemma occursIn_trans (x y z : string) :
  Str.occursIn x y -> Str.occursIn y z -> Str.occursIn x z.
Proof.
  intros (a & b & ->) (c & d & ->).
  exists (c +:+ a)%string, (b +:+ d)%string. rewrite !append_assoc.
  reflexivity.
Qed.

Lemma compLines_narrative (B : Builtins) (tone : Tone) (p : Property.t)
    (included : list Comp.t) (declared avgCompPrice : float) :
  Str.occursIn (compLines B included)
    (narrativeOf B tone p included declared avgCompPrice).
Proof.
  unfold narrativeOf. destruct tone; apply occursIn_join;
    repeat (first [apply list_elem_of_here | apply list_elem_of_further]).
Qed.

Lemma occursIn_start (x post : string) : Str.occursIn x (x +:+ post).
Proof. exists ""%string, post. reflexivity. Qed.

Lemma occursIn_skip (a x rest : string) :
  Str.occursIn x rest -> Str.occursIn x (a +:+ rest).
Proof.
  intros (pre & post & ->). exists (a +:+ pre)%string, post.
  rewrite append_assoc. reflexivity.
Qed.

Ltac occurs_in_line :=
  first [ apply occursIn_refl
        | apply occursIn_start
        | apply occursIn_skip; occurs_in_line ].

Tactic Notation "in_line" integer(n) :=
  eapply occursIn_trans;
    [|apply occursIn_join; do n apply list_elem_of_further;
      apply list_elem_of_here];
    occurs_in_line.

(** Every template states the declared value and the address. *)
Lemma narrative_states (B : Builtins) (tone : Tone) (p : Property.t)
    (included : list Comp.t) (declared avgCompPrice : float) :
  let narrative := narrativeOf B tone p included declared avgCompPrice in
  Str.occursIn ("$" +:+ toLocaleString_enUS B declared) narrative
  /\ Str.occursIn (Property.address p) narrative.
Proof.
  cbv zeta. unfold narrativeOf, formatCurrency.
  destruct tone; split.
  - in_line 6.
  - in_line 2.
  - in_line 1.
  - in_line 0.
  - in_line 1.
  - in_line 0.
Qed.

(** X10.  generate-argument is answered with an error exactly when the
    case has no property or no included comparable: with the no-property
    error when the property is missing, whatever the comparables, and
    otherwise with the no-comparable error; an error leaves the state as it
    is.  Otherwise the answer is the narrative that is stored, with the
    tone asked for; nothing else of the state changes; a declared market
    value that is supplied is stored as it is given, not rounded; and the
    narrative states the declared value stored and the address of the
    property. *)
Theorem generate_argument_outcomes (B : Builtins) (tone : Tone)
    (declaredMarketValue : option float) (s : AppState) :
  let r := fst (generate_argument B tone declaredMarketValue s) in
  let s' := snd (generate_argument B tone declaredMarketValue s) in
  (isError r = true <-> property s = None \/ includedComps s = [])
  /\ (property s = None ->
      r = error
            "No property on file. Use manage-property first to set up the subject property.")
  /\ (is_Some (property s) -> includedComps s = [] ->
      r = error
            "No comparable sales selected. Add comps with manage-comps first.")
  /\ (isError r = true -> s' = s)
  /\ (isError r = false ->
      exists p narrative declared,
        property s = Some p
        /\ r = reply (markdown narrative)
        /\ s'
           = mkState (property s) (comps s)
               (Some (Argument.mk narrative declared tone))
        /\ (forall v, declaredMarketValue = Some v -> declared = v)
        /\ Str.occursIn ("$" +:+ toLocaleString_enUS B declared) narrative
        /\ Str.occursIn (Property.address p) narrative).
Proof.
  cbv zeta. unfold generate_argument.
  destruct (property s) as [p|] eqn:Hp.
  - destruct (length (includedComps s) =? 0)%nat eqn:Hn.
    + apply includedComps_nil in Hn. cbn [fst snd isError].
      split; [split; [intros _; right; exact Hn|reflexivity]|].
      split; [discriminate|]. split; [reflexivity|].
      split; [reflexivity|discriminate].
    + cbn [fst snd isError].
      split.
      { split; [discriminate|].
        intros [H|H]; [discriminate|].
        apply includedComps_nil in H. congruence. }
      split; [discriminate|].
      split; [intros _ H; apply includedComps_nil in H; congruence|].
      split; [discriminate|].
      intros _. exists p. eexists _, _.
      split; [reflexivity|]. split; [reflexivity|]. split; [reflexivity|].
      split; [intros v ->; reflexivity|].
      apply narrative_states.
  - cbn [fst snd isError].
    split; [split; [intros _; left; reflexivity|reflexivity]|].
    split; [reflexivity|]. split; [intros [? [=]]|].
    split; [reflexivity|discriminate].
Qed.


(** ** find-comps: failures and the report *)

Lemma searchRadii_throws (query : float -> string + list SFRecord)
    (radii : list float) (records0 : list SFRecord) (used0 : float)
    (e : string) :
  searchRadii query radii records0 used0 = inl e ->
  exists before r after,
    radii = before ++ r :: after
    /\ query r = inl e
    /\ Forall (yieldsNothing query) before.
Proof.
  revert records0 used0. induction radii as [|r radii IH];
    intros records0 used0; [discriminate|].
  cbn [searchRadii]. destruct (query r) as [e'|records] eqn:Hq.
  - intros [= <-]. exists [], r, radii. repeat split; [exact Hq|constructor].
  - destruct records as [|rec records]; [|discriminate]. cbn.
    intros H. destruct (IH _ _ H) as (before & r' & after & -> & Hr & Hb).
    exists (r :: before), r', after. repeat split; [exact Hr|].
    constructor; [exact Hq|exact Hb].
Qed.

(** X12.  The ways find-comps fails.  Without a property it answers with
    the no-subject error; with a property whose latitude or longitude is
    missing, zero or NaN, with the no-coordinates error.  Past these two
    tests the cut-off date is written: when [toISOString] throws, the
    handler throws with it, before any query, and the state is as it was.
    When a query of the search throws, the answer is the failure error that
    carries the message, and then every radius tried before the one whose
    query threw had yielded no record.  In every other case the answer is
    the workspace widget, not an error. *)
Theorem find_comps_failures (B : Builtins) (W : World)
    (radius monthsBack limit : float) (s : AppState) :
  let r := fst (find_comps B W radius monthsBack limit s) in
  let s' := snd (find_comps B W radius monthsBack limit s) in
  match property s with
  | None => r = noSubject /\ s' = s
  | Some p =>
      match searchCentre p with
      | None => r = noCoordinates /\ s' = s
      | Some (lat, lng) =>
          match cutoffDate W monthsBack with
          | inl e => r = thrown e /\ s' = s
          | inr cutoffStr =>
              let query :=
                queryRadius B W lat lng cutoffStr (Property.apn p) limit in
              match searchRadii query (radiiToTry radius) [] radius with
              | inl e =>
                  r = error ("Failed to search for comps: " +:+ e)
                  /\ s' = s
                  /\ exists before r' after,
                       radiiToTry radius = before ++ r' :: after
                       /\ query r' = inl e
                       /\ Forall (yieldsNothing query) before
              | inr _ =>
                  isError r = false
                  /\ exists props output, r = widgetCompWorkspace props output
              end
          end
      end
  end.
Proof.
  cbv zeta. unfold find_comps, searchCentre.
  destruct (property s) as [p|]; [|split; reflexivity].
  destruct (Property.lat p) as [lat|]; [|split; reflexivity].
  destruct (Property.lng p) as [lng|]; [|split; reflexivity].
  destruct (truthyNumber lat && truthyNumber lng); [|split; reflexivity].
  destruct (cutoffDate W monthsBack) as [e|cutoffStr]; [split; reflexivity|].
  destruct (searchRadii _ _ _ _) as [e|[records used]] eqn:Hs.
  - split; [reflexivity|]. split; [reflexivity|].
    eapply searchRadii_throws. exact Hs.
  - destruct (length records =? 0)%nat; cbn [fst isError];
      (split; [reflexivity|eexists _, _; reflexivity]).
Qed.

Lemma discovered_records (B : Builtins) (W : World)
    (radius monthsBack limit : float) (s : AppState) (p : Property.t)
    (lat lng : float) (cutoffStr : string) (records : list SFRecord)
    (used : float) :
  property s = Some p ->
  Property.lat p = Some lat -> Property.lng p = Some lng ->
  truthyNumber lat && truthyNumber lng = true ->
  cutoffDate W monthsBack = inr cutoffStr ->
  searchRadii
    (queryRadius B W lat lng cutoffStr (Property.apn p) limit)
    (radiiToTry radius) [] radius
  = inr (records, used) ->
  discovered B W radius monthsBack limit s = records.
Proof.
  intros Hp Hlat Hlng Ht Hd Hs. unfold discovered.
  rewrite Hp, Hlat, Hlng, Ht, Hd, Hs. reflexivity.
Qed.

(** X13.  The report of find-comps.  Whenever find-comps is answered with
    the workspace widget, the widget shows the property and the comparables
    of the state it leaves.  The strength it shows is the one manage-comps
    reports for that state (scored against the mean price of the included
    comparables) when the search found a record, or when no comparable is
    included; after a search that found nothing it is scored against the
    stored estimate, whatever is included. *)
Theorem find_comps_report (B : Builtins) (W : World)
    (radius monthsBack limit : float) (s : AppState)
    (props : CompWorkspaceProps) (output : Content) :
  fst (find_comps B W radius monthsBack limit s)
  = widgetCompWorkspace props output ->
  let s' := snd (find_comps B W radius monthsBack limit s) in
  cw_property props = property s'
  /\ cw_comps props = comps s'
  /\ (discovered B W radius monthsBack limit s <> []
      \/ includedComps s = [] ->
      cw_caseStrength props = workspaceStrength s')
  /\ (discovered B W radius monthsBack limit s = [] ->
      s' = s
      /\ exists p,
           property s = Some p
           /\ cw_caseStrength props
              = calculateCaseStrength (Property.assessedValue p)
                  (Property.estimatedMarketValue p)).
Proof.
  unfold find_comps.
  destruct (property s) as [p|] eqn:Hp; [|discriminate].
  destruct (Property.lat p) as [lat|] eqn:Hlat; [|discriminate].
  destruct (Property.lng p) as [lng|] eqn:Hlng; [|discriminate].
  destruct (truthyNumber lat && truthyNumber lng) eqn:Ht; [|discriminate].
  destruct (cutoffDate W monthsBack) as [e|cutoffStr] eqn:Hd; [discriminate|].
  destruct (searchRadii _ _ _ _) as [e|[records used]] eqn:Hs; [discriminate|].
  rewrite (discovered_records B W radius monthsBack limit s p lat lng
             cutoffStr records used Hp Hlat Hlng Ht Hd Hs).
  destruct records as [|rec records].
  - cbn [length Nat.eqb fst snd]. intros [= <- _]. cbn.
    split; [symmetry; exact Hp|]. split; [reflexivity|]. split.
    + intros [H|H]; [contradiction|].
      unfold workspaceStrength. rewrite Hp, H. reflexivity.
    + intros _. split; [reflexivity|]. exists p. split; reflexivity.
  - cbn [length Nat.eqb fst snd]. intros [= <- _].
    cbn [cw_property cw_comps cw_caseStrength].
    split; [reflexivity|]. split; [reflexivity|]. split; [|discriminate].
    intros _. unfold workspaceStrength. cbn [property]. reflexivity.
Qed.

Lemma find_comps_report_witness :
  exists props output,
    fst (find_comps Sample.builtins
           (Sample.world 0 [Example.row (Some "0595150"%string) "600000" "300000"])
           0.5 24 15 Example.case)
    = widgetCompWorkspace props output
    /\ cw_caseStrength props = medium.
Proof.
  eexists. eexists. split; [reflexivity|].
  destruct (find_comps_report Sample.builtins
              (Sample.world 0 [Example.row (Some "0595150"%string) "600000" "300000"])
              0.5 24 15 Example.case _ _ eq_refl) as (_ & _ & H & _).
  rewrite H; [reflexivity|]. left. discriminate.
Defined.

(** ** check-eligibility and the filing window *)

Lemma advice_distinct :
  adviceAtOrAbove <> adviceClosed /\ adviceAtOrAbove <> adviceEligible
  /\ adviceAtOrAbove <> adviceNotEligible /\ adviceEligible <> adviceClosed
  /\ adviceEligible <> adviceNotEligible /\ adviceClosed <> adviceNotEligible.
Proof.
  repeat split; intros H; apply String.eqb_eq in H; vm_compute in H;
    discriminate.
Qed.

(** X14.  check-eligibility never finds a property type not eligible:
    every type the request can carry is in the list of eligible types, so
    the second line of the answer reads Eligible and the advice is never
    the not-eligible one.  The advice is the closed-window one outside the
    filing window, whatever the values; inside it, the at-or-above one when
    the estimate is not below the assessed value, and then the strength
    printed is WEAK; otherwise the eligible one.  The state is unchanged
    and the answer is never an error. *)
Theorem check_eligibility_advice (B : Builtins) (W : World)
    (propertyType : PropertyType) (assessedValue estimatedMarketValue : float)
    (s : AppState) :
  (0 <? assessedValue)%float = true ->
  let windowOpen := isFilingWindowOpen (Date_month W) (Date_day W) in
  let advice := eligibilityAdvice W propertyType assessedValue
                  estimatedMarketValue in
  let lines := eligibilityLines B W propertyType assessedValue
                 estimatedMarketValue in
  check_eligibility B W propertyType assessedValue estimatedMarketValue s
  = (reply (markdown (Str.join nl (lines ++ [advice]))), s)
  /\ lines !! 1
     = Some ("**Property Type:** " +:+ PropertyType_toString propertyType
               +:+ " — Eligible")%string
  /\ advice <> adviceNotEligible
  /\ (windowOpen = false -> advice = adviceClosed)
  /\ (windowOpen = true ->
      (advice = adviceAtOrAbove <->
       (assessedValue <=? estimatedMarketValue)%float = true)
      /\ (advice = adviceEligible <->
          (assessedValue <=? estimatedMarketValue)%float = false))
  /\ (advice = adviceAtOrAbove ->
      lines !! 6 = Some ("**Case Strength:** WEAK" +:+ nl)%string).
Proof.
  intros Ha windowOpen advice lines.
  destruct advice_distinct as (Hac & Hae & Han & Hec & Hen & Hcn).
  assert (Hel : Text.has ELIGIBLE_TYPES (PropertyType_toString propertyType)
                = true) by (destruct propertyType; reflexivity).
  assert (Hadv : advice
                 = if negb windowOpen then adviceClosed
                   else if (assessedValue <=? estimatedMarketValue)%float
                        then adviceAtOrAbove else adviceEligible).
  { subst advice. unfold eligibilityAdvice. rewrite Hel. reflexivity. }
  split; [reflexivity|]. split.
  { subst lines. unfold eligibilityLines. rewrite Hel. reflexivity. }
  clearbody advice windowOpen. subst advice.
  split.
  { destruct windowOpen; cbn [negb];
      [destruct (_ <=? _)%float|]; congruence. }
  split. { intros ->. reflexivity. }
  split.
  { intros ->. cbn [negb].
    destruct (_ <=? _)%float; split; split; congruence. }
  intros Hadv. destruct windowOpen; cbn [negb] in Hadv; [|congruence].
  destruct (assessedValue <=? estimatedMarketValue)%float eqn:Hle;
    [|congruence].
  subst lines. unfold eligibilityLines. cbn [lookup list_lookup].
  unfold calculateCaseStrength.
  pose proof (gap_not_above_five _ _ Ha Hle) as H5. unfold gapPercent in H5.
  assert (H15 : (15 <=? (assessedValue - estimatedMarketValue)
                          / assessedValue * 100)%float = false).
  { destruct (15 <=? _)%float eqn:H15; [|reflexivity].
    exfalso. revert H5 H15.
    generalize ((assessedValue - estimatedMarketValue) / assessedValue * 100)%float.
    intros g H5 H15. float_order. }
  rewrite H15, H5. reflexivity.
Qed.

Lemma check_eligibility_advice_witness :
  eligibilityAdvice (Sample.world 0 []) condo 500000 520000 = adviceAtOrAbove
  /\ eligibilityLines Sample.builtins (Sample.world 0 []) condo 500000 520000
       !! 6
     = Some ("**Case Strength:** WEAK" +:+ nl)%string.
Proof.
  destruct (check_eligibility_advice Sample.builtins (Sample.world 0 [])
              condo 500000 520000 initialState eq_refl)
    as (_ & _ & _ & _ & _ & H).
  split; [reflexivity|]. apply H. reflexivity.
Defined.

(** X15.  The filing window on the calendar: for a date of the calendar,
    [isFilingWindowOpen] holds exactly from the second day of the year to
    31 March, the 90th day of the year (the 91st in a leap year); it is
    closed on 1 January and from 1 April on. *)
Theorem filing_window_calendar (leap : bool) (month day : nat) :
  validDate leap month day ->
  (isFilingWindowOpen month day = true <->
   2 <= dayOfYear leap month day <= (if leap then 91 else 90))
  /\ (isFilingWindowOpen month day = true <->
      (month = 0 /\ 2 <= day) \/ month = 1 \/ month = 2).
Proof.
  intros [Hm Hd]. unfold isFilingWindowOpen, dayOfYear.
  assert (Hcases : month = 0 \/ month = 1 \/ month = 2 \/ 3 <= month) by lia.
  destruct Hcases as [->|[->|[->|Hlate]]].
  - destruct (Nat.leb_spec 2 day), leap; cbn in Hd |- *;
      intuition (try discriminate; try lia).
  - destruct leap; cbn in Hd |- *; intuition (try discriminate; try lia).
  - destruct leap; cbn in Hd |- *; intuition (try discriminate; try lia).
  - do 3 (destruct month as [|month]; [lia|]).
    do 9 (destruct month as [|month];
          [destruct leap; cbn in Hd |- *;
           intuition (try discriminate; try lia)|]).
    lia.
Qed.

Lemma filing_window_calendar_witness :
  isFilingWindowOpen 2 31 = true /\ dayOfYear false 2 31 = 90.
Proof.
  assert (Hvalid : validDate false 2 31) by (unfold validDate; cbn; lia).
  split; [|reflexivity].
  apply (proj1 (filing_window_calendar false 2 31 Hvalid)).
  cbn. lia.
Defined.

(** ** lookup-property *)

Lemma lookupQuery_parcel (W : World) (address block lot : option string) :
  namesParcel block lot = true ->
  exists b l,
    block = Some b /\ lot = Some l
    /\ lookupQuery W address block lot
       = inr (querySFData W (Search.blockLotWhereClause b l) None 5 None).
Proof.
  unfold namesParcel, lookupQuery.
  destruct block as [b|]; [|discriminate].
  destruct lot as [l|]; [|rewrite Bool.andb_false_r; discriminate].
  cbn [truthyOpt]. intros ->. exists b, l. repeat split.
Qed.


(** *** A property looked up without an estimate *)

Section SelfGap.

Local Open Scope Z_scope.

Lemma sub_self (x : spec_float) : zeroOrNaN (SF64sub x x).
Proof.
  destruct x as [[]|[]| |s m e]; try exact I.
  unfold SF64sub, SFsub. rewrite Z.sub_diag. exact I.
Qed.

Lemma div_zeroOrNaN (x y : spec_float) :
  zeroOrNaN x -> zeroOrNaN (SF64div x y).
Proof.
  destruct x as [sx|sx| |sx mx ex]; try contradiction; intros _;
    destruct y as [sy|sy| |sy my ey]; exact I.
Qed.

Lemma mul_zeroOrNaN (x : spec_float) (m : positive) (e : Z) :
  zeroOrNaN x -> zeroOrNaN (SF64mul x (S754_finite false m e)).
Proof. destruct x; try contradiction; intros _; exact I. Qed.

Lemma leb_zeroOrNaN (m : positive) (e : Z) (x : spec_float) :
  zeroOrNaN x -> SFleb (S754_finite false m e) x = false.
Proof. destruct x; try contradiction; intros _; reflexivity. Qed.

End SelfGap.

(** A reference value equal to the assessed value scores weak, whatever
    the value is. *)
Lemma self_scores_weak (a : float) : calculateCaseStrength a a = weak.
Proof.
  unfold calculateCaseStrength.
  assert (H : zeroOrNaN (Prim2SF ((a - a) / a * 100)%float)).
  { rewrite mul_spec, div_spec, sub_spec.
    change (Prim2SF 100) with (S754_finite false 7036874417766400 (-46)).
    apply mul_zeroOrNaN, div_zeroOrNaN, sub_self. }
  rewrite !leb_spec.
  change (Prim2SF 15) with (S754_finite false 8444249301319680 (-49)).
  change (Prim2SF 5) with (S754_finite false 5629499534213120 (-50)).
  rewrite !leb_zeroOrNaN by exact H. reflexivity.
Qed.

(** X17.  A property looked up without an estimate of the owner carries
    its assessed value as estimate and scores weak: the strength of the
    property against its own estimate is weak for every record of the
    feed, and so is the strength manage-comps reports for the case as long
    as no comparable is included. *)
Theorem lookup_without_estimate_scores_weak (rec : SFRecord)
    (l : list Comp.t) (a : option Argument.t) :
  let prop := recordToProperty rec None in
  Property.estimatedMarketValue prop = Property.assessedValue prop
  /\ calculateCaseStrength (Property.assessedValue prop)
       (Property.estimatedMarketValue prop) = weak
  /\ (List.filter Comp.included l = [] ->
      workspaceStrength (mkState (Some prop) l a) = weak).
Proof.
  cbv zeta. split; [reflexivity|]. split.
  - apply self_scores_weak.
  - intros Hnone. unfold workspaceStrength, includedComps.
    cbn [property comps]. rewrite Hnone. cbn [length Nat.ltb Nat.leb].
    apply self_scores_weak.
Qed.

(** *** The property type of a record *)

Lemma lower_upper (c : ascii) : Text.lower (Str.upper c) = Text.lower c.
Proof. destruct c as [[] [] [] [] [] [] [] []]; reflexivity. Qed.

Lemma lower_lower (c : ascii) : Text.lower (Text.lower c) = Text.lower c.
Proof. destruct c as [[] [] [] [] [] [] [] []]; reflexivity. Qed.

Lemma toLowerCase_toUpperCase (s : string) :
  Text.toLowerCase (Str.toUpperCase s) = Text.toLowerCase s.
Proof.
  induction s as [|c s IH]; [reflexivity|].
  cbn [Str.toUpperCase Text.toLowerCase]. rewrite lower_upper, IH.
  reflexivity.
Qed.

Lemma toLowerCase_idempotent (s : string) :
  Text.toLowerCase (Text.toLowerCase s) = Text.toLowerCase s.
Proof.
  induction s as [|c s IH]; [reflexivity|].
  cbn [Text.toLowerCase]. rewrite lower_lower, IH. reflexivity.
Qed.

(** X18.  The property type read from the class of a record, for a class
    written in ASCII: it does not depend on the case of the letters; a
    class that mentions condominium is read as live-work when it also
    mentions live/work and as condo otherwise, whatever else it mentions
    (town house, coop); and a record without a class is a single-family
    home. *)
Theorem mapPropertyType_reading (classDef : string) :
  Text.isAscii classDef = true ->
  mapPropertyType (Some (Str.toUpperCase classDef))
  = mapPropertyType (Some classDef)
  /\ mapPropertyType (Some (Text.toLowerCase classDef))
     = mapPropertyType (Some classDef)
  /\ (Text.includes (Text.toLowerCase classDef) "condominium" = true ->
      mapPropertyType (Some classDef)
      = if Text.includes (Text.toLowerCase classDef) "live/work"
        then live_work else condo)
  /\ mapPropertyType None = sfh.
Proof.
  intros _.
  cbv beta iota zeta delta [mapPropertyType from_option id].
  rewrite toLowerCase_toUpperCase, toLowerCase_idempotent.
  split; [reflexivity|]. split; [reflexivity|]. split; [|reflexivity].
  intros ->. destruct (Text.includes _ "live/work"); reflexivity.
Qed.

Lemma mapPropertyType_reading_witness :
  mapPropertyType (Some "TOWN HOUSE, CONDOMINIUM"%string)
  = mapPropertyType (Some "Town House, Condominium"%string)
  /\ mapPropertyType (Some "Town House, Condominium"%string) = condo.
Proof.
  destruct (mapPropertyType_reading "Town House, Condominium" eq_refl)
    as (Hupper & _ & Hcondo & _).
  split; [exact Hupper|]. apply Hcondo. reflexivity.
Defined.

(** *** The search words of an address *)

Lemma substring_drop (n : nat) (s : string) :
  (substring 0 n s +:+ Str.drop n s)%string = s.
Proof.
  revert s. induction n as [|n IH]; intros [|c s]; try reflexivity.
  cbn [substring Str.drop].
  change (String c (substring 0 n s +:+ Str.drop n s) = String c s).
  rewrite IH. reflexivity.
Qed.

Lemma startsWith_drop (lit s : string) :
  Text.startsWith lit s = true ->
  s = (lit +:+ Str.drop (String.length lit) s)%string.
Proof.
  revert s. induction lit as [|a lit IH]; intros s H.
  - destruct s; reflexivity.
  - destruct s as [|b s]; [discriminate|]. cbn [Text.startsWith] in H.
    apply Bool.andb_true_iff in H as [Hab H].
    apply Ascii.eqb_eq in Hab. subst b.
    cbn [String.length Str.drop].
    change (String a s = String a (lit +:+ Str.drop (String.length lit) s)).
    f_equal. apply IH, H.
Qed.

Lemma drop_add (n m : nat) (s : string) :
  Str.drop (n + m) s = Str.drop m (Str.drop n s).
Proof.
  revert s. induction n as [|n IH]; intros s.
  - destruct s; reflexivity.
  - destruct s as [|c s]; cbn [Nat.add Str.drop].
    + destruct m; reflexivity.
    + apply IH.
Qed.

Lemma ordinalSuffix_startsWith (toks : list string) (s tok : string) :
  Search.ordinalSuffix toks s = Some tok -> Text.startsWith tok s = true.
Proof.
  induction toks as [|t toks IH]; [discriminate|].
  cbn [Search.ordinalSuffix]. unfold Text.literalThenBoundary.
  destruct (Text.startsWith t s) eqn:Ht; cbn [andb].
  - destruct (Text.wordBoundary _ _); [|exact IH].
    intros [= <-]. exact Ht.
  - exact IH.
Qed.

Lemma ordinalDigits_replaces (n : nat) (s r : string) (len : nat) :
  Search.ordinalDigits n s = Some (len, r) ->
  (r +:+ Str.drop len s)%string = s.
Proof.
  induction n as [|n IH]; [discriminate|].
  cbn [Search.ordinalDigits].
  destruct (Search.ordinalSuffix _ _) as [tok|] eqn:Htok; [|exact IH].
  intros [= <- <-]. apply ordinalSuffix_startsWith, startsWith_drop in Htok.
  change (S (n + String.length tok)) with (S n + String.length tok).
  rewrite drop_add, append_assoc, <- Htok. apply substring_drop.
Qed.

Lemma replace_ordinals (skip : nat) (before : option ascii) (s : string) :
  Text.replaceAll Search.ordinalAt skip before s = Str.drop skip s.
Proof.
  revert skip before. induction s as [|c s IH]; intros skip before.
  - destruct skip; reflexivity.
  - cbn [Text.replaceAll]. destruct skip as [|k].
    + destruct (Search.ordinalAt before (String c s)) as [[[|k] r]|] eqn:Hm.
      * rewrite IH. reflexivity.
      * rewrite IH. unfold Search.ordinalAt in Hm.
        apply ordinalDigits_replaces in Hm. exact Hm.
      * rewrite IH. reflexivity.
    + rewrite IH. reflexivity.
Qed.

Lemma splitFrom_fields (inRun : bool) (s : string) :
  Forall (fun w => noWhiteSpace w = true) (Text.splitFrom inRun s).
Proof.
  revert inRun. induction s as [|c s IH]; intros inRun.
  - repeat constructor.
  - cbn [Text.splitFrom]. destruct (Str.isWhiteSpace c) eqn:Hc.
    + destruct inRun; [apply IH|]. constructor; [reflexivity|apply IH].
    + specialize (IH false). destruct (Text.splitFrom false s) as [|w ws].
      * repeat constructor. cbn. rewrite Hc. reflexivity.
      * apply Forall_cons in IH as [Hw Hws]. constructor; [|exact Hws].
        cbn. rewrite Hc, Hw. reflexivity.
Qed.

(** X19.  The search words of lookup-property.  The step that rewrites
    ordinals (20TH, 3RD) replaces each of them by itself, so it changes
    nothing: the address is put in upper case, loses the characters #, .
    and , and is trimmed.  Every word the conditions of the query are made
    of is not empty, holds no white space and is none of the generic street
    suffixes; without such a word the request is refused before the feed
    is asked. *)
Theorem lookup_search_words (W : World) (address : string) :
  (forall before s, Text.replaceAll Search.ordinalAt 0 before s = s)
  /\ Search.normalize address
     = Str.trim (Search.removePunctuation (Str.toUpperCase address))
  /\ Forall
       (fun w =>
          w <> ""%string /\ noWhiteSpace w = true
          /\ Text.has Search.SUFFIXES w = false)
       (Search.searchWords address)
  /\ (Search.searchWords address = [] ->
      lookupQuery W (Some address) None None
      = inl "Could not parse a searchable address. Try '560 20TH' or provide block/lot."%string).
Proof.
  split; [|split; [|split]].
  - intros before s. rewrite replace_ordinals. destruct s; reflexivity.
  - unfold Search.normalize. rewrite replace_ordinals.
    destruct (Search.removePunctuation _); reflexivity.
  - unfold Search.searchWords, Search.wordsOf. apply Forall_forall.
    intros w Hw. apply list_elem_of_In, List.filter_In in Hw as [Hw Hok].
    apply Bool.andb_true_iff in Hok as [Hlen Hsuf].
    split; [|split].
    + intros ->. discriminate.
    + pose proof (splitFrom_fields false
                    (Search.clean (Search.normalize address))) as H.
      rewrite Forall_forall in H. apply H, list_elem_of_In, Hw.
    + apply Bool.negb_true_iff. exact Hsuf.
  - intros H. unfold lookupQuery. cbn [from_option]. unfold id.
    rewrite H. reflexivity.
Qed.

(** ** The address normalizer: spacing *)

Lemma collapse_loose (b : bool) (s : string) :
  looseFrom b (Str.collapseFrom b s) = true.
Proof.
  revert b. induction s as [|c s IH]; intros b; [reflexivity|].
  cbn [Str.collapseFrom]. destruct (Str.isWhiteSpace c) eqn:Hc.
  - destruct b; [apply IH|]. cbn. apply IH.
  - cbn [looseFrom]. rewrite Hc. apply IH.
Qed.

Lemma loose_trimStart (b : bool) (s : string) :
  looseFrom b s = true -> looseFrom true (Str.trimStart s) = true.
Proof.
  revert b. induction s as [|c s IH]; intros b H; [reflexivity|].
  cbn [Str.trimStart looseFrom] in *. destruct (Str.isWhiteSpace c) eqn:Hc.
  - apply Bool.andb_true_iff in H as [_ H]. apply (IH true H).
  - cbn [looseFrom]. rewrite Hc. exact H.
Qed.

Lemma spaced_cons (b : bool) (c : ascii) (u : string) :
  spacedFrom b (String c u)
  = if Str.isWhiteSpace c then
      Ascii.eqb c " " && negb b
      && match u with EmptyString => false | _ => true end
      && spacedFrom true u
    else spacedFrom false u.
Proof. reflexivity. Qed.

Lemma loose_trimEnd (b : bool) (s : string) :
  looseFrom b s = true -> spacedFrom b (Str.trimEnd s) = true.
Proof.
  revert b. induction s as [|c s IH]; intros b H; [reflexivity|].
  cbn [Str.trimEnd looseFrom] in *. destruct (Str.isWhiteSpace c) eqn:Hc.
  - apply Bool.andb_true_iff in H as [H Hs].
    specialize (IH true Hs).
    destruct (Str.trimEnd s) as [|d t]; [reflexivity|].
    rewrite spaced_cons, Hc, H, IH. reflexivity.
  - specialize (IH false H).
    destruct (Str.trimEnd s) as [|d t]; rewrite spaced_cons, Hc;
      [reflexivity|exact IH].
Qed.

Lemma collapsed_spaced (s : string) :
  singleSpaced (Str.trim (Str.collapseWhiteSpace s)) = true.
Proof.
  unfold singleSpaced, Str.trim, Str.collapseWhiteSpace.
  apply loose_trimEnd, (loose_trimStart false), collapse_loose.
Qed.

Lemma spaced_weaken (s : string) :
  spacedFrom true s = true -> spacedFrom false s = true.
Proof.
  destruct s as [|c s]; [reflexivity|]. cbn [spacedFrom].
  destruct (Str.isWhiteSpace c); [|trivial].
  rewrite Bool.andb_false_r. discriminate.
Qed.

Lemma spaced_drop (k : nat) (b : bool) (s : string) :
  spacedFrom b s = true -> spacedFrom false (Str.drop k s) = true.
Proof.
  revert b s. induction k as [|k IH]; intros b s H.
  - destruct s; cbn [Str.drop]; destruct b; auto using spaced_weaken.
  - destruct s as [|c s]; [reflexivity|]. cbn [Str.drop spacedFrom] in *.
    destruct (Str.isWhiteSpace c).
    + apply Bool.andb_true_iff in H as [_ H]. apply (IH true s H).
    + apply (IH false s H).
Qed.

Lemma spaced_head (s : string) :
  spacedFrom false s = true -> headSolid s = true -> spacedFrom true s = true.
Proof.
  destruct s as [|c s]; [discriminate|]. cbn [spacedFrom headSolid].
  destruct (Str.isWhiteSpace c); [discriminate|trivial].
Qed.

Lemma zeroRun_drop (s : string) (n : nat) :
  n < Address.zeroRun s ->
  exists rest, Str.drop n s = String "0" rest.
Proof.
  revert n. induction s as [|c s IH]; intros n H; [cbn in H; lia|].
  cbn [Address.zeroRun] in H. destruct (Ascii.eqb c "0") eqn:Hc; [|lia].
  apply Ascii.eqb_eq in Hc. subst c.
  destruct n as [|n]; [exists s; reflexivity|].
  cbn [Str.drop]. apply IH. lia.
Qed.

Lemma isDigit_solid (c : ascii) :
  Str.isDigit c = true -> Str.isWhiteSpace c = false.
Proof.
  unfold Str.isDigit, Str.isWhiteSpace.
  destruct (Nat.leb_spec 48 (Str.code c)); [|discriminate]. intros _.
  destruct (Nat.eqb_spec (Str.code c) 32); [lia|].
  destruct (Nat.leb_spec (Str.code c) 13); [lia|].
  rewrite Bool.andb_false_r. reflexivity.
Qed.

Lemma stripZeroPrefix_spaced (s : string) :
  singleSpaced s = true -> singleSpaced (Address.stripZeroPrefix s) = true.
Proof.
  unfold singleSpaced, Address.stripZeroPrefix. intros H.
  destruct (Address.zeroRun s) as [|k] eqn:Hz; [exact H|].
  assert (Hlast : match k with O => s | S _ => Str.drop k s end = s
                  \/ exists rest, match k with O => s | S _ => Str.drop k s end
                                  = String "0" rest /\
                                  match k with O => s | S _ => Str.drop k s end
                                  = Str.drop k s).
  { destruct k as [|k]; [left; reflexivity|]. right.
    destruct (zeroRun_drop s (S k)) as [rest Hr]; [lia|].
    exists rest. split; [exact Hr|reflexivity]. }
  assert (Hkeep : spacedFrom true match k with O => s | S _ => Str.drop k s end
                  = true).
  { destruct Hlast as [->|(rest & Hr & Hd)]; [exact H|].
    apply spaced_head; [rewrite Hd; apply (spaced_drop k true), H|].
    rewrite Hr. reflexivity. }
  destruct (Str.drop (S k) s) as [|c r] eqn:Hd; [exact Hkeep|].
  destruct (Str.isDigit c) eqn:Hc; [|exact Hkeep].
  apply spaced_head.
  - rewrite <- Hd. apply (spaced_drop (S k) true), H.
  - cbn. rewrite (isDigit_solid c Hc). reflexivity.
Qed.

Lemma lastSolid_cons (c : ascii) (u : string) :
  u <> ""%string -> lastSolid (String c u) = lastSolid u.
Proof. destruct u; [contradiction|reflexivity]. Qed.

Lemma collapse_nonempty (b : bool) (x : string) :
  lastSolid x = true -> Str.collapseFrom b x <> ""%string.
Proof.
  revert b. induction x as [|c x IH]; intros b H; [discriminate|].
  cbn [Str.collapseFrom]. destruct (Str.isWhiteSpace c) eqn:Hc;
    [|discriminate].
  destruct b; [|discriminate]. apply IH.
  destruct x as [|d x]; [cbn in H; rewrite Hc in H; discriminate|exact H].
Qed.

Lemma collapse_spaced (b : bool) (x : string) :
  lastSolid x = true -> spacedFrom b (Str.collapseFrom b x) = true.
Proof.
  revert b. induction x as [|c x IH]; intros b H; [discriminate|].
  cbn [Str.collapseFrom]. destruct (Str.isWhiteSpace c) eqn:Hc.
  - assert (Hx : lastSolid x = true).
    { destruct x as [|d x]; [cbn in H; rewrite Hc in H; discriminate|exact H]. }
    destruct b; [apply IH, Hx|].
    rewrite spaced_cons. cbn. rewrite (IH true Hx).
    pose proof (collapse_nonempty true x Hx) as Hne.
    destruct (Str.collapseFrom true x); [contradiction|reflexivity].
  - rewrite spaced_cons, Hc. destruct x as [|d x]; [reflexivity|].
    apply IH. exact H.
Qed.

Lemma collapse_lastSolid (b : bool) (x : string) :
  lastSolid x = true -> lastSolid (Str.collapseFrom b x) = true.
Proof.
  revert b. induction x as [|c x IH]; intros b H; [discriminate|].
  cbn [Str.collapseFrom]. destruct (Str.isWhiteSpace c) eqn:Hc.
  - assert (Hx : lastSolid x = true).
    { destruct x as [|d x]; [cbn in H; rewrite Hc in H; discriminate|exact H]. }
    destruct b; [apply IH, Hx|].
    rewrite lastSolid_cons by (apply collapse_nonempty, Hx). apply IH, Hx.
  - destruct x as [|d x]; [cbn; rewrite Hc; reflexivity|].
    rewrite lastSolid_cons by (apply collapse_nonempty, H). apply IH, H.
Qed.

Lemma collapse_headSolid (x : string) :
  headSolid x = true -> headSolid (Str.collapseFrom false x) = true.
Proof.
  destruct x as [|c x]; [discriminate|]. cbn [headSolid Str.collapseFrom].
  destruct (Str.isWhiteSpace c) eqn:Hc; [discriminate|].
  intros _. cbn. rewrite Hc. reflexivity.
Qed.

Lemma headSolid_append (a b : string) :
  headSolid a = true -> headSolid (a +:+ b) = true.
Proof. destruct a; [discriminate|trivial]. Qed.

Lemma lastSolid_append (a b : string) :
  lastSolid b = true -> lastSolid (a +:+ b) = true.
Proof.
  intros H. induction a as [|c a IH]; [exact H|].
  change (lastSolid (String c (a +:+ b)) = true).
  rewrite lastSolid_cons; [exact IH|].
  destruct a; [destruct b; [discriminate H|discriminate]|discriminate].
Qed.

Lemma join_solid (parts : list string) :
  parts <> [] ->
  Forall (fun p => headSolid p = true /\ lastSolid p = true) parts ->
  headSolid (Str.join " " parts) = true
  /\ lastSolid (Str.join " " parts) = true.
Proof.
  induction parts as [|p parts IH]; [contradiction|]. intros _ H.
  apply Forall_cons in H as [[Hh Hl] H].
  destruct parts as [|q parts]; [split; assumption|].
  rewrite join_cons by discriminate.
  destruct (IH ltac:(discriminate) H) as [_ IHl].
  split; [apply headSolid_append, Hh|].
  apply lastSolid_append, lastSolid_append, IHl.
Qed.

Lemma trimEnd_lastSolid (t : string) :
  Str.trimEnd t = ""%string \/ lastSolid (Str.trimEnd t) = true.
Proof.
  induction t as [|c t IH]; [left; reflexivity|]. cbn [Str.trimEnd].
  destruct (Str.trimEnd t) as [|d r] eqn:Ht.
  - destruct (Str.isWhiteSpace c) eqn:Hc; [left; reflexivity|].
    right. cbn. rewrite Hc. reflexivity.
  - right. destruct IH as [IH|IH]; [discriminate|].
    rewrite lastSolid_cons by discriminate. exact IH.
Qed.

Lemma trimEnd_headSolid (t : string) :
  headSolid t = true -> headSolid (Str.trimEnd t) = true.
Proof.
  destruct t as [|c t]; [discriminate|]. cbn [headSolid Str.trimEnd].
  intros Hc. destruct (Str.trimEnd t); [|exact Hc].
  apply Bool.negb_true_iff in Hc. rewrite Hc. cbn. rewrite Hc. reflexivity.
Qed.

Lemma trimStart_headSolid (s : string) :
  Str.trimStart s = ""%string \/ headSolid (Str.trimStart s) = true.
Proof.
  induction s as [|c s IH]; [left; reflexivity|]. cbn [Str.trimStart].
  destruct (Str.isWhiteSpace c) eqn:Hc; [exact IH|].
  right. cbn. rewrite Hc. reflexivity.
Qed.

Lemma trim_solid (s : string) :
  Str.trim s = ""%string
  \/ (headSolid (Str.trim s) = true /\ lastSolid (Str.trim s) = true).
Proof.
  unfold Str.trim. destruct (trimStart_headSolid s) as [->|Hh];
    [left; reflexivity|].
  pose proof (trimEnd_headSolid _ Hh) as Hh'.
  destruct (trimEnd_lastSolid (Str.trimStart s)) as [He|Hl].
  - rewrite He in Hh'. discriminate.
  - right. split; assumption.
Qed.

Lemma noWhiteSpace_solid (s : string) :
  noWhiteSpace s = true -> s <> ""%string ->
  headSolid s = true /\ lastSolid s = true.
Proof.
  intros H Hne. split.
  - destruct s as [|c s]; [contradiction|]. cbn in *.
    apply Bool.andb_true_iff in H as [H _]. exact H.
  - induction s as [|c s IH]; [contradiction|]. cbn [noWhiteSpace] in H.
    apply Bool.andb_true_iff in H as [Hc H].
    destruct s as [|d s]; [exact Hc|].
    rewrite lastSolid_cons by discriminate. apply IH; [exact H|discriminate].
Qed.

Lemma string_of_uint_noWhiteSpace (d : Decimal.uint) :
  noWhiteSpace (NilEmpty.string_of_uint d) = true.
Proof. induction d; cbn; auto. Qed.

Lemma stringOfN_solid (n : N) :
  headSolid (Address.stringOfN n) = true
  /\ lastSolid (Address.stringOfN n) = true.
Proof.
  unfold Address.stringOfN, NilZero.string_of_uint.
  destruct (N.to_uint n) eqn:Hd; [split; reflexivity|..];
    (apply noWhiteSpace_solid;
     [apply string_of_uint_noWhiteSpace|discriminate]).
Qed.

Lemma firstPositive_solid (nums : list string) :
  Address.firstPositive nums = ""%string
  \/ (headSolid (Address.firstPositive nums) = true
      /\ lastSolid (Address.firstPositive nums) = true).
Proof.
  induction nums as [|n nums IH]; [left; reflexivity|].
  cbn [Address.firstPositive]. cbv zeta.
  destruct (0 <? Address.parseInt10 n)%N; [|exact IH].
  right. apply stringOfN_solid.
Qed.

Lemma matchTokenCI_upper (tok s m r : string) :
  Str.matchTokenCI tok s = Some (m, r) ->
  Str.toUpperCase m = Str.toUpperCase tok.
Proof.
  revert s m r. induction tok as [|t tok IH]; intros s m r H.
  - cbn in H. injection H as <- _. reflexivity.
  - destruct s as [|c s]; [discriminate|]. cbn [Str.matchTokenCI] in H.
    destruct (Ascii.eqb (Str.upper t) (Str.upper c)) eqn:Hc; [|discriminate].
    destruct (Str.matchTokenCI tok s) as [[m' r']|] eqn:Hm; [|discriminate].
    injection H as <- _. apply Ascii.eqb_eq in Hc.
    cbn [Str.toUpperCase]. rewrite <- Hc, (IH _ _ _ Hm). reflexivity.
Qed.

Lemma matchSuffixAt_token (toks : list string) (s g2 g3 : string) :
  Address.matchSuffixAt toks s = Some (g2, g3) ->
  exists tok, tok ∈ toks /\ Str.toUpperCase g2 = Str.toUpperCase tok.
Proof.
  induction toks as [|tok toks IH]; [discriminate|].
  cbn [Address.matchSuffixAt].
  destruct (Str.matchTokenCI tok s) as [[m r]|] eqn:Hm.
  - destruct (Str.noLineTerminator _).
    + intros [= <- _]. exists tok. split; [constructor|].
      eapply matchTokenCI_upper. exact Hm.
    + intros H. destruct (IH H) as (t & Ht & Hu). exists t.
      split; [constructor; exact Ht|exact Hu].
  - intros H. destruct (IH H) as (t & Ht & Hu). exists t.
    split; [constructor; exact Ht|exact Hu].
Qed.

Lemma matchSuffixFrom_token (g1 rest a g2 g3 : string) :
  Address.matchSuffixFrom g1 rest = Some (a, g2, g3) ->
  exists tok,
    tok ∈ Address.suffixTokens /\ Str.toUpperCase g2 = Str.toUpperCase tok.
Proof.
  revert g1. induction rest as [|c rest IH]; intros g1;
    cbn [Address.matchSuffixFrom].
  - destruct (Address.matchSuffixAt _ _) as [[x y]|] eqn:Hm; [|discriminate].
    intros [= _ <- _]. eapply matchSuffixAt_token. exact Hm.
  - destruct (Address.matchSuffixAt _ _) as [[x y]|] eqn:Hm.
    + intros [= _ <- _]. eapply matchSuffixAt_token. exact Hm.
    + destruct (Str.isLineTerminator c); [discriminate|]. apply IH.
Qed.

Lemma suffix_solid (s g1 g2 g3 : string) :
  Address.suffixMatch s = Some (g1, g2, g3) ->
  headSolid (Str.toUpperCase g2) = true
  /\ lastSolid (Str.toUpperCase g2) = true.
Proof.
  unfold Address.suffixMatch. destruct s as [|c s]; [discriminate|].
  destruct (Str.isLineTerminator c); [discriminate|]. intros H.
  apply matchSuffixFrom_token in H as (tok & Htok & ->).
  revert tok Htok. apply Forall_forall.
  repeat constructor.
Qed.

Lemma filterTruthy_solid (l : list string) :
  Forall (fun p => p = ""%string
                   \/ (headSolid p = true /\ lastSolid p = true)) l ->
  Forall (fun p => headSolid p = true /\ lastSolid p = true)
    (Str.filterTruthy l).
Proof.
  induction 1 as [|p l Hp _ IH]; [constructor|].
  unfold Str.filterTruthy. cbn [List.filter].
  destruct p as [|c p]; [exact IH|]. cbn [truthyString].
  constructor; [|exact IH]. destruct Hp as [Hp|Hp]; [discriminate|exact Hp].
Qed.

Lemma isLetter_solid (c : ascii) :
  Str.isLetter c = true -> Str.isWhiteSpace c = false.
Proof.
  unfold Str.isLetter, Str.isUpper, Str.isLower, Str.isWhiteSpace.
  intros H.
  destruct (Nat.eqb_spec (Str.code c) 32) as [He|He].
  - rewrite He in H. discriminate.
  - destruct (Nat.leb_spec (Str.code c) 13) as [Hle|Hgt];
      [|rewrite Bool.andb_false_r; reflexivity].
    destruct (Nat.leb_spec 65 (Str.code c)); [lia|].
    destruct (Nat.leb_spec 97 (Str.code c)); [lia|]. discriminate.
Qed.

Lemma keepAlnum_noWhiteSpace (s : string) :
  noWhiteSpace (Address.keepAlnum s) = true.
Proof.
  induction s as [|c s IH]; [reflexivity|]. cbn [Address.keepAlnum].
  destruct (Str.isLetter c || Str.isDigit c) eqn:Hc; [|exact IH].
  cbn [noWhiteSpace]. rewrite IH, Bool.andb_true_r.
  apply Bool.negb_true_iff.
  apply Bool.orb_true_iff in Hc as [Hc|Hc];
    [apply isLetter_solid|apply isDigit_solid]; exact Hc.
Qed.

Lemma noWhiteSpace_spaced (b : bool) (w : string) :
  noWhiteSpace w = true -> spacedFrom b w = true.
Proof.
  revert b. induction w as [|c w IH]; intros b H; [reflexivity|].
  cbn [noWhiteSpace] in H. apply Bool.andb_true_iff in H as [Hc H].
  apply Bool.negb_true_iff in Hc. rewrite spaced_cons, Hc. apply IH, H.
Qed.

Lemma spaced_append_word (b : bool) (a w : string) :
  spacedFrom b a = true -> lastSolid a = true ->
  noWhiteSpace w = true -> w <> ""%string ->
  spacedFrom b (a +:+ " " +:+ w) = true.
Proof.
  intros Ha Hl Hw Hne. revert b Ha. induction a as [|c a IH]; intros b Ha;
    [discriminate|].
  change (spacedFrom b (String c (a +:+ " " +:+ w)) = true).
  rewrite spaced_cons. rewrite spaced_cons in Ha.
  destruct a as [|d a].
  - cbn in Hl. apply Bool.negb_true_iff in Hl. rewrite Hl.
    change (spacedFrom false (String " " w) = true).
    rewrite spaced_cons. cbn.
    rewrite (noWhiteSpace_spaced true w Hw).
    destruct w; [contradiction|reflexivity].
  - rewrite lastSolid_cons in Hl by discriminate.
    destruct (Str.isWhiteSpace c).
    + apply Bool.andb_true_iff in Ha as [Ha Hs].
      rewrite (IH Hl true Hs).
      apply Bool.andb_true_iff in Ha as [Ha _]. rewrite Ha. reflexivity.
    + apply (IH Hl false Ha).
Qed.

(** X20.  Whatever the raw text, the address the normalizer returns holds
    white space only as single spaces between two other characters: no
    space at either end, no double space, no tab or line break. *)
Theorem parseAddress_spacing (raw : string) :
  singleSpaced (Address.parseAddress raw) = true.
Proof.
  unfold Address.parseAddress. cbv zeta.
  set (collapsed := Str.trim (Str.collapseWhiteSpace (Str.trim raw))).
  destruct (Address.suffixMatch collapsed) as [[[g1 g2] g3]|] eqn:Hm.
  - set (streetNum := Address.firstPositive (Address.digitGroups 0 g1)).
    set (streetName :=
           Str.trim (Address.stripJunk
                       (Str.trim (Address.removeDigitGroups 0 g1)))).
    set (suffix := Str.toUpperCase g2).
    set (parts := Str.filterTruthy [streetNum; streetName; suffix]).
    set (unit := Address.keepAlnum _).
    pose proof (suffix_solid _ _ _ _ Hm) as Hsuffix. fold suffix in Hsuffix.
    assert (Hparts : Forall (fun p => headSolid p = true /\ lastSolid p = true)
                       parts).
    { apply filterTruthy_solid.
      constructor; [apply firstPositive_solid|].
      constructor; [apply trim_solid|].
      constructor; [right; exact Hsuffix|constructor]. }
    assert (Hne : parts <> []).
    { unfold parts.
      change [streetNum; streetName; suffix]
        with ([streetNum; streetName] ++ [suffix]).
      rewrite filterTruthy_app. intros H. apply app_eq_nil in H as [_ H].
      revert H. apply filterTruthy_head.
      destruct suffix; [destruct Hsuffix; discriminate|reflexivity]. }
    destruct (join_solid parts Hne Hparts) as [Hh Hl].
    set (base := Str.collapseWhiteSpace (Str.join " " parts)).
    assert (Hbase : spacedFrom true base = true).
    { apply spaced_head; [apply collapse_spaced, Hl|].
      apply collapse_headSolid, Hh. }
    assert (Hbl : lastSolid base = true) by apply collapse_lastSolid, Hl.
    destruct (truthyString unit) eqn:Hu; [|exact Hbase].
    unfold singleSpaced.
    change (spacedFrom true (base +:+ " " +:+ String "#" unit) = true).
    apply spaced_append_word; [exact Hbase|exact Hbl| |discriminate].
    cbn [noWhiteSpace]. apply keepAlnum_noWhiteSpace.
  - apply stripZeroPrefix_spaced, collapsed_spaced.
Qed.

(** ** The address normalizer: the documented format *)

Lemma pad4_checked (n : N) : (n < 10000)%N -> pad4Check n = true.
Proof.
  intros Hn.
  assert (Hall : forallb pad4Check (N.of_nat <$> seq 0 (100 * 100)) = true)
    by (vm_compute; reflexivity).
  rewrite forallb_forall in Hall. apply Hall.
  apply list_elem_of_In, list_elem_of_fmap. exists (N.to_nat n).
  split; [symmetry; apply N2Nat.id|].
  apply list_elem_of_In, in_seq. lia.
Qed.

Lemma append_cons (c : ascii) (a b : string) :
  (String c a +:+ b)%string = String c (a +:+ b).
Proof. reflexivity. Qed.

Lemma isLetter_not_digit (c : ascii) :
  Str.isLetter c = true -> Str.isDigit c = false.
Proof.
  unfold Str.isLetter, Str.isUpper, Str.isLower, Str.isDigit. intros H.
  destruct (Nat.leb_spec (Str.code c) 57); [|apply Bool.andb_false_r].
  destruct (Nat.leb_spec 65 (Str.code c)); [lia|].
  destruct (Nat.leb_spec 97 (Str.code c)); [lia|]. discriminate.
Qed.

Lemma isLetter_not_terminator (c : ascii) :
  Str.isLetter c = true -> Str.isLineTerminator c = false.
Proof.
  unfold Str.isLetter, Str.isUpper, Str.isLower, Str.isLineTerminator.
  intros H.
  destruct (Nat.eqb_spec (Str.code c) 10) as [He|_];
    [rewrite He in H; discriminate|].
  destruct (Nat.eqb_spec (Str.code c) 13) as [He|_];
    [rewrite He in H; discriminate|reflexivity].
Qed.

Lemma isDigit_not_terminator (c : ascii) :
  Str.isDigit c = true -> Str.isLineTerminator c = false.
Proof.
  unfold Str.isDigit, Str.isLineTerminator. intros H.
  destruct (Nat.eqb_spec (Str.code c) 10) as [He|_];
    [rewrite He in H; discriminate|].
  destruct (Nat.eqb_spec (Str.code c) 13) as [He|_];
    [rewrite He in H; discriminate|reflexivity].
Qed.

Lemma lettersOnly_noWhiteSpace (s : string) :
  lettersOnly s = true -> noWhiteSpace s = true.
Proof.
  induction s as [|c s IH]; [reflexivity|]. cbn [lettersOnly noWhiteSpace].
  intros H. apply Bool.andb_true_iff in H as [Hc H].
  rewrite (isLetter_solid c Hc), (IH H). reflexivity.
Qed.

(** *** Trimming and collapsing texts without white space *)

Lemma trimStart_solid (s : string) :
  headSolid s = true -> Str.trimStart s = s.
Proof.
  destruct s as [|c s]; [discriminate|]. cbn [headSolid Str.trimStart].
  intros H. apply Bool.negb_true_iff in H. rewrite H. reflexivity.
Qed.

Lemma trimEnd_solid (s : string) :
  lastSolid s = true -> Str.trimEnd s = s.
Proof.
  induction s as [|c s IH]; [discriminate|]. intros H.
  cbn [Str.trimEnd]. destruct s as [|d s].
  - cbn in H |- *. apply Bool.negb_true_iff in H. rewrite H. reflexivity.
  - rewrite lastSolid_cons in H by discriminate. rewrite (IH H). reflexivity.
Qed.

Lemma trim_solid_id (s : string) :
  headSolid s = true -> lastSolid s = true -> Str.trim s = s.
Proof.
  intros Hh Hl. unfold Str.trim. rewrite (trimStart_solid s Hh).
  apply trimEnd_solid, Hl.
Qed.

Lemma collapse_word (b : bool) (w rest : string) :
  noWhiteSpace w = true -> w <> ""%string ->
  Str.collapseFrom b (w +:+ rest) = (w +:+ Str.collapseFrom false rest)%string.
Proof.
  intros Hw Hne. revert b. induction w as [|c w IH]; intros b; [contradiction|].
  cbn [noWhiteSpace] in Hw. apply Bool.andb_true_iff in Hw as [Hc Hw].
  apply Bool.negb_true_iff in Hc.
  rewrite !append_cons. cbn [Str.collapseFrom]. rewrite Hc. f_equal.
  destruct w as [|d w]; [reflexivity|]. apply IH; [exact Hw|discriminate].
Qed.

Lemma collapse_plain (b : bool) (w : string) :
  noWhiteSpace w = true -> Str.collapseFrom b w = w.
Proof.
  revert b. induction w as [|c w IH]; intros b Hw; [reflexivity|].
  cbn [noWhiteSpace] in Hw. apply Bool.andb_true_iff in Hw as [Hc Hw].
  apply Bool.negb_true_iff in Hc.
  cbn [Str.collapseFrom]. rewrite Hc, (IH false Hw). reflexivity.
Qed.

Lemma collapse_spaces (g : nat) (rest : string) :
  Str.collapseFrom true (Format.spaces g +:+ rest)
  = Str.collapseFrom true rest.
Proof. induction g as [|g IH]; [reflexivity|]. exact IH. Qed.

(** *** The suffix pattern on the documented format *)

Lemma matchSuffixFrom_step (g1 rest : string) (c : ascii) :
  Address.matchSuffixAt Address.suffixTokens (Str.trimStart (String c rest))
  = None ->
  Str.isLineTerminator c = false ->
  Address.matchSuffixFrom g1 (String c rest)
  = Address.matchSuffixFrom (g1 +:+ String c EmptyString) rest.
Proof.
  intros Hm Hc. cbn [Address.matchSuffixFrom]. rewrite Hm, Hc. reflexivity.
Qed.

Lemma upper_letter (k : ascii) :
  Str.isLetter k = true -> Str.isLetter (Str.upper k) = true.
Proof. destruct k as [[] [] [] [] [] [] [] []]; trivial. Qed.

Lemma upper_space (c : ascii) :
  Str.isWhiteSpace c = true -> Str.isLetter (Str.upper c) = false.
Proof. destruct c as [[] [] [] [] [] [] [] []]; trivial; discriminate. Qed.

Lemma upper_digit (c : ascii) :
  Str.isDigit c = true -> Str.isLetter (Str.upper c) = false.
Proof. destruct c as [[] [] [] [] [] [] [] []]; trivial; discriminate. Qed.

Lemma upper_letter_not_space (k : ascii) (c : ascii) :
  Str.isLetter k = true -> Str.isWhiteSpace c = true ->
  Ascii.eqb (Str.upper k) (Str.upper c) = false.
Proof.
  intros Hk Hc. apply upper_letter in Hk. apply upper_space in Hc.
  destruct (Ascii.eqb_spec (Str.upper k) (Str.upper c)) as [He|]; [|reflexivity].
  congruence.
Qed.

Lemma upper_letter_not_digit (k : ascii) (c : ascii) :
  Str.isLetter k = true -> Str.isDigit c = true ->
  Ascii.eqb (Str.upper k) (Str.upper c) = false.
Proof.
  intros Hk Hc. apply upper_letter in Hk. apply upper_digit in Hc.
  destruct (Ascii.eqb_spec (Str.upper k) (Str.upper c)) as [He|]; [|reflexivity].
  congruence.
Qed.

(** A token of letters matched in a text that continues with a space (or
    a digit) is matched in the text before it. *)
Lemma matchTokenCI_before (tok t tail : string) (c : ascii) :
  lettersOnly tok = true ->
  Str.isWhiteSpace c = true \/ Str.isDigit c = true ->
  Str.matchTokenCI tok (t +:+ String c tail) <> None ->
  Str.matchTokenCI tok t <> None.
Proof.
  intros Htok Hc. revert t. induction tok as [|k tok IH]; intros t H;
    [discriminate|].
  cbn [lettersOnly] in Htok. apply Bool.andb_true_iff in Htok as [Hk Htok].
  destruct t as [|a t].
  - exfalso. apply H. cbn [String.append Str.matchTokenCI].
    change (("" +:+ String c tail)%string) with (String c tail).
    cbn [Str.matchTokenCI].
    destruct Hc as [Hc|Hc];
      [rewrite (upper_letter_not_space k c Hk Hc)
      |rewrite (upper_letter_not_digit k c Hk Hc)]; reflexivity.
  - rewrite append_cons in H. cbn [Str.matchTokenCI] in H |- *.
    destruct (Ascii.eqb (Str.upper k) (Str.upper a)); [|exact H].
    specialize (IH Htok t).
    destruct (Str.matchTokenCI tok (t +:+ String c tail)) as [[m r]|];
      [|contradiction].
    destruct (Str.matchTokenCI tok t) as [[m' r']|]; [discriminate|].
    exfalso. apply IH; [discriminate|reflexivity].
Qed.

Lemma matchSuffixAt_none (toks : list string) (s : string) :
  (forall tok, tok ∈ toks -> Str.matchTokenCI tok s = None) ->
  Address.matchSuffixAt toks s = None.
Proof.
  induction toks as [|tok toks IH]; intros H; [reflexivity|].
  cbn [Address.matchSuffixAt]. rewrite (H tok) by constructor.
  apply IH. intros t Ht. apply H. constructor. exact Ht.
Qed.

Lemma tokens_letters :
  Forall (fun tok => lettersOnly tok = true) Address.suffixTokens.
Proof. repeat constructor. Qed.

Lemma tokenAt_false (s : string) :
  tokenAt s = false ->
  forall tok, tok ∈ Address.suffixTokens -> Str.matchTokenCI tok s = None.
Proof.
  unfold tokenAt. intros H tok Htok.
  destruct (Str.matchTokenCI tok s) as [x|] eqn:Hm; [|reflexivity].
  exfalso. apply Bool.not_true_iff_false in H. apply H.
  apply existsb_exists. exists tok. split; [apply list_elem_of_In, Htok|].
  rewrite Hm. reflexivity.
Qed.

(** No token at a place of the street name, whatever follows the name
    after a space or a digit. *)
Lemma quiet_in_name (t tail : string) (c : ascii) :
  tokenAt t = false ->
  Str.isWhiteSpace c = true \/ Str.isDigit c = true ->
  Address.matchSuffixAt Address.suffixTokens (t +:+ String c tail) = None.
Proof.
  intros Ht Hc. apply matchSuffixAt_none. intros tok Htok.
  destruct (Str.matchTokenCI tok (t +:+ String c tail)) as [x|] eqn:Hm;
    [|reflexivity].
  exfalso.
  apply (matchTokenCI_before tok t tail c); [|exact Hc|congruence|].
  - pose proof tokens_letters as Hl. rewrite Forall_forall in Hl.
    apply Hl, Htok.
  - apply tokenAt_false; assumption.
Qed.

Lemma quiet_at_digit (c : ascii) (rest : string) :
  Str.isDigit c = true ->
  Address.matchSuffixAt Address.suffixTokens (String c rest) = None.
Proof.
  intros Hc. apply matchSuffixAt_none. intros tok Htok.
  pose proof tokens_letters as Hl. rewrite Forall_forall in Hl.
  specialize (Hl tok Htok).
  destruct tok as [|k tok]; [|cbn [lettersOnly] in Hl].
  - exfalso. revert Htok. unfold Address.suffixTokens. intros H.
    repeat (apply elem_of_cons in H as [H|H]; [discriminate|]).
    apply elem_of_nil in H. exact H.
  - apply Bool.andb_true_iff in Hl as [Hk _]. cbn [Str.matchTokenCI].
    rewrite (upper_letter_not_digit k c Hk Hc). reflexivity.
Qed.

(** The lazy first group grows over the street name. *)
Lemma walk_name (name g1 tail : string) :
  lettersOnly name = true -> tokenFree name = true ->
  Address.matchSuffixFrom g1 (name +:+ String " " tail)
  = Address.matchSuffixFrom (g1 +:+ name) (String " " tail).
Proof.
  revert g1. induction name as [|c name IH]; intros g1 Hl Hf.
  - rewrite append_nil_r. reflexivity.
  - cbn [lettersOnly tokenFree] in Hl, Hf.
    apply Bool.andb_true_iff in Hl as [Hc Hl].
    apply Bool.andb_true_iff in Hf as [Ht Hf].
    apply Bool.negb_true_iff in Ht.
    rewrite append_cons, matchSuffixFrom_step.
    + rewrite (IH _ Hl Hf), append_assoc. reflexivity.
    + cbn [Str.trimStart]. rewrite (isLetter_solid c Hc).
      rewrite <- append_cons. apply quiet_in_name; [exact Ht|].
      left. reflexivity.
    + apply isLetter_not_terminator, Hc.
Qed.

(** *** Four digits *)

Lemma fourDigits_shape (d : string) :
  fourDigits d = true ->
  exists a b c e,
    d = String a (String b (String c (String e EmptyString)))
    /\ Str.isDigit a = true /\ Str.isDigit b = true
    /\ Str.isDigit c = true /\ Str.isDigit e = true.
Proof.
  destruct d as [|a [|b [|c [|e [|? ?]]]]]; try discriminate. cbn.
  intros H. apply Bool.andb_true_iff in H as [H He].
  apply Bool.andb_true_iff in H as [H Hc].
  apply Bool.andb_true_iff in H as [Ha Hb].
  exists a, b, c, e. repeat split; assumption.
Qed.

Lemma digit_noWhiteSpace (c : ascii) (s : string) :
  Str.isDigit c = true -> noWhiteSpace s = true ->
  noWhiteSpace (String c s) = true.
Proof.
  intros Hc Hs. cbn. rewrite (isDigit_solid c Hc), Hs. reflexivity.
Qed.

Lemma fourDigits_noWhiteSpace (d : string) :
  fourDigits d = true -> noWhiteSpace d = true.
Proof.
  intros H. apply fourDigits_shape in H
    as (a & b & c & e & -> & Ha & Hb & Hc & He).
  repeat (apply digit_noWhiteSpace; [assumption|]). reflexivity.
Qed.

Lemma fourDigits_noLineTerminator (d : string) :
  fourDigits d = true -> Str.noLineTerminator d = true.
Proof.
  intros H. apply fourDigits_shape in H
    as (a & b & c & e & -> & Ha & Hb & Hc & He).
  cbn. rewrite !isDigit_not_terminator by assumption. reflexivity.
Qed.

Lemma fourDigits_nonempty (d : string) :
  fourDigits d = true -> d <> ""%string.
Proof. destruct d; [discriminate|discriminate]. Qed.

(** The suffix and the unit, once the street name is passed. *)
Lemma match_suffix_unit (suffix u : string) :
  suffix ∈ plainSuffixes -> fourDigits u = true ->
  Address.matchSuffixAt Address.suffixTokens
    (Str.trimStart (String " " (suffix +:+ u)))
  = Some (suffix, u).
Proof.
  intros Hs Hu.
  pose proof (fourDigits_noLineTerminator u Hu) as Hlt.
  pose proof (trimStart_solid u) as Hts.
  assert (Hh : headSolid u = true).
  { apply noWhiteSpace_solid;
      [apply fourDigits_noWhiteSpace, Hu|apply fourDigits_nonempty, Hu]. }
  specialize (Hts Hh).
  change (Str.trimStart (String " " (suffix +:+ u)))
    with (Str.trimStart (suffix +:+ u)).
  unfold plainSuffixes in Hs.
  repeat (apply elem_of_cons in Hs as [->|Hs];
          [rewrite trimStart_solid by reflexivity;
           cbv - [Str.trimStart Str.noLineTerminator];
           rewrite Hts, Hlt; reflexivity|]).
  apply elem_of_nil in Hs. contradiction.
Qed.

(** *** The groups of a matched address *)

Lemma take4Digits_other (c : ascii) (rest : string) :
  Str.isDigit c = false -> Address.take4Digits (String c rest) = None.
Proof.
  intros Hc. destruct rest as [|b [|c' [|d rest]]]; cbn; try reflexivity.
  rewrite Hc. reflexivity.
Qed.

Lemma digitGroups_other (c : ascii) (rest : string) :
  Str.isDigit c = false ->
  Address.digitGroups 0 (String c rest) = Address.digitGroups 0 rest
  /\ Address.removeDigitGroups 0 (String c rest)
     = String c (Address.removeDigitGroups 0 rest).
Proof.
  intros Hc. cbn [Address.digitGroups Address.removeDigitGroups].
  rewrite (take4Digits_other c rest Hc). split; reflexivity.
Qed.

Lemma digitGroups_four (d rest : string) :
  fourDigits d = true ->
  Address.digitGroups 0 (d +:+ rest) = d :: Address.digitGroups 0 rest
  /\ Address.removeDigitGroups 0 (d +:+ rest)
     = Address.removeDigitGroups 0 rest.
Proof.
  intros H. apply fourDigits_shape in H
    as (a & b & c & e & -> & Ha & Hb & Hc & He).
  rewrite !append_cons.
  change (("" +:+ rest)%string) with rest.
  cbn [Address.digitGroups Address.removeDigitGroups Address.take4Digits].
  rewrite Ha, Hb, Hc, He. split; reflexivity.
Qed.

Lemma digitGroups_letters (name : string) :
  lettersOnly name = true ->
  Address.digitGroups 0 name = []
  /\ Address.removeDigitGroups 0 name = name.
Proof.
  induction name as [|c name IH]; [split; reflexivity|].
  cbn [lettersOnly]. intros H. apply Bool.andb_true_iff in H as [Hc H].
  destruct (digitGroups_other c name (isLetter_not_digit c Hc)) as [-> ->].
  destruct (IH H) as [-> ->]. split; reflexivity.
Qed.

Lemma digitRun_letters (name : string) :
  lettersOnly name = true -> Address.digitRun name = 0.
Proof.
  destruct name as [|c name]; [reflexivity|]. cbn [lettersOnly Address.digitRun].
  intros H. apply Bool.andb_true_iff in H as [Hc _].
  rewrite (isLetter_not_digit c Hc). reflexivity.
Qed.

Lemma stripJunk_letters (name : string) :
  lettersOnly name = true -> Address.stripJunk name = name.
Proof.
  intros H. unfold Address.stripJunk. rewrite (digitRun_letters name H).
  destruct name as [|c name]; [reflexivity|].
  cbn [lettersOnly] in H. apply Bool.andb_true_iff in H as [Hc H].
  rewrite Hc, (digitRun_letters name H). reflexivity.
Qed.

Lemma stripZeros_digits (s : string) :
  Search.digitsAt (String.length s) s = true ->
  Search.digitsAt (String.length (Address.stripZeros s))
    (Address.stripZeros s) = true.
Proof.
  induction s as [|c s IH]; [reflexivity|]. intros H.
  cbn [Address.stripZeros]. destruct (Ascii.eqb c "0"); [|exact H].
  apply IH. cbn in H. apply Bool.andb_true_iff in H as [_ H]. exact H.
Qed.

Lemma keepAlnum_digits (s : string) :
  Search.digitsAt (String.length s) s = true -> Address.keepAlnum s = s.
Proof.
  induction s as [|c s IH]; [reflexivity|]. cbn. intros H.
  apply Bool.andb_true_iff in H as [Hc H].
  rewrite Hc, Bool.orb_true_r, (IH H). reflexivity.
Qed.

Lemma unit_of_digits (u : string) :
  fourDigits u = true ->
  Address.keepAlnum (Address.stripZeros (Address.stripHash u))
  = Address.stripZeros u.
Proof.
  intros H. pose proof H as H'. apply fourDigits_shape in H'
    as (a & b & c & e & -> & Ha & Hb & Hc & He).
  assert (Hhash : Ascii.eqb a "#" = false).
  { destruct (Ascii.eqb_spec a "#") as [->|]; [discriminate Ha|reflexivity]. }
  unfold Address.stripHash. rewrite Hhash.
  apply keepAlnum_digits, stripZeros_digits.
  cbn. rewrite Ha, Hb, Hc, He. reflexivity.
Qed.

(** The part of the answer before the unit: the number, if any, the name
    and the suffix, with single spaces. *)
Lemma base_of_parts (num name suffix : string) :
  noWhiteSpace num = true -> noWhiteSpace name = true ->
  name <> ""%string ->
  noWhiteSpace suffix = true -> suffix <> ""%string ->
  Str.collapseWhiteSpace
    (Str.join " " (Str.filterTruthy [num; name; suffix]))
  = ((if truthyString num then num +:+ " " else "") +:+ name +:+ " "
       +:+ suffix)%string.
Proof.
  intros Hnum Hname Hne Hsuf Hse. unfold Str.filterTruthy.
  cbn [List.filter].
  assert (Ht : truthyString name = true) by (destruct name; [contradiction|reflexivity]).
  assert (Hts : truthyString suffix = true) by (destruct suffix; [contradiction|reflexivity]).
  rewrite Ht, Hts.
  assert (Htail : Str.collapseFrom false (name +:+ " " +:+ suffix)
                  = (name +:+ " " +:+ suffix)%string).
  { rewrite collapse_word by assumption. rewrite append_cons.
    cbn [Str.collapseFrom]. change (Str.isWhiteSpace " ") with true.
    cbv iota. change ("" +:+ suffix)%string with suffix.
    rewrite collapse_plain by exact Hsuf. reflexivity. }
  unfold Str.collapseWhiteSpace.
  destruct (truthyString num) eqn:Hn.
  - cbn [Str.join].
    rewrite collapse_word by (try assumption; destruct num; discriminate).
    rewrite append_cons. cbn [Str.collapseFrom].
    change (Str.isWhiteSpace " ") with true. cbv iota.
    change ("" +:+ (name +:+ " " +:+ suffix))%string
      with (name +:+ " " +:+ suffix)%string.
    rewrite collapse_word by assumption. rewrite append_cons.
    cbn [Str.collapseFrom]. change (Str.isWhiteSpace " ") with true.
    cbv iota. change ("" +:+ suffix)%string with suffix.
    rewrite collapse_plain by exact Hsuf.
    rewrite !append_assoc. reflexivity.
  - cbn [Str.join]. exact Htail.
Qed.

Lemma append_nil_l (a : string) : ("" +:+ a)%string = a.
Proof. reflexivity. Qed.

Lemma noWhiteSpace_append (a b : string) :
  noWhiteSpace a = true -> noWhiteSpace b = true ->
  noWhiteSpace (a +:+ b) = true.
Proof.
  intros Ha Hb. induction a as [|c a IH]; [exact Hb|].
  cbn [noWhiteSpace] in Ha. apply Bool.andb_true_iff in Ha as [Hc Ha].
  rewrite append_cons. cbn [noWhiteSpace]. rewrite Hc, (IH Ha). reflexivity.
Qed.

Lemma plainSuffix_letters (suffix : string) :
  suffix ∈ plainSuffixes ->
  lettersOnly suffix = true /\ suffix <> ""%string
  /\ Str.toUpperCase suffix = suffix.
Proof.
  revert suffix. apply Forall_forall.
  repeat (constructor; [repeat split; discriminate|]). constructor.
Qed.

Lemma step_digit (g1 rest : string) (c : ascii) :
  Str.isDigit c = true ->
  Address.matchSuffixFrom g1 (String c rest)
  = Address.matchSuffixFrom (g1 +:+ String c EmptyString) rest.
Proof.
  intros Hc. apply matchSuffixFrom_step.
  - cbn [Str.trimStart]. rewrite (isDigit_solid c Hc).
    apply quiet_at_digit, Hc.
  - apply isDigit_not_terminator, Hc.
Qed.

Lemma step_space_digit (g1 rest : string) (c : ascii) :
  Str.isDigit c = true ->
  Address.matchSuffixFrom g1 (String " " (String c rest))
  = Address.matchSuffixFrom (g1 +:+ " ") (String c rest).
Proof.
  intros Hc. apply matchSuffixFrom_step; [|reflexivity].
  change (Str.trimStart (String " " (String c rest)))
    with (Str.trimStart (String c rest)).
  cbn [Str.trimStart]. rewrite (isDigit_solid c Hc).
  apply quiet_at_digit, Hc.
Qed.

Lemma step_space_name (g1 name tail : string) :
  lettersOnly name = true -> name <> ""%string -> tokenFree name = true ->
  Address.matchSuffixFrom g1 (String " " (name +:+ String " " tail))
  = Address.matchSuffixFrom (g1 +:+ " ") (name +:+ String " " tail).
Proof.
  intros Hl Hne Hf. apply matchSuffixFrom_step; [|reflexivity].
  change (Str.trimStart (String " " (name +:+ String " " tail)))
    with (Str.trimStart (name +:+ String " " tail)).
  rewrite trimStart_solid.
  - apply quiet_in_name; [|left; reflexivity].
    destruct name as [|c name]; [contradiction|]. cbn [tokenFree] in Hf.
    apply Bool.andb_true_iff in Hf as [Hf _].
    apply Bool.negb_true_iff, Hf.
  - apply headSolid_append.
    apply noWhiteSpace_solid; [apply lettersOnly_noWhiteSpace, Hl|exact Hne].
Qed.

(** The three groups of the suffix pattern on an address in the
    documented format. *)
Lemma suffixMatch_documented (d1 d2 u name suffix : string) :
  fourDigits d1 = true -> fourDigits d2 = true -> fourDigits u = true ->
  name <> ""%string -> lettersOnly name = true -> tokenFree name = true ->
  suffix ∈ plainSuffixes ->
  Address.suffixMatch
    (d1 +:+ " " +:+ d2 +:+ " " +:+ name +:+ " " +:+ suffix +:+ u)
  = Some ((d1 +:+ " " +:+ d2 +:+ " " +:+ name)%string, suffix, u).
Proof.
  intros H1 H2 Hu Hne Hl Hf Hs.
  apply fourDigits_shape in H1
    as (a1 & a2 & a3 & a4 & -> & Ha1 & Ha2 & Ha3 & Ha4).
  apply fourDigits_shape in H2
    as (b1 & b2 & b3 & b4 & -> & Hb1 & Hb2 & Hb3 & Hb4).
  rewrite !append_cons, !append_nil_l.
  unfold Address.suffixMatch.
  rewrite (isDigit_not_terminator a1 Ha1).
  rewrite !step_digit by assumption.
  rewrite step_space_digit by assumption.
  rewrite !step_digit by assumption.
  rewrite step_space_name by assumption.
  rewrite walk_name by assumption.
  cbn [Address.matchSuffixFrom].
  rewrite (match_suffix_unit suffix u Hs Hu).
  rewrite !append_assoc. reflexivity.
Qed.

Lemma collapse_space (b : bool) (x : string) :
  Str.collapseFrom b (" " +:+ x)
  = ((if b then "" else " ") +:+ Str.collapseFrom true x)%string.
Proof. destruct b; reflexivity. Qed.

Lemma spaces_S (g : nat) (x : string) :
  (Format.spaces (S g) +:+ x)%string = (" " +:+ Format.spaces g +:+ x)%string.
Proof. reflexivity. Qed.

(** A raw address in the documented format, trimmed and collapsed. *)
Lemma collapsed_documented (d1 d2 u name suffix : string) (gap : nat) :
  fourDigits d1 = true -> fourDigits d2 = true -> fourDigits u = true ->
  name <> ""%string -> lettersOnly name = true ->
  suffix ∈ plainSuffixes ->
  let raw := (d1 +:+ " " +:+ d2 +:+ " " +:+ name +:+ Format.spaces (S gap)
                +:+ suffix +:+ u)%string in
  Str.trim (Str.collapseWhiteSpace (Str.trim raw))
  = (d1 +:+ " " +:+ d2 +:+ " " +:+ name +:+ " " +:+ suffix +:+ u)%string.
Proof.
  intros H1 H2 Hu Hne Hl Hs raw.
  destruct (plainSuffix_letters suffix Hs) as (Hsl & Hsne & _).
  pose proof (fourDigits_noWhiteSpace d1 H1) as W1.
  pose proof (fourDigits_noWhiteSpace d2 H2) as W2.
  pose proof (fourDigits_noWhiteSpace u Hu) as Wu.
  pose proof (lettersOnly_noWhiteSpace name Hl) as Wn.
  pose proof (lettersOnly_noWhiteSpace suffix Hsl) as Ws.
  pose proof (fourDigits_nonempty d1 H1) as N1.
  pose proof (fourDigits_nonempty d2 H2) as N2.
  pose proof (fourDigits_nonempty u Hu) as Nu.
  assert (Hlast : lastSolid u = true) by (apply noWhiteSpace_solid; assumption).
  assert (Hhead : headSolid d1 = true) by (apply noWhiteSpace_solid; assumption).
  assert (Hraw : Str.trim raw = raw).
  { apply trim_solid_id; [apply headSolid_append, Hhead|].
    unfold raw. repeat apply lastSolid_append. exact Hlast. }
  rewrite Hraw. unfold raw, Str.collapseWhiteSpace.
  rewrite collapse_word, collapse_space by assumption.
  rewrite collapse_word, collapse_space by assumption.
  rewrite collapse_word by assumption.
  rewrite spaces_S, collapse_space, collapse_spaces.
  rewrite collapse_plain by (apply noWhiteSpace_append; assumption).
  cbv iota. rewrite ?append_nil_l.
  apply trim_solid_id; [apply headSolid_append, Hhead|].
  repeat apply lastSolid_append. exact Hlast.
Qed.

(** The normalizer on the documented format, the three numbers being
    given by their four digits. *)
Lemma parseAddress_digits (d1 d2 u name suffix : string) (gap : nat) :
  fourDigits d1 = true -> fourDigits d2 = true -> fourDigits u = true ->
  name <> ""%string -> lettersOnly name = true -> tokenFree name = true ->
  suffix ∈ plainSuffixes ->
  Address.parseAddress
    (d1 +:+ " " +:+ d2 +:+ " " +:+ name +:+ Format.spaces (S gap)
       +:+ suffix +:+ u)
  = (let num := Address.firstPositive [d1; d2] in
     let unit := Address.stripZeros u in
     ((if truthyString num then num +:+ " " else "") +:+ name +:+ " "
        +:+ suffix)
     +:+ (if truthyString unit then " #" +:+ unit else ""))%string.
Proof.
  intros H1 H2 Hu Hne Hl Hf Hs.
  destruct (plainSuffix_letters suffix Hs) as (Hsl & Hsne & Hup).
  unfold Address.parseAddress. cbv zeta.
  rewrite (collapsed_documented d1 d2 u name suffix gap) by assumption.
  rewrite (suffixMatch_documented d1 d2 u name suffix) by assumption.
  rewrite Hup, (unit_of_digits u Hu).
  destruct (digitGroups_four d1 (" " +:+ d2 +:+ " " +:+ name) H1) as [-> ->].
  rewrite append_cons, append_nil_l.
  destruct (digitGroups_other " " (d2 +:+ " " +:+ name) eq_refl) as [-> ->].
  destruct (digitGroups_four d2 (" " +:+ name) H2) as [-> ->].
  rewrite append_cons, append_nil_l.
  destruct (digitGroups_other " " name eq_refl) as [-> ->].
  destruct (digitGroups_letters name Hl) as [-> ->].
  pose proof (lettersOnly_noWhiteSpace name Hl) as Wn.
  destruct (noWhiteSpace_solid name Wn Hne) as [Hh Hlast].
  assert (Htrim : Str.trim (String " " (String " " name)) = name).
  { unfold Str.trim.
    change (Str.trimStart (String " " (String " " name)))
      with (Str.trimStart name).
    rewrite (trimStart_solid name Hh). apply trimEnd_solid, Hlast. }
  rewrite Htrim, (stripJunk_letters name Hl), (trim_solid_id name Hh Hlast).
  rewrite base_of_parts.
  - destruct (truthyString (Address.stripZeros u)); [reflexivity|].
    rewrite append_nil_r. reflexivity.
  - destruct (firstPositive_solid [d1; d2]) as [->|[_ _]]; [reflexivity|].
    cbn [Address.firstPositive]. cbv zeta.
    destruct (0 <? Address.parseInt10 d1)%N;
      [|destruct (0 <? Address.parseInt10 d2)%N; [|reflexivity]];
      unfold Address.stringOfN, NilZero.string_of_uint;
      destruct (N.to_uint _); try reflexivity;
      apply (string_of_uint_noWhiteSpace (_ _)).
  - exact Wn.
  - exact Hne.
  - apply lettersOnly_noWhiteSpace, Hsl.
  - exact Hsne.
Qed.

Lemma pad4_facts (n : N) :
  (n < 10000)%N ->
  fourDigits (Format.pad4 n) = true
  /\ Address.parseInt10 (Format.pad4 n) = n
  /\ Address.stripZeros (Format.pad4 n)
     = (if (n =? 0)%N then ""%string else Address.stringOfN n).
Proof.
  intros Hn. pose proof (pad4_checked n Hn) as H. unfold pad4Check in H.
  cbv zeta in H. apply Bool.andb_true_iff in H as [H Hz].
  apply Bool.andb_true_iff in H as [Hd Hp].
  apply N.eqb_eq in Hp. apply String.eqb_eq in Hz. repeat split; assumption.
Qed.

Lemma stringOfN_truthy (n : N) : truthyString (Address.stringOfN n) = true.
Proof.
  destruct (stringOfN_solid n) as [H _].
  destruct (Address.stringOfN n); [discriminate|reflexivity].
Qed.

(** X21.  The normalizer on the documented positional format.  For a
    primary number, a secondary number and a unit below 10000 written on
    four digits each, a street name made of letters in which no street-type
    token occurs, at least one space before the suffix, and a suffix other
    than AVE, the normalizer returns the canonical address: the primary
    number if it is not zero and otherwise the secondary number, the name,
    the suffix, and the unit after a # when it is not zero.  (A name that
    holds a token, such as CASTRO, and the suffix AVE, which starts with AV,
    are read otherwise.) *)
Theorem parseAddress_documented_format (primary secondary unit : N)
    (name suffix : string) (gap : nat) :
  (primary < 10000)%N -> (secondary < 10000)%N -> (unit < 10000)%N ->
  name <> ""%string -> lettersOnly name = true -> tokenFree name = true ->
  suffix ∈ plainSuffixes -> 1 <= gap ->
  Address.parseAddress
    (Format.rawAddress primary secondary name gap suffix unit)
  = if (0 <? primary)%N then
      Format.canonicalAddress primary name suffix unit
    else if (0 <? secondary)%N then
      Format.canonicalAddress secondary name suffix unit
    else
      (name +:+ " " +:+ suffix
         +:+ (if (unit =? 0)%N then ""
              else " #" +:+ Address.stringOfN unit))%string.
Proof.
  intros Hp Hs Hu Hne Hl Hf Hsuf Hgap.
  destruct gap as [|gap]; [lia|].
  destruct (pad4_facts primary Hp) as (D1 & P1 & _).
  destruct (pad4_facts secondary Hs) as (D2 & P2 & _).
  destruct (pad4_facts unit Hu) as (Du & _ & Zu).
  unfold Format.rawAddress.
  rewrite (parseAddress_digits _ _ _ name suffix gap D1 D2 Du Hne Hl Hf Hsuf).
  cbv zeta. cbn [Address.firstPositive]. cbv zeta. rewrite P1, P2, Zu.
  unfold Format.canonicalAddress.
  assert (Hunit : (if truthyString
                        (if (unit =? 0)%N then ""%string
                         else Address.stringOfN unit)
                   then (" #" +:+ (if (unit =? 0)%N then ""
                                   else Address.stringOfN unit))%string
                   else ""%string)
                  = (if (unit =? 0)%N then ""%string
                     else (" #" +:+ Address.stringOfN unit)%string)).
  { destruct (unit =? 0)%N; [reflexivity|].
    rewrite stringOfN_truthy. reflexivity. }
  rewrite Hunit.
  destruct (0 <? primary)%N; [|destruct (0 <? secondary)%N].
  - rewrite stringOfN_truthy, !append_assoc. reflexivity.
  - rewrite stringOfN_truthy, !append_assoc. reflexivity.
  - cbn [truthyString]. rewrite !append_assoc. reflexivity.
Qed.

Lemma parseAddress_documented_format_witness :
  Address.parseAddress "0000 1625 PACIFIC             AV0007"
  = "1625 PACIFIC AV #7"%string.
Proof.
  assert (H : (0 < 10000)%N /\ (1625 < 10000)%N /\ (7 < 10000)%N) by lia.
  destruct H as (H0 & H1 & H7).
  assert (Hin : "AV"%string ∈ plainSuffixes) by (right; left).
  assert (Hgap : 1 <= 13) by lia.
  exact (parseAddress_documented_format 0 1625 7 "PACIFIC" "AV" 13 H0 H1 H7
           ltac:(discriminate) eq_refl eq_refl Hin Hgap).
Defined.

(** ** From the argument to the packet *)

(** X22.  Once generate-argument has succeeded, the packet can be built:
    on a case with a property and an included comparable, generate-packet
    and export-packet after generate-argument are not answered with an
    error, whatever the clock reads; the document they return holds the
    narrative generate-argument returned, and the strength shown with it
    is the strength of the assessed value against the declared market
    value of the argument (the value supplied, or else the rounded mean of
    the included sale prices). *)
Theorem packet_after_argument (B : Builtins) (W : World) (tone : Tone)
    (declaredMarketValue : option float) (s : AppState) (p : Property.t) :
  property s = Some p -> includedComps s <> [] ->
  let s1 := snd (generate_argument B tone declaredMarketValue s) in
  exists narrative doc props,
    fst (generate_argument B tone declaredMarketValue s)
    = reply (markdown narrative)
    /\ generate_packet B W s1 = (widgetPacketPreview props (markdown doc), s1)
    /\ export_packet B W s1 = (reply (markdown doc), s1)
    /\ Str.occursIn narrative doc
    /\ pp_comps props = includedComps s
    /\ pp_caseStrength props
       = calculateCaseStrength (Property.assessedValue p)
           (default (Math_round (meanSalePrice (includedComps s)))
              declaredMarketValue).
Proof.
  intros Hp Hinc s1. subst s1. unfold generate_argument. rewrite Hp.
  destruct (length (includedComps s) =? 0)%nat eqn:Hn;
    [apply includedComps_nil in Hn; contradiction|].
  cbn [fst snd]. unfold generate_packet, export_packet, includedComps.
  cbn [property comps argument]. fold (includedComps s). rewrite Hn.
  eexists. eexists. eexists. split; [reflexivity|].
  split; [reflexivity|]. split; [reflexivity|]. split; [|split; reflexivity].
  destruct (buildPacketMarkdown_shape B W p (includedComps s)
              (Argument.mk
                 (narrativeOf B tone p (includedComps s)
                    (default (Math_round (meanSalePrice (includedComps s)))
                       declaredMarketValue)
                    (meanSalePrice (includedComps s)))
                 (default (Math_round (meanSalePrice (includedComps s)))
                    declaredMarketValue)
                 tone)
              (Strength_toString
                 (calculateCaseStrength (Property.assessedValue p)
                    (default (Math_round (meanSalePrice (includedComps s)))
                       declaredMarketValue)))
              (Math_round (meanSalePrice (includedComps s))) Hinc)
    as (pre & mid & Hdoc).
  cbn [Argument.narrative Argument.declaredMarketValue] in Hdoc |- *.
  rewrite Hdoc.
  eexists (pre +:+ Str.join nl (compRow B <$> includedComps s) +:+ mid)%string.
  eexists. rewrite !append_assoc. reflexivity.
Qed.

Lemma packet_after_argument_witness :
  exists narrative doc props,
    fst (generate_argument Sample.builtins neutral None Example.case)
    = reply (markdown narrative)
    /\ generate_packet Sample.builtins (Sample.world 0 [])
         (snd (generate_argument Sample.builtins neutral None Example.case))
       = (widgetPacketPreview props (markdown doc),
          snd (generate_argument Sample.builtins neutral None Example.case))
    /\ pp_caseStrength props = medium.
Proof.
  destruct (packet_after_argument Sample.builtins (Sample.world 0 []) neutral
              None Example.case Example.subject eq_refl)
    as (narrative & doc & props & Hn & Hg & _ & _ & _ & Hs).
  - discriminate.
  - exists narrative, doc, props. split; [exact Hn|]. split; [exact Hg|].
    rewrite Hs. vm_compute. reflexivity.
Defined.

(** ** From the comparables to the argument and the packet *)

Lemma argument_then_packet (B : Builtins) (W : World) (tone : Tone)
    (declaredMarketValue : option float) (s : AppState) :
  is_Some (property s) -> includedComps s <> [] ->
  let s1 := snd (generate_argument B tone declaredMarketValue s) in
  isError (fst (generate_argument B tone declaredMarketValue s)) = false
  /\ isError (fst (generate_packet B W s1)) = false
  /\ isError (fst (export_packet B W s1)) = false.
Proof.
  intros [p Hp] Hinc. cbv zeta. unfold generate_argument. rewrite Hp.
  destruct (length (includedComps s) =? 0)%nat eqn:Hn;
    [apply includedComps_nil in Hn; contradiction|].
  cbn [fst snd]. unfold generate_packet, export_packet, includedComps.
  cbn [property comps argument]. fold (includedComps s). rewrite Hn.
  repeat split.
Qed.

Lemma included_app (s : AppState) (l added : list Comp.t) :
  comps s = l ++ added ->
  (exists c, c ∈ added /\ Comp.included c = true) ->
  includedComps s <> [].
Proof.
  intros Hc (c & Hin & Hinc) Hnil.
  assert (H : c ∈ includedComps s).
  { unfold includedComps. apply list_elem_of_In, List.filter_In.
    split; [|exact Hinc]. rewrite Hc. apply list_elem_of_In, elem_of_app.
    right. exact Hin. }
  rewrite Hnil in H. inversion H.
Qed.

(** X23.  From the comparables to the packet.  When find-comps adds a
    comparable to the case, or add is not refused on a case with a
    property, the comparable added is included, so generate-argument on the
    state it leaves is not answered with an error, and neither are
    generate-packet and export-packet after it. *)
Theorem argument_after_comparables (B : Builtins) (W W' : World) (c : Call)
    (tone : Tone) (declaredMarketValue : option float) (s : AppState) :
  match c with
  | findComps _ _ _ => True
  | manageComps Action.add _ => is_Some (property s)
  | _ => False
  end ->
  isError (fst (callTool B W c s)) = false ->
  comps (snd (callTool B W c s)) <> comps s ->
  let s1 := snd (callTool B W c s) in
  let s2 := snd (generate_argument B tone declaredMarketValue s1) in
  isError (fst (generate_argument B tone declaredMarketValue s1)) = false
  /\ isError (fst (generate_packet B W' s2)) = false
  /\ isError (fst (export_packet B W' s2)) = false.
Proof.
  intros Hc Hok Hnew s1 s2. subst s2.
  apply argument_then_packet.
  - subst s1.
    destruct c as
      [address blk lt estimate|radius monthsBack limit
      |propertyType assessed estimate|input|action comp|tone' declared| | |];
      try contradiction; cbn [callTool] in *.
    + rewrite find_comps_state. cbn [withComps property].
      destruct (property s) as [p|] eqn:Hp; [eexists; reflexivity|].
      exfalso. apply Hnew. unfold find_comps. rewrite Hp. reflexivity.
    + destruct action; try contradiction.
      rewrite (proj1 (manage_comps_frame B W Action.add comp s)). exact Hc.
  - subst s1.
    destruct c as
      [address blk lt estimate|radius monthsBack limit
      |propertyType assessed estimate|input|action comp|tone' declared| | |];
      try contradiction; cbn [callTool] in *.
    + rewrite find_comps_state in Hnew |- *.
      cbn [withComps comps] in Hnew.
      rewrite mergeComps_app in Hnew.
      eapply included_app.
      * cbn [withComps comps]. apply mergeComps_app.
      * destruct (List.filter _ _) as [|x added] eqn:Hf;
          [rewrite app_nil_r in Hnew; contradiction|].
        exists x. split; [constructor|].
        assert (Hx : x ∈ List.filter
                         (freshIn (comps s))
                         (newCompsOf B W (property s)
                            (discovered B W radius monthsBack limit s)))
          by (rewrite Hf; constructor).
        apply list_elem_of_In, List.filter_In in Hx as [Hx _].
        unfold newCompsOf in Hx.
        apply list_elem_of_In, list_elem_of_fmap in Hx as (rec & -> & _).
        reflexivity.
    + destruct action; try contradiction.
      destruct comp as [ci|]; [|discriminate Hok].
      rewrite (manage_comps_add B W ci s Hok). cbv zeta. cbn [snd].
      eapply included_app; [reflexivity|].
      exists (addedComp B W ci). split; [constructor|reflexivity].
Qed.

Lemma argument_after_comparables_witness :
  isError
    (fst (generate_packet Sample.builtins (Sample.world 0 [])
            (snd (generate_argument Sample.builtins formal None
                    (snd (callTool Sample.builtins
                            (Sample.world 0
                               [Example.row (Some "0595150"%string) "600000"
                                  "300000"])
                            (findComps 0.5 24 15)
                            (mkState (Some Example.subject) [] None)))))))
  = false.
Proof.
  refine (proj1 (proj2
    (argument_after_comparables Sample.builtins
       (Sample.world 0 [Example.row (Some "0595150"%string) "600000" "300000"])
       (Sample.world 0 []) (findComps 0.5 24 15) formal None
       (mkState (Some Example.subject) [] None) I eq_refl _))).
  vm_compute. discriminate.
Defined.

(** X24.  generate-argument forgets the argument on file: what it answers
    and the state it leaves depend on the property and the comparables
    only, so after any earlier generate-argument the last one wins, and the
    same request a second time changes nothing. *)
Theorem generate_argument_overwrites (B : Builtins) (tone1 tone2 : Tone)
    (declared1 declared2 : option float) (s : AppState) :
  generate_argument B tone2 declared2
    (snd (generate_argument B tone1 declared1 s))
  = generate_argument B tone2 declared2 s
  /\ snd (generate_argument B tone1 declared1
            (snd (generate_argument B tone1 declared1 s)))
     = snd (generate_argument B tone1 declared1 s)
  /\ forall a,
       fst (generate_argument B tone2 declared2
              (mkState (property s) (comps s) a))
       = fst (generate_argument B tone2 declared2 s).
Proof.
  assert (H : forall tone declared,
            generate_argument B tone declared
              (snd (generate_argument B tone1 declared1 s))
            = generate_argument B tone declared s).
  { intros tone declared. unfold generate_argument at 2.
    destruct (property s) as [p|] eqn:Hp; [|reflexivity].
    destruct (length (includedComps s) =? 0)%nat eqn:Hn; [reflexivity|].
    cbn [snd]. unfold generate_argument, includedComps.
    cbn [property comps argument]. fold (includedComps s).
    rewrite Hp, Hn. reflexivity. }
  split; [apply H|]. split; [rewrite H; reflexivity|].
  intros a. unfold generate_argument, includedComps.
  cbn [property comps argument].
  destruct (property s) as [p|]; [|reflexivity].
  destruct (length (List.filter Comp.included (comps s)) =? 0)%nat;
    reflexivity.
Qed.
